(** * School navigation back end: graph model, congestion-aware A* search,
      congestion estimator and 3D path projection.

    Shallow embedding of [backend/core/path_finder.py],
    [backend/core/congestion_processor.py] and
    [backend/core/model_matcher.py].

    Conventions of the embedding.
    - Python [float] values (coordinates, distances, rates, timestamps) are
      exact rationals [Q]; the one irrational operation of the sources,
      [v ** 0.5], is the section variable [pow_half], about which nothing
      is assumed. The [OverflowError] of a [float] power is modelled in
      [Module Checked] and in the instructions; the search and the
      estimator outside that module are the same functions in exact
      arithmetic, where no power is out of range.
    - A Python [dict] or [set] that the code only looks up is a [gmap] or
      [gset]; a [dict] whose iteration order the code observes
      ([Node.neighbors], [data_cache]) is an insertion-ordered association
      list with Python's update-in-place behaviour.
    - [time.time()] reads the next value of a clock [nat -> Q]; the number
      of readings made so far is threaded with the processor.
    - [while] loops take fuel; every statement that a loop returns a value
      is proved for all sufficiently large fuel. *)

From Stdlib Require Import QArith Qabs Lqa ZArith String List Permutation.
From stdpp Require Import base gmap strings list fin_maps.

Local Open Scope Q_scope.

(** ** Numbers *)

(** Python's [a < b] on numbers. *)
Definition Qltb (a b : Q) : bool :=
  match a ?= b with Lt => true | _ => false end.

(** Python's two-argument [min(a, b)]: the first argument unless the second
    is strictly smaller; [max(a, b)] symmetrically. *)
Definition py_min (a b : Q) : Q := if Qltb b a then b else a.
Definition py_max (a b : Q) : Q := if Qltb a b then b else a.

Definition Qsum (l : list Q) : Q := foldl Qplus 0 l.

(** [len(l)] as a number. *)
Definition Qlen {A} (l : list A) : Q := inject_Z (Z.of_nat (length l)).

(** ** Insertion-ordered dictionaries with string keys *)

Module OrdDict.

Definition t (V : Type) : Type := list (string * V).

(** [d[k]] / [d.get(k)] *)
Fixpoint get {V} (k : string) (d : t V) : option V :=
  match d with
  | [] => None
  | (k', v) :: d' => if String.eqb k' k then Some v else get k d'
  end.

(** [d[k] = v]: an existing key keeps its position, a new one goes last. *)
Fixpoint set {V} (k : string) (v : V) (d : t V) : t V :=
  match d with
  | [] => [(k, v)]
  | (k', v') :: d' =>
      if String.eqb k' k then (k', v) :: d' else (k', v') :: set k v d'
  end.

Definition contains {V} (k : string) (d : t V) : bool :=
  match get k d with Some _ => true | None => false end.

Definition keys {V} (d : t V) : list string := map fst d.

End OrdDict.

(** ** Graph model ([path_finder.py], classes [Node] and [BuildingGraph]) *)

Record Node := mkNode {
  node_id : string;
  node_x : Q;
  node_y : Q;
  node_floor : Z;
  neighbors : OrdDict.t Q        (* neighbor_id -> distance *)
}.

Definition add_neighbor (n : Node) (neighbor_id : string) (distance : Q) : Node :=
  mkNode (node_id n) (node_x n) (node_y n) (node_floor n)
         (OrdDict.set neighbor_id distance (neighbors n)).

Record BuildingGraph := mkGraph {
  nodes : gmap string Node;
  special_locations : gmap string string   (* name -> node_id *)
}.

Definition empty_graph : BuildingGraph := mkGraph ∅ ∅.

(** [BuildingGraph.add_node]: builds a fresh node and stores it under
    [node_id], whatever was stored there before. *)
Definition add_node (g : BuildingGraph) (nid : string) (x y : Q) (floor : Z)
  : Node * BuildingGraph :=
  let node := mkNode nid x y floor [] in
  (node, mkGraph (<[nid := node]> (nodes g)) (special_locations g)).

(** [BuildingGraph.add_edge]: the two [add_neighbor] calls mutate the node
    objects held by the dictionary, one after the other. *)
Definition add_edge (g : BuildingGraph) (node1_id node2_id : string) (distance : Q)
  : BuildingGraph :=
  match nodes g !! node1_id, nodes g !! node2_id with
  | Some _, Some _ =>
      let ns1 := alter (fun n => add_neighbor n node2_id distance) node1_id (nodes g) in
      let ns2 := alter (fun n => add_neighbor n node1_id distance) node2_id ns1 in
      mkGraph ns2 (special_locations g)
  | _, _ => g
  end.

Definition add_special_location (g : BuildingGraph) (name nid : string) : BuildingGraph :=
  mkGraph (nodes g) (<[name := nid]> (special_locations g)).

(** [get_node_by_location]: [None] of the outer option is the [KeyError] of
    [self.nodes[node_id]], [Some None] is the Python [None]. *)
Definition get_node_by_location (g : BuildingGraph) (location_name : string)
  : option (option Node) :=
  match special_locations g !! location_name with
  | Some nid => match nodes g !! nid with Some n => Some (Some n) | None => None end
  | None => Some None
  end.

(** Construction scripts: the calls a client makes on a graph. *)
Inductive graph_op :=
| AddNode (nid : string) (x y : Q) (floor : Z)
| AddEdge (node1_id node2_id : string) (distance : Q)
| AddSpecialLocation (name nid : string).

Definition run_op (g : BuildingGraph) (op : graph_op) : BuildingGraph :=
  match op with
  | AddNode nid x y fl => snd (add_node g nid x y fl)
  | AddEdge a b d => add_edge g a b d
  | AddSpecialLocation name nid => add_special_location g name nid
  end.

Definition build (ops : list graph_op) : BuildingGraph := foldl run_op empty_graph ops.

(** The distances passed to [add_edge] by a script. *)
Definition op_distances (ops : list graph_op) : list Q :=
  flat_map (fun op => match op with AddEdge _ _ d => [d] | _ => [] end) ops.

(** Every neighbor id of every node is itself a node. *)
Definition graph_closedb (g : BuildingGraph) : bool :=
  forallb (fun kn : string * Node =>
             forallb (fun e : string * Q => bool_decide (is_Some (nodes g !! e.1)))
                     (neighbors kn.2))
          (map_to_list (nodes g)).

(** ** Outcomes of Python calls *)

Inductive result (A : Type) : Type :=
| Ok (a : A)                 (* normal return *)
| KeyError (key : string)    (* [d[key]] on a missing key *)
| OutOfFuel                  (* the model's loop bound was reached *)
| OverflowError.             (* a [float] result out of range *)
Arguments Ok {A} a.
Arguments KeyError {A} key.
Arguments OutOfFuel {A}.
Arguments OverflowError {A}.

Definition rbind {A B} (m : result A) (k : A -> result B) : result B :=
  match m with
  | Ok a => k a
  | KeyError key => KeyError key
  | OutOfFuel => OutOfFuel
  | OverflowError => OverflowError
  end.

Notation "'let*' x ':=' m 'in' k" := (rbind m (fun x => k))
  (at level 10, x pattern, m at level 100, k at level 200).

(** [d[key]] on a [gmap]. *)
Definition subscript {V} (d : gmap string V) (key : string) : result V :=
  match d !! key with Some v => Ok v | None => KeyError key end.

(** ** The range of [float]

    A power of a finite [float] raises [OverflowError] when its result is
    out of the range of a double, and so does the conversion of an [int]
    that is too large, which [v + n] makes for a [float] [v] and an [int]
    [n]. Sums, differences and products raise nothing: out of range they
    are infinite, and the powers of an infinity raise nothing either. The
    model keeps the exact number, which then stands for the infinity. *)

(** The least magnitude that is rounded to an infinity. *)
Definition float_limit : Q := inject_Z (2 ^ 1024 - 2 ^ 970).

Definition in_float_range (v : Q) : bool := Qltb (Qabs v) float_limit.

(** [v ** 2] raises nothing: [v] is infinite or its square is in range. *)
Definition square_in_range (v : Q) : bool :=
  negb (in_float_range v) || in_float_range (v ^ 2).

(** [v ** 2] on a [float] *)
Definition float_square (v : Q) : result Q :=
  if square_in_range v then Ok (v ^ 2) else OverflowError.

(** [float(n)] *)
Definition float_of_int (n : Z) : result Q :=
  if in_float_range (inject_Z n) then Ok (inject_Z n) else OverflowError.

(** ** The frontier ([heapq] on a list of [(f_score, node_id)] tuples)

    [heapq] keeps the entries as a binary heap inside a list and
    [heappop] returns a least entry for Python's tuple order. On rationals
    and strings that order is total, so which entry comes out, and which
    entries remain, does not depend on the layout of the heap: the model
    keeps the entries in arrival order and takes out the first least one. *)

Definition entry : Type := Q * string.

(** [(f1, id1) < (f2, id2)]: the first components decide unless they are
    equal. *)
Definition entry_ltb (a b : entry) : bool :=
  if Qeq_bool a.1 b.1 then String.ltb a.2 b.2 else Qltb a.1 b.1.

Fixpoint pop_least (x : entry) (l : list entry) : entry * list entry :=
  match l with
  | [] => (x, [])
  | y :: l' =>
      let '(m, r) := pop_least y l' in
      if entry_ltb m x then (m, x :: r) else (x, l)
  end.

Definition heappush (h : list entry) (e : entry) : list entry := h ++ [e].

Definition heappop (h : list entry) : option (entry * list entry) :=
  match h with
  | [] => None
  | x :: l => Some (pop_least x l)
  end.

(** ** Path finder ([path_finder.py], class [PathFinder]) *)

Section PathFinder.

(** [v ** 0.5] *)
Variable pow_half : Q -> Q.

Variable graph : BuildingGraph.

(** [_heuristic] *)
Definition heuristic (node1_id node2_id : string) : result Q :=
  let* node1 := subscript (nodes graph) node1_id in
  let* node2 := subscript (nodes graph) node2_id in
  let dx := node_x node1 - node_x node2 in
  let dy := node_y node1 - node_y node2 in
  let horizontal_dist := pow_half (dx ^ 2 + dy ^ 2) in
  let floor_dist := inject_Z (Z.abs (node_floor node1 - node_floor node2)) * 5 in
  Ok (pow_half (horizontal_dist ^ 2 + floor_dist ^ 2)).

(** The local variables of [find_path]. *)
Record search := mkSearch {
  open_set : list entry;
  closed_set : gset string;
  g_score : gmap string Q;
  f_score : gmap string Q;
  came_from : gmap string string
}.

(** Lines 104-111: the multiplier applied to an edge. *)
Definition congestion_factor (congestion_data : gmap (string * string) Q)
           (current_id neighbor_id : string) : Q :=
  match congestion_data !! (current_id, neighbor_id) with
  | Some rate => 1 + rate * 2
  | None =>
      match congestion_data !! (neighbor_id, current_id) with
      | Some rate => 1 + rate * 2
      | None => 1
      end
  end.

(** Line 113: [distance = base_distance * congestion_factor]. *)
Definition edge_cost (congestion_data : gmap (string * string) Q)
           (current_id neighbor_id : string) (base_distance : Q) : Q :=
  base_distance * congestion_factor congestion_data current_id neighbor_id.

Section Search.

Variable end_id : string.
Variable congestion_data : gmap (string * string) Q.

(** Body of the [for neighbor_id, base_distance in ...] loop. *)
Definition relax (current_id : string) (s : search) (nb : string * Q)
  : result search :=
  let '(neighbor_id, base_distance) := nb in
  if bool_decide (neighbor_id ∈ closed_set s) then Ok s
  else
    let distance := edge_cost congestion_data current_id neighbor_id base_distance in
    let* g_current := subscript (g_score s) current_id in
    let tentative_g_score := g_current + distance in
    if match g_score s !! neighbor_id with
       | None => true
       | Some g_old => Qltb tentative_g_score g_old
       end
    then
      let* h := heuristic neighbor_id end_id in
      let f := tentative_g_score + h in
      Ok (mkSearch (heappush (open_set s) (f, neighbor_id))
                   (closed_set s)
                   (<[neighbor_id := tentative_g_score]> (g_score s))
                   (<[neighbor_id := f]> (f_score s))
                   (<[neighbor_id := current_id]> (came_from s)))
    else Ok s.

Fixpoint relax_all (current_id : string) (s : search) (nbs : list (string * Q))
  : result search :=
  match nbs with
  | [] => Ok s
  | nb :: nbs' => let* s' := relax current_id s nb in relax_all current_id s' nbs'
  end.

(** How the [while open_set:] loop ends. *)
Inductive loop_exit :=
| Reached (s : search) (current_id : string)   (* line 94 *)
| Exhausted (s : search).                      (* line 124 *)

(** One round of the [while] loop: either the loop ends or the
    variables are updated. *)
Definition step (s : search) : result (loop_exit + search) :=
  match heappop (open_set s) with
  | None => Ok (inl (Exhausted s))
  | Some ((_, current_id), rest) =>
      let s1 := mkSearch rest (closed_set s) (g_score s) (f_score s) (came_from s) in
      if String.eqb current_id end_id then Ok (inl (Reached s1 current_id))
      else
        let s2 := mkSearch rest ({[current_id]} ∪ closed_set s)
                           (g_score s) (f_score s) (came_from s) in
        let* current_node := subscript (nodes graph) current_id in
        let* s3 := relax_all current_id s2 (neighbors current_node) in
        Ok (inr s3)
  end.

Fixpoint search_loop (fuel : nat) (s : search) : result loop_exit :=
  match fuel with
  | O => OutOfFuel
  | S fuel' =>
      let* r := step s in
      match r with
      | inl e => Ok e
      | inr s' => search_loop fuel' s'
      end
  end.

End Search.

(** [_reconstruct_path]: [path] grows by [append]; the result is
    [path[::-1]]. *)
Fixpoint reconstruct_loop (fuel : nat) (cf : gmap string string)
         (current_id : string) (path : list string) : result (list string) :=
  match fuel with
  | O => OutOfFuel
  | S fuel' =>
      match cf !! current_id with
      | Some prev => reconstruct_loop fuel' cf prev (path ++ [prev])
      | None => Ok path
      end
  end.

Definition reconstruct_path (fuel : nat) (cf : gmap string string)
           (current_id : string) : result (list string) :=
  let* path := reconstruct_loop fuel cf current_id [current_id] in
  Ok (rev path).

Definition initial_search (start_id : string) (h0 : Q) : search :=
  mkSearch [(0, start_id)] ∅ {[start_id := 0]} {[start_id := h0]} ∅.

(** [find_path]; [congestion_data = None] is the default argument. *)
Definition find_path (fuel : nat) (start_id end_id : string)
           (congestion_data : option (gmap (string * string) Q))
  : result (list string) :=
  if negb (bool_decide (is_Some (nodes graph !! start_id)))
     || negb (bool_decide (is_Some (nodes graph !! end_id)))
  then Ok []
  else
    let congestion_data := default ∅ congestion_data in
    let* h0 := heuristic start_id end_id in
    let* e := search_loop end_id congestion_data fuel (initial_search start_id h0) in
    match e with
    | Reached s current_id => reconstruct_path fuel (came_from s) current_id
    | Exhausted _ => Ok []
    end.

End PathFinder.

(** ** Congestion estimator ([congestion_processor.py]) *)

Record AccelerometerData := mkAccel {
  acc_x : Q;
  acc_y : Q;
  acc_z : Q;
  timestamp : Q;
  user_id : string;
  location_id : string
}.

Record CongestionProcessor := mkProcessor {
  data_cache : OrdDict.t (list AccelerometerData);  (* location_id -> data points *)
  congestion_cache : gmap string (Q * Q);           (* location_id -> (rate, timestamp) *)
  expiry_time : Z;
  step_threshold : Q;
  step_cooldown : Q
}.

(** [CongestionProcessor.__init__] *)
Definition new_processor (expiry : Z) : CongestionProcessor :=
  mkProcessor [] ∅ expiry (12 # 10) (5 # 10).

(** A processor together with the number of clock readings made so far. *)
Record World := mkWorld {
  proc : CongestionProcessor;
  ticks : nat
}.

(** Computations that read and update the processor and the clock. *)
Definition M (A : Type) : Type := World -> A * World.

Definition ret {A} (a : A) : M A := fun w => (a, w).

Definition bind {A B} (m : M A) (k : A -> M B) : M B :=
  fun w => let '(a, w') := m w in k a w'.

Notation "'do' x '<-' m ';' k" := (bind m (fun x => k))
  (at level 10, x pattern, m at level 100, k at level 200).

Definition get_proc : M CongestionProcessor := fun w => (proc w, w).

Definition set_data_cache (d : OrdDict.t (list AccelerometerData)) : M unit :=
  fun w =>
    let p := proc w in
    (tt, mkWorld (mkProcessor d (congestion_cache p) (expiry_time p)
                              (step_threshold p) (step_cooldown p))
                 (ticks w)).

Definition set_congestion_cache (c : gmap string (Q * Q)) : M unit :=
  fun w =>
    let p := proc w in
    (tt, mkWorld (mkProcessor (data_cache p) c (expiry_time p)
                              (step_threshold p) (step_cooldown p))
                 (ticks w)).

(** A dictionary of the batch: each of the six keys may be missing. *)
Record RawSample := mkRaw {
  raw_x : option Q;
  raw_y : option Q;
  raw_z : option Q;
  raw_timestamp : option Q;
  raw_user_id : option string;
  raw_location_id : option string
}.

(** [data_point[key]] *)
Definition field {A} (key : string) (o : option A) : result A :=
  match o with Some a => Ok a | None => KeyError key end.

(** The keyword arguments of [AccelerometerData(...)], evaluated in the
    order in which they are written. *)
Definition parse_sample (r : RawSample) : result AccelerometerData :=
  let* x := field "x" (raw_x r) in
  let* y := field "y" (raw_y r) in
  let* z := field "z" (raw_z r) in
  let* t := field "timestamp" (raw_timestamp r) in
  let* u := field "user_id" (raw_user_id r) in
  let* l := field "location_id" (raw_location_id r) in
  Ok (mkAccel x y z t u l).

(** Stable sort by timestamp ([list.sort(key=...)]). *)
Fixpoint insert_by_time (d : AccelerometerData) (l : list AccelerometerData)
  : list AccelerometerData :=
  match l with
  | [] => [d]
  | e :: l' =>
      if Qle_bool (timestamp d) (timestamp e) then d :: l
      else e :: insert_by_time d l'
  end.

Definition sort_by_time (l : list AccelerometerData) : list AccelerometerData :=
  foldr insert_by_time [] l.

(** [np.var]: the mean of the squared deviations from the mean. *)
Definition variance (l : list Q) : Q :=
  let mean := Qsum l / Qlen l in
  Qsum (map (fun v => (v - mean) ^ 2) l) / Qlen l.

(** Lines 64-67: the samples younger than the expiry time. *)
Definition unexpired (current_time : Q) (expiry : Z) (l : list AccelerometerData)
  : list AccelerometerData :=
  filter (fun d => Qltb (current_time - timestamp d) (inject_Z expiry) = true) l.

Section Estimator.

Variable pow_half : Q -> Q.
Variable clock : nat -> Q.

(** [time.time()] *)
Definition time_time : M Q :=
  fun w => (clock (ticks w), mkWorld (proc w) (S (ticks w))).

(** [AccelerometerData.magnitude] *)
Definition magnitude (d : AccelerometerData) : Q :=
  pow_half (acc_x d ^ 2 + acc_y d ^ 2 + acc_z d ^ 2).

(** [_clean_expired_data] *)
Definition clean_expired_data (loc : string) : M unit :=
  do p <- get_proc;
  match OrdDict.get loc (data_cache p) with
  | None => ret tt
  | Some l =>
      do current_time <- time_time;
      set_data_cache
        (OrdDict.set loc (unexpired current_time (expiry_time p) l) (data_cache p))
  end.

(** [add_data_point] *)
Definition add_data_point (data : AccelerometerData) : M unit :=
  let loc := location_id data in
  do p <- get_proc;
  let old := default [] (OrdDict.get loc (data_cache p)) in
  do _ <- set_data_cache (OrdDict.set loc (old ++ [data]) (data_cache p));
  clean_expired_data loc.

(** The users of a list of samples, each once. Python iterates a [set]
    in an unspecified order; the model takes first occurrences. *)
Definition users_of (location_data : list AccelerometerData) : list string :=
  remove_dups (map user_id location_data).

(** Lines 111-117: the step counter; the state of the loop is
    [(steps, last_step_time)]. *)
Definition count_steps (p : CongestionProcessor) (user_data : list AccelerometerData)
  : Z :=
  fst (foldl (fun (st : Z * Q) d =>
                if Qltb (step_threshold p) (magnitude d)
                   && Qltb (step_cooldown p) (timestamp d - snd st)
                then ((fst st + 1)%Z, timestamp d)
                else st)
             (0%Z, 0) user_data).

(** Lines 107-123 for one user: [Some steps_per_minute] when the user
    gets an entry in [user_speeds]. *)
Definition user_speed (p : CongestionProcessor)
           (location_data : list AccelerometerData) (uid : string) : option Q :=
  let user_data :=
    sort_by_time (filter (fun d => user_id d = uid) location_data) in
  let steps := count_steps p user_data in
  match user_data, last user_data with
  | first :: _, Some final =>
      let time_span := (timestamp final - timestamp first) / 60 in
      if Qltb 0 time_span then Some (inject_Z steps / time_span) else None
  | _, _ => None   (* not reached: the user has a sample *)
  end.

Definition speed_factor (p : CongestionProcessor)
           (location_data : list AccelerometerData) : Q :=
  let user_speeds := omap (user_speed p location_data) (users_of location_data) in
  let avg_speed :=
    match user_speeds with
    | [] => 0
    | _ => Qsum user_speeds / Qlen user_speeds
    end in
  py_max 0 (py_min 1 (1 - avg_speed / 100)).

Definition variance_factor (location_data : list AccelerometerData) : Q :=
  let magnitudes := map magnitude location_data in
  if (1 <? length magnitudes)%nat
  then py_min 1 (variance magnitudes / 5)
  else 0.

Definition density_factor (location_data : list AccelerometerData) : Q :=
  py_min 1 (Qlen (users_of location_data) / 20).

(** Lines 148-152 *)
Definition combined_rate (p : CongestionProcessor)
           (location_data : list AccelerometerData) : Q :=
  (5 # 10) * speed_factor p location_data
  + (3 # 10) * variance_factor location_data
  + (2 # 10) * density_factor location_data.

(** Lines 81-84: the memoized rate, if there is one and it is younger
    than a minute. The clock is read only when the location is cached. *)
Definition cached_rate (loc : string) : M (option Q) :=
  do p <- get_proc;
  match congestion_cache p !! loc with
  | None => ret None
  | Some (congestion_rate, stamp) =>
      do now <- time_time;
      ret (if Qltb (now - stamp) 60 then Some congestion_rate else None)
  end.

(** Lines 86-157 *)
Definition recompute_congestion (loc : string) : M Q :=
  do _ <- clean_expired_data loc;
  do p <- get_proc;
  match OrdDict.get loc (data_cache p) with
  | None | Some [] => ret 0
  | Some location_data =>
      let congestion_rate := combined_rate p location_data in
      do now <- time_time;
      do _ <- set_congestion_cache (<[loc := (congestion_rate, now)]> (congestion_cache p));
      ret congestion_rate
  end.

(** [calculate_congestion] *)
Definition calculate_congestion (loc : string) : M Q :=
  do c <- cached_rate loc;
  match c with
  | Some congestion_rate => ret congestion_rate
  | None => recompute_congestion loc
  end.

(** [get_all_congestion_rates] *)
Fixpoint all_rates_loop (locs : list string) (res : OrdDict.t Q) : M (OrdDict.t Q) :=
  match locs with
  | [] => ret res
  | loc :: locs' =>
      do _ <- clean_expired_data loc;
      do p <- get_proc;
      match OrdDict.get loc (data_cache p) with
      | Some (_ :: _) =>
          do r <- calculate_congestion loc;
          all_rates_loop locs' (OrdDict.set loc r res)
      | _ => all_rates_loop locs' res
      end
  end.

Definition get_all_congestion_rates : M (OrdDict.t Q) :=
  do p <- get_proc;
  all_rates_loop (OrdDict.keys (data_cache p)) [].

(** Python's [min] and [max] on strings. *)
Definition str_min (a b : string) : string := if String.ltb b a then b else a.
Definition str_max (a b : string) : string := if String.ltb a b then b else a.

(** Line 180: the key under which an edge's samples are filed. *)
Definition path_id (node1_id node2_id : string) : string :=
  ("path_" ++ str_min node1_id node2_id ++ "_" ++ str_max node1_id node2_id)%string.

(** [get_congestion_between_nodes] *)
Definition get_congestion_between_nodes (node1_id node2_id : string) : M Q :=
  calculate_congestion (path_id node1_id node2_id).

(** Lines 194-203: the samples are converted and stored one at a time;
    a missing key raises out of the loop. *)
Fixpoint ingest_batch (batch_data : list RawSample) : M (result unit) :=
  match batch_data with
  | [] => ret (Ok tt)
  | data_point :: rest =>
      match parse_sample data_point with
      | Ok accel_data =>
          do _ <- add_data_point accel_data;
          ingest_batch rest
      | KeyError key => ret (KeyError key)
      | OutOfFuel => ret OutOfFuel
      | OverflowError => ret OverflowError
      end
  end.

(** [process_accelerometer_batch] *)
Definition process_accelerometer_batch (batch_data : list RawSample)
  : M (result (OrdDict.t Q)) :=
  do r <- ingest_batch batch_data;
  match r with
  | Ok _ => do rates <- get_all_congestion_rates; ret (Ok rates)
  | KeyError key => ret (KeyError key)
  | OutOfFuel => ret OutOfFuel
  | OverflowError => ret OverflowError
  end.

(** The calls a client makes on a processor. *)
Inductive processor_op :=
| OpAddDataPoint (data : AccelerometerData)
| OpCalculate (loc : string)
| OpAllRates
| OpBetween (node1_id node2_id : string)
| OpBatch (batch_data : list RawSample).

Definition run_processor_op (w : World) (op : processor_op) : World :=
  match op with
  | OpAddDataPoint d => snd (add_data_point d w)
  | OpCalculate loc => snd (calculate_congestion loc w)
  | OpAllRates => snd (get_all_congestion_rates w)
  | OpBetween a b => snd (get_congestion_between_nodes a b w)
  | OpBatch b => snd (process_accelerometer_batch b w)
  end.

(** A processor after any sequence of calls since its construction. *)
Definition run_processor (expiry : Z) (ops : list processor_op) : World :=
  foldl run_processor_op (mkWorld (new_processor expiry) 0) ops.

End Estimator.

(** ** Path projector ([model_matcher.py]) *)

Record Point3D := mkPoint { px : Q; py : Q; pz : Q }.

Record ModelPathMatcher := mkMatcher {
  model_scale : Q;
  floor_height : Q;
  node_positions : gmap string Point3D
}.

Definition new_matcher (scale height : Q) : ModelPathMatcher := mkMatcher scale height ∅.

(** [register_node] *)
Definition register_node (m : ModelPathMatcher) (nid : string) (x y : Q) (floor : Z)
  : ModelPathMatcher :=
  let model_x := x * model_scale m in
  let model_y := inject_Z floor * floor_height m in
  let model_z := y * model_scale m in
  mkMatcher (model_scale m) (floor_height m)
            (<[nid := mkPoint model_x model_y model_z]> (node_positions m)).

(** [path_to_3d_coordinates]; [Point3D.to_dict] keeps the three
    coordinates, so a point stands for its dictionary. *)
Definition path_to_3d_coordinates (m : ModelPathMatcher) (path : list string)
  : list Point3D :=
  omap (fun nid => node_positions m !! nid) path.

(** Lines 117-127: the points strictly between [start_pos] and [end_pos]. *)
Definition interpolated (start_pos end_pos : Point3D) (points_per_segment : Z)
  : list Point3D :=
  map (fun j : Z =>
         let t := inject_Z j / inject_Z points_per_segment in
         mkPoint (px start_pos + t * (px end_pos - px start_pos))
                 (py start_pos + t * (py end_pos - py start_pos))
                 (pz start_pos + t * (pz end_pos - pz start_pos)))
      (seqZ 1 (points_per_segment - 1)).

(** Lines 103-127: the loop over consecutive pairs. *)
Fixpoint smooth_segments (m : ModelPathMatcher) (path : list string)
         (points_per_segment : Z) : list Point3D :=
  match path with
  | start_node_id :: ((end_node_id :: _) as rest) =>
      match node_positions m !! start_node_id, node_positions m !! end_node_id with
      | Some start_pos, Some end_pos =>
          start_pos :: interpolated start_pos end_pos points_per_segment
      | _, _ => []
      end ++ smooth_segments m rest points_per_segment
  | _ => []
  end.

(** [generate_smooth_path] *)
Definition generate_smooth_path (m : ModelPathMatcher) (path : list string)
           (points_per_segment : Z) : list Point3D :=
  if (length path <? 2)%nat then path_to_3d_coordinates m path
  else
    smooth_segments m path points_per_segment
    ++ match last path with
       | Some final => match node_positions m !! final with
                       | Some p => [p]
                       | None => []
                       end
       | None => []
       end.


(** [get_node_position]: [dict.get], [None] for an unregistered id. *)
Definition get_node_position (m : ModelPathMatcher) (nid : string) : option Point3D :=
  node_positions m !! nid.

(** [register_nodes_from_graph]: one [register_node] per item of the
    dictionary of nodes. The ids are the keys of the dictionary, so every
    id is registered once and the order of the items does not matter. *)
Definition register_nodes_from_graph (m : ModelPathMatcher) (graph_nodes : gmap string Node)
  : ModelPathMatcher :=
  map_fold (fun nid node acc =>
              register_node acc nid (node_x node) (node_y node) (node_floor node))
           m graph_nodes.

(** The dictionaries returned by [generate_path_segments]. *)
Record Segment := mkSegment {
  seg_start : Point3D;
  seg_end : Point3D;
  is_floor_change : bool;
  start_node_id : string;
  end_node_id : string
}.

(** Lines 150-169: the loop over consecutive pairs. *)
Fixpoint segments_loop (m : ModelPathMatcher) (path : list string) : list Segment :=
  match path with
  | start_id :: ((end_id :: _) as rest) =>
      match node_positions m !! start_id, node_positions m !! end_id with
      | Some start_pos, Some end_pos =>
          [mkSegment start_pos end_pos
                     (Qltb (1 # 10) (Qabs (py start_pos - py end_pos)))
                     start_id end_id]
      | _, _ => []
      end ++ segments_loop m rest
  | _ => []
  end.

(** [generate_path_segments] *)
Definition generate_path_segments (m : ModelPathMatcher) (path : list string)
  : list Segment :=
  if (length path <? 2)%nat then [] else segments_loop m path.

(** ** Labels and instructions ([classify_congestion],
       [generate_navigation_instructions]) *)

(** [classify_congestion] *)
Definition classify_congestion (rate : Q) : string :=
  if Qltb rate (2 # 10) then "通畅"
  else if Qltb rate (4 # 10) then "轻微拥堵"
  else if Qltb rate (6 # 10) then "中度拥堵"
  else if Qltb rate (8 # 10) then "拥堵"
  else "严重拥堵".

Section Instructions.

(** [v ** 0.5], the format [f"{v:.1f}"] of a float and the format of an
    [int] inside an f-string. *)
Variable pow_half : Q -> Q.
Variable format_1f : Q -> string.
Variable format_int : Z -> string.

(** Lines 173-199: the instruction for one step of the path; the two
    squares of line 178 are the only operations that can raise. *)
Definition instruction_for (current_node next_node : Node) : result string :=
  let dx := node_x next_node - node_x current_node in
  let dy := node_y next_node - node_y current_node in
  let* dx2 := float_square dx in
  let* dy2 := float_square dy in
  let distance := pow_half (dx2 + dy2) in
  let distance_str := (format_1f distance ++ "米")%string in
  Ok (if (node_floor current_node <? node_floor next_node)%Z then
        ("向前走" ++ distance_str ++ "，然后上楼梯到"
         ++ format_int (node_floor next_node) ++ "楼")%string
      else if (node_floor next_node <? node_floor current_node)%Z then
        ("向前走" ++ distance_str ++ "，然后下楼梯到"
         ++ format_int (node_floor next_node) ++ "楼")%string
      else if Qltb (Qabs dy) (Qabs dx) then
        if Qltb 0 dx then ("向东走" ++ distance_str)%string
        else ("向西走" ++ distance_str)%string
      else
        if Qltb 0 dy then ("向北走" ++ distance_str)%string
        else ("向南走" ++ distance_str)%string).

(** Lines 168-199: the loop over [range(len(path) - 1)]; each round
    looks up its two nodes and appends its instruction before the next
    round starts. *)
Fixpoint instructions_loop (graph : BuildingGraph) (path : list string)
  : result (list string) :=
  match path with
  | current_id :: ((next_id :: _) as rest) =>
      let* current_node := subscript (nodes graph) current_id in
      let* next_node := subscript (nodes graph) next_id in
      let* instruction := instruction_for current_node next_node in
      let* instructions := instructions_loop graph rest in
      Ok (instruction :: instructions)
  | _ => Ok []
  end.

(** [generate_navigation_instructions] *)
Definition generate_navigation_instructions (path : list string) (graph : BuildingGraph)
  : result (list string) :=
  if (length path <? 2)%nat then Ok ["无法生成导航指令，路径不完整"%string]
  else instructions_loop graph path.

End Instructions.

(** ** The search and the estimator with the range of [float]

    [heuristic] and [magnitude] above compute in exact rationals. The
    definitions of this module are the same functions of the sources with
    the squares of [_heuristic] and of [AccelerometerData.magnitude] taken
    by [float_square] and the [int] of [_heuristic] converted by
    [float_of_int], so that the [OverflowError] of an out-of-range value
    is raised where Python raises it and propagates as Python propagates
    it. Whatever does not evaluate one of the two functions is shared with
    the definitions above. *)

Module Checked.

Section PathFinder.

Variable pow_half : Q -> Q.
Variable graph : BuildingGraph.

(** [_heuristic] *)
Definition heuristic (node1_id node2_id : string) : result Q :=
  let* node1 := subscript (nodes graph) node1_id in
  let* node2 := subscript (nodes graph) node2_id in
  let dx := node_x node1 - node_x node2 in
  let dy := node_y node1 - node_y node2 in
  let* dx2 := float_square dx in
  let* dy2 := float_square dy in
  let horizontal_dist := pow_half (dx2 + dy2) in
  let floor_dist := (Z.abs (node_floor node1 - node_floor node2) * 5)%Z in
  let* horizontal2 := float_square horizontal_dist in
  let* floor2 := float_of_int (floor_dist ^ 2) in
  Ok (pow_half (horizontal2 + floor2)).

Section Search.

Variable end_id : string.
Variable congestion_data : gmap (string * string) Q.

(** Body of the [for neighbor_id, base_distance in ...] loop. *)
Definition relax (current_id : string) (s : search) (nb : string * Q)
  : result search :=
  let '(neighbor_id, base_distance) := nb in
  if bool_decide (neighbor_id ∈ closed_set s) then Ok s
  else
    let distance := edge_cost congestion_data current_id neighbor_id base_distance in
    let* g_current := subscript (g_score s) current_id in
    let tentative_g_score := g_current + distance in
    if match g_score s !! neighbor_id with
       | None => true
       | Some g_old => Qltb tentative_g_score g_old
       end
    then
      let* h := heuristic neighbor_id end_id in
      let f := tentative_g_score + h in
      Ok (mkSearch (heappush (open_set s) (f, neighbor_id))
                   (closed_set s)
                   (<[neighbor_id := tentative_g_score]> (g_score s))
                   (<[neighbor_id := f]> (f_score s))
                   (<[neighbor_id := current_id]> (came_from s)))
    else Ok s.

Fixpoint relax_all (current_id : string) (s : search) (nbs : list (string * Q))
  : result search :=
  match nbs with
  | [] => Ok s
  | nb :: nbs' => let* s' := relax current_id s nb in relax_all current_id s' nbs'
  end.

(** One round of the [while] loop. *)
Definition step (s : search) : result (loop_exit + search) :=
  match heappop (open_set s) with
  | None => Ok (inl (Exhausted s))
  | Some ((_, current_id), rest) =>
      let s1 := mkSearch rest (closed_set s) (g_score s) (f_score s) (came_from s) in
      if String.eqb current_id end_id then Ok (inl (Reached s1 current_id))
      else
        let s2 := mkSearch rest ({[current_id]} ∪ closed_set s)
                           (g_score s) (f_score s) (came_from s) in
        let* current_node := subscript (nodes graph) current_id in
        let* s3 := relax_all current_id s2 (neighbors current_node) in
        Ok (inr s3)
  end.

Fixpoint search_loop (fuel : nat) (s : search) : result loop_exit :=
  match fuel with
  | O => OutOfFuel
  | S fuel' =>
      let* r := step s in
      match r with
      | inl e => Ok e
      | inr s' => search_loop fuel' s'
      end
  end.

End Search.

(** [find_path] *)
Definition find_path (fuel : nat) (start_id end_id : string)
           (congestion_data : option (gmap (string * string) Q))
  : result (list string) :=
  if negb (bool_decide (is_Some (nodes graph !! start_id)))
     || negb (bool_decide (is_Some (nodes graph !! end_id)))
  then Ok []
  else
    let congestion_data := default ∅ congestion_data in
    let* h0 := heuristic start_id end_id in
    let* e := search_loop end_id congestion_data fuel (initial_search start_id h0) in
    match e with
    | Reached s current_id => reconstruct_path fuel (came_from s) current_id
    | Exhausted _ => Ok []
    end.

End PathFinder.

(** Computations on the processor that may raise: the processor keeps
    what was done to it before the exception. *)
Definition bind_result {A B} (m : M (result A)) (k : A -> M (result B)) : M (result B) :=
  fun w =>
    let '(r, w') := m w in
    match r with
    | Ok a => k a w'
    | KeyError key => (KeyError key, w')
    | OutOfFuel => (OutOfFuel, w')
    | OverflowError => (OverflowError, w')
    end.

Notation "'do*' x '<-' m ';' k" := (bind_result m (fun x => k))
  (at level 10, x pattern, m at level 100, k at level 200).

Section Estimator.

Variable pow_half : Q -> Q.
Variable clock : nat -> Q.

(** [AccelerometerData.magnitude] *)
Definition magnitude (d : AccelerometerData) : result Q :=
  let* x2 := float_square (acc_x d) in
  let* y2 := float_square (acc_y d) in
  let* z2 := float_square (acc_z d) in
  Ok (pow_half (x2 + y2 + z2)).

(** Lines 113-117: the loop of the step counter from the state
    [(steps, last_step_time)]. *)
Fixpoint count_steps_from (p : CongestionProcessor) (st : Z * Q)
         (user_data : list AccelerometerData) : result (Z * Q) :=
  match user_data with
  | [] => Ok st
  | d :: rest =>
      let* m := magnitude d in
      count_steps_from p
        (if Qltb (step_threshold p) m
            && Qltb (step_cooldown p) (timestamp d - snd st)
         then ((fst st + 1)%Z, timestamp d)
         else st)
        rest
  end.

Definition count_steps (p : CongestionProcessor) (user_data : list AccelerometerData)
  : result Z :=
  let* st := count_steps_from p (0%Z, 0) user_data in
  Ok (fst st).

(** Lines 107-123 for one user. *)
Definition user_speed (p : CongestionProcessor)
           (location_data : list AccelerometerData) (uid : string)
  : result (option Q) :=
  let user_data :=
    sort_by_time (filter (fun d => user_id d = uid) location_data) in
  let* steps := count_steps p user_data in
  Ok (match user_data, last user_data with
      | first :: _, Some final =>
          let time_span := (timestamp final - timestamp first) / 60 in
          if Qltb 0 time_span then Some (inject_Z steps / time_span) else None
      | _, _ => None
      end).

(** Lines 105-123: the values of [user_speeds], user after user. *)
Fixpoint user_speeds_loop (p : CongestionProcessor)
         (location_data : list AccelerometerData) (users : list string)
  : result (list Q) :=
  match users with
  | [] => Ok []
  | uid :: users' =>
      let* speed := user_speed p location_data uid in
      let* speeds := user_speeds_loop p location_data users' in
      Ok (match speed with Some v => v :: speeds | None => speeds end)
  end.

Definition speed_factor (p : CongestionProcessor)
           (location_data : list AccelerometerData) : result Q :=
  let* user_speeds := user_speeds_loop p location_data (users_of location_data) in
  let avg_speed :=
    match user_speeds with
    | [] => 0
    | _ => Qsum user_speeds / Qlen user_speeds
    end in
  Ok (py_max 0 (py_min 1 (1 - avg_speed / 100))).

(** Line 136: [[data.magnitude for data in location_data]] *)
Fixpoint magnitudes_of (location_data : list AccelerometerData) : result (list Q) :=
  match location_data with
  | [] => Ok []
  | d :: rest =>
      let* m := magnitude d in
      let* ms := magnitudes_of rest in
      Ok (m :: ms)
  end.

Definition variance_factor (location_data : list AccelerometerData) : result Q :=
  let* magnitudes := magnitudes_of location_data in
  Ok (if (1 <? length magnitudes)%nat
      then py_min 1 (variance magnitudes / 5)
      else 0).

(** Lines 101-152 *)
Definition combined_rate (p : CongestionProcessor)
           (location_data : list AccelerometerData) : result Q :=
  let* speed := speed_factor p location_data in
  let* var := variance_factor location_data in
  Ok ((5 # 10) * speed + (3 # 10) * var + (2 # 10) * density_factor location_data).

(** Lines 86-157: an exception leaves the record pruned and the rate
    not memoized. *)
Definition recompute_congestion (loc : string) : M (result Q) :=
  do _ <- clean_expired_data clock loc;
  do p <- get_proc;
  match OrdDict.get loc (data_cache p) with
  | None | Some [] => ret (Ok 0)
  | Some location_data =>
      do* congestion_rate <- ret (combined_rate p location_data);
      do now <- time_time clock;
      do _ <- set_congestion_cache (<[loc := (congestion_rate, now)]> (congestion_cache p));
      ret (Ok congestion_rate)
  end.

(** [calculate_congestion] *)
Definition calculate_congestion (loc : string) : M (result Q) :=
  do c <- cached_rate clock loc;
  match c with
  | Some congestion_rate => ret (Ok congestion_rate)
  | None => recompute_congestion loc
  end.

(** [get_all_congestion_rates] *)
Fixpoint all_rates_loop (locs : list string) (res : OrdDict.t Q)
  : M (result (OrdDict.t Q)) :=
  match locs with
  | [] => ret (Ok res)
  | loc :: locs' =>
      do _ <- clean_expired_data clock loc;
      do p <- get_proc;
      match OrdDict.get loc (data_cache p) with
      | Some (_ :: _) =>
          do* r <- calculate_congestion loc;
          all_rates_loop locs' (OrdDict.set loc r res)
      | _ => all_rates_loop locs' res
      end
  end.

Definition get_all_congestion_rates : M (result (OrdDict.t Q)) :=
  do p <- get_proc;
  all_rates_loop (OrdDict.keys (data_cache p)) [].

(** [get_congestion_between_nodes] *)
Definition get_congestion_between_nodes (node1_id node2_id : string) : M (result Q) :=
  calculate_congestion (path_id node1_id node2_id).

(** [process_accelerometer_batch] *)
Definition process_accelerometer_batch (batch_data : list RawSample)
  : M (result (OrdDict.t Q)) :=
  do* _ <- ingest_batch clock batch_data;
  get_all_congestion_rates.

(** A call made on a processor; the processor is used on after a call
    that raised. *)
Definition run_processor_op (w : World) (op : processor_op) : World :=
  match op with
  | OpAddDataPoint d => snd (add_data_point clock d w)
  | OpCalculate loc => snd (calculate_congestion loc w)
  | OpAllRates => snd (get_all_congestion_rates w)
  | OpBetween a b => snd (get_congestion_between_nodes a b w)
  | OpBatch b => snd (process_accelerometer_batch b w)
  end.

Definition run_processor (expiry : Z) (ops : list processor_op) : World :=
  foldl run_processor_op (mkWorld (new_processor expiry) 0) ops.

End Estimator.

End Checked.

(** ** Notions used to state the properties *)

(** The graph used in the examples below: two rooms joined by a corridor
    of length 1. *)
Definition two_rooms : BuildingGraph :=
  build [AddNode "A" 0 0 0; AddNode "B" 1 0 0; AddEdge "A" "B" 1].

(** The rate of an edge in a snapshot, whichever way round the snapshot
    names it: the pair [(a, b)] or, failing that, [(b, a)]. *)
Definition snapshot_rate (congestion_data : gmap (string * string) Q)
           (a b : string) : option Q :=
  match congestion_data !! (a, b) with
  | Some r => Some r
  | None => congestion_data !! (b, a)
  end.

(** The directed edges of a graph, one entry per neighbor-map entry. *)
Definition edges (g : BuildingGraph) : list (string * string * Q) :=
  flat_map (fun kn : string * Node =>
              map (fun nd : string * Q => (kn.1, nd.1, nd.2)) (neighbors kn.2))
           (map_to_list (nodes g)).

(** [b] is a neighbor of [a]. *)
Definition edge_rel (g : BuildingGraph) (a b : string) : Prop :=
  exists node d, nodes g !! a = Some node /\ In (b, d) (neighbors node).

(** [b] can be reached from [a] along neighbor links. *)
Inductive connected (g : BuildingGraph) (a : string) : string -> Prop :=
| connected_refl : connected g a a
| connected_step b c : connected g a b -> edge_rel g b c -> connected g a c.

(** All base distances are strictly positive. *)
Definition positive_distancesb (g : BuildingGraph) : bool :=
  forallb (fun e : string * string * Q => Qltb 0 e.2) (edges g).

(** All rates of a snapshot are non-negative. *)
Definition nonneg_ratesb (cong : gmap (string * string) Q) : bool :=
  forallb (fun kr : string * string * Q => Qle_bool 0 kr.2) (map_to_list cong).

(** The number of rounds that is always enough: the number of directed
    edges plus three. *)
Definition enough_fuel (g : BuildingGraph) : nat := (length (edges g) + 3)%nat.

(** The state after storing the samples one by one with [add_data_point]. *)
Definition ingest_all (clock : nat -> Q) (samples : list AccelerometerData) (w : World)
  : World :=
  foldl (fun w' d => snd (add_data_point clock d w')) w samples.

Definition registered (m : ModelPathMatcher) (nid : string) : bool :=
  bool_decide (is_Some (node_positions m !! nid)).

(** No registered node of the path is directly followed by an
    unregistered one. *)
Fixpoint no_gap_after_registered (m : ModelPathMatcher) (path : list string) : bool :=
  match path with
  | a :: ((b :: _) as rest) =>
      (if registered m a then registered m b else true)
      && no_gap_after_registered m rest
  | _ => true
  end.

(** The three squares taken by [magnitude] raise nothing. *)
Definition magnitude_in_range (d : AccelerometerData) : bool :=
  square_in_range (acc_x d) && square_in_range (acc_y d) && square_in_range (acc_z d).

(** [_heuristic] raises no [OverflowError] between a node of the graph
    and [end_id]. *)
Definition heuristic_in_range (pow_half : Q -> Q) (g : BuildingGraph) (end_id : string)
  : bool :=
  forallb (fun kn : string * Node =>
             match Checked.heuristic pow_half g kn.1 end_id with
             | OverflowError => false
             | _ => true
             end)
          (map_to_list (nodes g)).

(** The two squares taken for the step from [a] to [b] raise nothing. *)
Definition step_in_range (a b : Node) : bool :=
  square_in_range (node_x b - node_x a) && square_in_range (node_y b - node_y a).

(** No square of a step of the path between two nodes of the graph
    overflows. *)
Fixpoint steps_in_range (g : BuildingGraph) (path : list string) : bool :=
  match path with
  | a :: ((b :: _) as rest) =>
      match nodes g !! a, nodes g !! b with
      | Some na, Some nb => step_in_range na nb
      | _, _ => true
      end
      && steps_in_range g rest
  | _ => true
  end.

(** Two rooms joined by a corridor, one of them at [x = 10 ^ 200]. *)
Definition far_rooms : BuildingGraph :=
  build [AddNode "A" (10 ^ 200) 0 0; AddNode "B" 0 0 0; AddEdge "A" "B" 1].

(** A sample with [x = 10 ^ 200], and the processor (expiry time 300, the
    clock at 0) after it has been stored. *)
Definition far_sample : AccelerometerData := mkAccel (10 ^ 200) 0 0 0 "u" "L".

Definition far_state : World :=
  Checked.run_processor (fun v => v) (fun _ => 0) 300 [OpAddDataPoint far_sample].

(** The last point appended by [generate_smooth_path] (lines 130-131). *)
Definition final_point (m : ModelPathMatcher) (path : list string) : list Point3D :=
  match last path with
  | Some final => match node_positions m !! final with
                  | Some p => [p]
                  | None => []
                  end
  | None => []
  end.


(** * Properties *)

(** ** Numbers *)

Lemma Qltb_lt (a b : Q) : Qltb a b = true <-> a < b.
Proof.
  unfold Qltb. rewrite Qlt_alt. destruct (a ?= b); split; congruence.
Qed.

Lemma Qltb_ge (a b : Q) : Qltb a b = false <-> b <= a.
Proof.
  rewrite <- not_true_iff_false, Qltb_lt. split.
  - apply Qnot_lt_le.
  - intros H1 H2. apply (Qlt_irrefl a). eapply Qlt_le_trans; eauto.
Qed.

(** ** Ordered dictionaries *)

Lemma ord_get_in {V} (k : string) (v : V) (d : OrdDict.t V) :
  OrdDict.get k d = Some v -> In (k, v) d.
Proof.
  induction d as [|[k' v'] d IH]; simpl; [discriminate|].
  destruct (String.eqb_spec k' k) as [->|Hne].
  - intros [= ->]. now left.
  - intros H. right. auto.
Qed.

Lemma ord_set_in {V} (k k' : string) (v v' : V) (d : OrdDict.t V) :
  In (k, v) (OrdDict.set k' v' d) -> v = v' \/ In (k, v) d.
Proof.
  induction d as [|[k0 v0] d IH]; simpl.
  - intros [[= _ ->]|[]]. now left.
  - destruct (String.eqb k0 k'); simpl.
    + intros [[= _ ->]|H]; [now left | right; now right].
    + intros [H|H]; [right; now left|].
      destruct (IH H) as [->|H']; [now left | right; now right].
Qed.

Lemma ord_set_keys {V} (k k' : string) (v : V) (d : OrdDict.t V) :
  In k (OrdDict.keys (OrdDict.set k' v d)) -> k = k' \/ In k (OrdDict.keys d).
Proof.
  unfold OrdDict.keys. induction d as [|[k0 v0] d IH]; simpl.
  - intros [<-|[]]. now left.
  - destruct (String.eqb k0 k'); simpl.
    + intros [<-|H]; right; [now left | now right].
    + intros [<-|H]; [right; now left|].
      destruct (IH H) as [->|H']; [now left | right; now right].
Qed.

Lemma ord_get_set_eq {V} (k : string) (v : V) (d : OrdDict.t V) :
  OrdDict.get k (OrdDict.set k v d) = Some v.
Proof.
  induction d as [|[k0 v0] d IH]; simpl.
  - now rewrite String.eqb_refl.
  - destruct (String.eqb k0 k) eqn:E; simpl; rewrite E; auto.
Qed.

Lemma ord_get_set_ne {V} (k k' : string) (v : V) (d : OrdDict.t V) :
  k <> k' -> OrdDict.get k (OrdDict.set k' v d) = OrdDict.get k d.
Proof.
  intros Hne. induction d as [|[k0 v0] d IH]; simpl.
  - destruct (String.eqb_spec k' k); congruence.
  - destruct (String.eqb_spec k0 k') as [->|Hne']; simpl.
    + destruct (String.eqb_spec k' k); congruence.
    + destruct (String.eqb k0 k); auto.
Qed.

(** ** Graph model *)

Lemma build_snoc (ops : list graph_op) (op : graph_op) :
  build (ops ++ [op]) = run_op (build ops) op.
Proof. unfold build. now rewrite foldl_app. Qed.

Lemma op_distances_snoc (ops : list graph_op) (op : graph_op) :
  op_distances (ops ++ [op]) = op_distances ops ++ op_distances [op].
Proof. unfold op_distances. now rewrite flat_map_app. Qed.

(** Every stored distance comes from the list [ds]. *)
Definition distances_from (ds : list Q) (g : BuildingGraph) : Prop :=
  forall nid n k d,
    nodes g !! nid = Some n -> In (k, d) (neighbors n) -> In d ds.

Lemma add_neighbor_distances (n : Node) (k k' : string) (d d' : Q) :
  In (k, d) (neighbors (add_neighbor n k' d')) -> d = d' \/ In (k, d) (neighbors n).
Proof. apply ord_set_in. Qed.

Lemma run_op_distances (ds : list Q) (g : BuildingGraph) (op : graph_op) :
  distances_from ds g -> distances_from (ds ++ op_distances [op]) (run_op g op).
Proof.
  intros Hg nid n k d Hn Hin. rewrite in_app_iff.
  destruct op as [a x y fl | a b w | name a]; simpl in *.
  - destruct (decide (a = nid)) as [->|Hne].
    + rewrite lookup_insert_eq in Hn. injection Hn as <-. destruct Hin.
    + rewrite lookup_insert_ne in Hn by done. left. eauto.
  - unfold add_edge in Hn.
    destruct (nodes g !! a) as [na|] eqn:Ea; [|left; eauto].
    destruct (nodes g !! b) as [nb|] eqn:Eb; [|left; eauto].
    simpl in Hn.
    assert (Hmid : forall m, alter (fun n0 => add_neighbor n0 b w) a (nodes g) !! nid = Some m ->
                   In (k, d) (neighbors m) -> d = w \/ In d ds).
    { intros m Hm Hk. destruct (decide (a = nid)) as [->|Hne].
      - rewrite lookup_alter_eq, Ea in Hm. injection Hm as <-.
        apply add_neighbor_distances in Hk as [->|Hk]; [now left | right; eauto].
      - rewrite lookup_alter_ne in Hm by done. right. eauto. }
    destruct (decide (b = nid)) as [->|Hne].
    + rewrite lookup_alter_eq in Hn.
      destruct (alter _ a (nodes g) !! nid) as [m|] eqn:Em; [|discriminate].
      injection Hn as <-.
      apply add_neighbor_distances in Hin as [->|Hin]; [right; now left|].
      destruct (Hmid m eq_refl Hin) as [->|H]; [right; now left | now left].
    + rewrite lookup_alter_ne in Hn by done.
      destruct (Hmid n Hn Hin) as [->|H]; [right; now left | now left].
  - left. eauto.
Qed.

Lemma build_distances (ops : list graph_op) : distances_from (op_distances ops) (build ops).
Proof.
  induction ops as [|op ops IH] using rev_ind.
  - intros nid n k d Hn. unfold build in Hn. simpl in Hn.
    now rewrite lookup_empty in Hn.
  - rewrite build_snoc, op_distances_snoc. now apply run_op_distances.
Qed.

(** C2, as stated, fails: a second [add_node] for the id ["A"] returns a
    node as usual, and the graph then holds the new node in place of the
    old one, whose coordinates and neighbors are gone. *)
Lemma add_node_overwrites_example :
  nodes two_rooms !! "A"%string = Some (mkNode "A" 0 0 0 [("B"%string, 1)])
  /\ fst (add_node two_rooms "A" 5 5 1) = mkNode "A" 5 5 1 []
  /\ nodes (snd (add_node two_rooms "A" 5 5 1)) !! "A"%string = Some (mkNode "A" 5 5 1 []).
Proof. repeat split; vm_compute; reflexivity. Qed.

(** C2 (amended): [add_node] never fails and makes no difference between a
    new id and one already present: it returns a fresh node without
    neighbors, the graph maps the id to that node afterwards (replacing
    whatever node was there), and every other node and the named
    locations are unchanged. *)
Theorem add_node_replaces (g : BuildingGraph) (nid : string) (x y : Q) (floor : Z) :
  let node := fst (add_node g nid x y floor) in
  let g' := snd (add_node g nid x y floor) in
  node = mkNode nid x y floor []
  /\ nodes g' !! nid = Some node
  /\ (forall other, other <> nid -> nodes g' !! other = nodes g !! other)
  /\ special_locations g' = special_locations g.
Proof.
  simpl. repeat split.
  - apply lookup_insert_eq.
  - intros other Hne. now apply lookup_insert_ne.
Qed.

(** C8, as stated, fails: [add_edge] with distance -1 is carried out, and
    both neighbor maps then hold the negative distance. *)
Lemma add_edge_negative_example :
  let g := add_edge two_rooms "A" "B" (-1) in
  nodes g !! "A"%string = Some (mkNode "A" 0 0 0 [("B"%string, -1)])
  /\ nodes g !! "B"%string = Some (mkNode "B" 1 0 0 [("A"%string, -1)])
  /\ -1 < 0.
Proof. repeat split; vm_compute; reflexivity. Qed.

(** C8 (amended): [add_edge] stores the distance it is given without
    looking at its sign. In a graph built by [add_node], [add_edge] and
    [add_special_location] calls every distance of every neighbor map is a
    distance that was passed to [add_edge]; so the stored distances are
    non-negative whenever every [add_edge] call was given a non-negative
    distance. *)
Theorem stored_distances_come_from_add_edge
        (ops : list graph_op) (nid k : string) (n : Node) (d : Q) :
  nodes (build ops) !! nid = Some n ->
  In (k, d) (neighbors n) ->
  In d (op_distances ops)
  /\ (Forall (fun w => 0 <= w) (op_distances ops) -> 0 <= d).
Proof.
  intros Hn Hin.
  assert (Hd : In d (op_distances ops)) by (eapply build_distances; eauto).
  split; [exact Hd|].
  intros Hall. rewrite Forall_forall in Hall. apply Hall.
  now apply list_elem_of_In.
Qed.

Lemma stored_distances_come_from_add_edge_witness :
  In 1 (op_distances [AddNode "A" 0 0 0; AddNode "B" 1 0 0; AddEdge "A" "B" 1])
  /\ (Forall (fun w => 0 <= w)
             (op_distances [AddNode "A" 0 0 0; AddNode "B" 1 0 0; AddEdge "A" "B" 1])
      -> 0 <= 1).
Proof.
  apply (stored_distances_come_from_add_edge
           [AddNode "A" 0 0 0; AddNode "B" 1 0 0; AddEdge "A" "B" 1]
           "A" "B" (mkNode "A" 0 0 0 [("B"%string, 1)]) 1).
  - vm_compute. reflexivity.
  - simpl. left. reflexivity.
Defined.

(** ** Path finder: edge costs *)

Lemma edge_cost_rate (cong : gmap (string * string) Q) (a b : string) (base r : Q) :
  snapshot_rate cong a b = Some r -> edge_cost cong a b base = base * (1 + r * 2).
Proof.
  unfold snapshot_rate, edge_cost, congestion_factor.
  destruct (cong !! (a, b)) as [r0|].
  - now intros [= ->].
  - now intros ->.
Qed.

Lemma edge_cost_unknown (cong : gmap (string * string) Q) (a b : string) (base : Q) :
  snapshot_rate cong a b = None -> edge_cost cong a b base = base * 1.
Proof.
  unfold snapshot_rate, edge_cost, congestion_factor.
  destruct (cong !! (a, b)) as [r0|]; [discriminate|]. now intros ->.
Qed.

Lemma heuristic_ok (pow_half : Q -> Q) (g : BuildingGraph) (a b : string) :
  is_Some (nodes g !! a) -> is_Some (nodes g !! b) ->
  exists h, heuristic pow_half g a b = Ok h.
Proof.
  intros [na Ha] [nb Hb]. unfold heuristic, subscript. rewrite Ha, Hb. simpl. eauto.
Qed.

(** C4: when the search expands the edge from [current_id] to a neighbor
    that is not closed, the cost it charges on top of [g_score[current_id]]
    is [base_distance * (1 + rate * 2)], the rate being looked up under
    [(current, neighbor)] or, failing that, [(neighbor, current)]; with no
    rate under either pair the cost is [base_distance * 1], that is the
    base distance; with rate 1 it is three times the base distance. The
    neighbor's [g_score] becomes [g_score[current_id]] plus that cost when
    it had none or a larger one, and [came_from] then records the edge. *)
Theorem relax_charges_congested_distance
        (pow_half : Q -> Q) (g : BuildingGraph) (end_id : string)
        (cong : gmap (string * string) Q)
        (current_id neighbor_id : string) (base_distance g_current : Q) (s : search) :
  neighbor_id ∉ closed_set s ->
  g_score s !! current_id = Some g_current ->
  is_Some (nodes g !! neighbor_id) ->
  is_Some (nodes g !! end_id) ->
  exists s' cost,
    relax pow_half g end_id cong current_id s (neighbor_id, base_distance) = Ok s'
    /\ cost = edge_cost cong current_id neighbor_id base_distance
    /\ (forall r, snapshot_rate cong current_id neighbor_id = Some r ->
                  cost = base_distance * (1 + r * 2))
    /\ (snapshot_rate cong current_id neighbor_id = None ->
        cost = base_distance * 1 /\ cost == base_distance)
    /\ (snapshot_rate cong current_id neighbor_id = Some 1 ->
        cost == 3 * base_distance)
    /\ g_score s' !! neighbor_id =
         match g_score s !! neighbor_id with
         | Some g_old =>
             if Qltb (g_current + cost) g_old then Some (g_current + cost) else Some g_old
         | None => Some (g_current + cost)
         end
    /\ (g_score s' !! neighbor_id = Some (g_current + cost) ->
        g_score s !! neighbor_id <> Some (g_current + cost) ->
        came_from s' !! neighbor_id = Some current_id).
Proof.
  intros Hclosed Hcur Hnb Hend.
  destruct (heuristic_ok pow_half g neighbor_id end_id Hnb Hend) as [h Hh].
  set (cost := edge_cost cong current_id neighbor_id base_distance).
  assert (Hcost :
    (forall r, snapshot_rate cong current_id neighbor_id = Some r ->
               cost = base_distance * (1 + r * 2))
    /\ (snapshot_rate cong current_id neighbor_id = None ->
        cost = base_distance * 1 /\ cost == base_distance)
    /\ (snapshot_rate cong current_id neighbor_id = Some 1 ->
        cost == 3 * base_distance)).
  { split; [|split].
    - intros r Hr. now apply edge_cost_rate.
    - intros Hr. unfold cost. rewrite (edge_cost_unknown _ _ _ _ Hr).
      split; [reflexivity | ring].
    - intros Hr. unfold cost. rewrite (edge_cost_rate _ _ _ _ _ Hr). ring. }
  destruct Hcost as (Hc1 & Hc2 & Hc3).
  unfold relax. rewrite bool_decide_eq_false_2 by exact Hclosed.
  unfold subscript. rewrite Hcur. simpl. fold cost.
  destruct (g_score s !! neighbor_id) as [g_old|] eqn:Eold.
  - destruct (Qltb (g_current + cost) g_old) eqn:Elt.
    + rewrite Hh. simpl. eexists _, cost. split; [reflexivity|].
      split; [reflexivity|]. split; [exact Hc1|]. split; [exact Hc2|].
      split; [exact Hc3|]. simpl. rewrite Elt. split.
      * apply lookup_insert_eq.
      * intros _ _. apply lookup_insert_eq.
    + exists s, cost. split; [reflexivity|].
      split; [reflexivity|]. split; [exact Hc1|]. split; [exact Hc2|].
      split; [exact Hc3|]. rewrite Elt. split; [exact Eold|].
      intros H1 H2. congruence.
  - rewrite Hh. simpl. eexists _, cost. split; [reflexivity|].
    split; [reflexivity|]. split; [exact Hc1|]. split; [exact Hc2|].
    split; [exact Hc3|]. simpl. split.
    + apply lookup_insert_eq.
    + intros _ _. apply lookup_insert_eq.
Qed.

Lemma relax_charges_congested_distance_witness :
  exists s' cost,
    relax (fun v => v) two_rooms "B" {[("B"%string, "A"%string) := 1]} "A"
          (mkSearch [] {["A"%string]} {["A"%string := 0]} {["A"%string := 1]} ∅)
          ("B"%string, 1) = Ok s'
    /\ cost = 3
    /\ g_score s' !! "B"%string = Some (0 + cost)
    /\ came_from s' !! "B"%string = Some "A"%string.
Proof.
  destruct (relax_charges_congested_distance
              (fun v => v) two_rooms "B" {[("B"%string, "A"%string) := 1]}
              "A" "B" 1 0
              (mkSearch [] {["A"%string]} {["A"%string := 0]} {["A"%string := 1]} ∅))
    as (s' & cost & Hrun & Hcost & _ & _ & _ & Hg & Hcf).
  - vm_compute. intros H. discriminate H.
  - vm_compute. reflexivity.
  - vm_compute. eauto.
  - vm_compute. eauto.
  - exists s', cost.
    assert (Hc : cost = 3) by (rewrite Hcost; vm_compute; reflexivity).
    assert (Hg' : g_score s' !! "B"%string = Some (0 + cost)) by (rewrite Hg; vm_compute; reflexivity).
    split; [exact Hrun|]. split; [exact Hc|]. split; [exact Hg'|].
    apply Hcf; [exact Hg'|]. vm_compute. discriminate.
Defined.

(** ** Path finder: a route from a node to itself *)

Lemma find_path_same_node (pow_half : Q -> Q) (g : BuildingGraph) (x : string)
      (cong : option (gmap (string * string) Q)) (fuel : nat) :
  is_Some (nodes g !! x) ->
  find_path pow_half g (S fuel) x x cong = Ok [x].
Proof.
  intros Hx. unfold find_path.
  rewrite bool_decide_eq_true_2 by exact Hx. simpl.
  destruct (heuristic_ok pow_half g x x Hx Hx) as [h ->]. simpl.
  unfold step. simpl. rewrite String.eqb_refl. simpl.
  unfold reconstruct_path. simpl. now rewrite lookup_empty.
Qed.

(** C9: for every graph and every node [x] of it, the search from [x] to
    [x] with an empty congestion snapshot returns the path [[x]] (one round
    of the loop suffices). *)
Theorem find_path_to_self (pow_half : Q -> Q) (g : BuildingGraph) (x : string) (fuel : nat) :
  is_Some (nodes g !! x) ->
  (0 < fuel)%nat ->
  find_path pow_half g fuel x x (Some ∅) = Ok [x].
Proof.
  intros Hx Hfuel. destruct fuel as [|fuel]; [lia|].
  now apply find_path_same_node.
Qed.

Lemma find_path_to_self_witness :
  find_path (fun v => v) two_rooms 1 "A" "A" (Some ∅) = Ok ["A"%string].
Proof.
  apply (find_path_to_self (fun v => v) two_rooms "A" 1).
  - vm_compute. eauto.
  - lia.
Defined.

(** ** Estimator: the key of an edge *)

Lemma str_min_max_swap (a b : string) :
  str_min a b = str_min b a /\ str_max a b = str_max b a.
Proof.
  unfold str_min, str_max, String.ltb.
  rewrite (String.compare_antisym a b).
  destruct (String.compare b a) eqn:E; simpl; auto.
  apply String.compare_eq_iff in E. subst. auto.
Qed.

Lemma path_id_sym (a b : string) : path_id a b = path_id b a.
Proof.
  unfold path_id. destruct (str_min_max_swap a b) as [-> ->]. reflexivity.
Qed.

(** C5: for every estimator state (and clock) and every pair of node ids,
    [get_congestion_between_nodes a b] and [get_congestion_between_nodes b
    a] build the same location key and are the same call of
    [calculate_congestion]: started in the same state they return the same
    rate and leave the same state. *)
Theorem congestion_between_nodes_symmetric
        (pow_half : Q -> Q) (clock : nat -> Q) (a b : string) (w : World) :
  path_id a b = path_id b a
  /\ get_congestion_between_nodes pow_half clock a b w
     = get_congestion_between_nodes pow_half clock b a w.
Proof.
  split; [apply path_id_sym|].
  unfold get_congestion_between_nodes. now rewrite path_id_sym.
Qed.

(** ** Projector: smoothing with one point per segment *)

Lemma interpolated_one (p q : Point3D) : interpolated p q 1 = [].
Proof. reflexivity. Qed.

Lemma smooth_one_projects (m : ModelPathMatcher) (a : string) (path : list string) :
  no_gap_after_registered m (a :: path) = true ->
  smooth_segments m (a :: path) 1 ++ final_point m (a :: path)
  = path_to_3d_coordinates m (a :: path).
Proof.
  revert a. induction path as [|b rest IH]; intros a Hgap.
  - unfold final_point, path_to_3d_coordinates. simpl.
    destruct (node_positions m !! a); reflexivity.
  - change (no_gap_after_registered m (a :: b :: rest))
      with ((if registered m a then registered m b else true)
            && no_gap_after_registered m (b :: rest)) in Hgap.
    apply andb_prop in Hgap as [Hab Hrest].
    specialize (IH b Hrest).
    change (smooth_segments m (a :: b :: rest) 1)
      with (match node_positions m !! a, node_positions m !! b with
            | Some start_pos, Some end_pos => start_pos :: interpolated start_pos end_pos 1
            | _, _ => []
            end ++ smooth_segments m (b :: rest) 1).
    assert (Hlast : final_point m (a :: b :: rest) = final_point m (b :: rest)).
    { unfold final_point. now rewrite last_cons_cons. }
    rewrite Hlast, <- app_assoc, IH.
    unfold path_to_3d_coordinates. unfold registered in Hab.
    destruct (node_positions m !! a) as [pa|] eqn:Ea.
    + rewrite bool_decide_eq_true_2 in Hab by eauto.
      apply bool_decide_eq_true_1 in Hab as [pb Eb]. rewrite Eb.
      rewrite interpolated_one. simpl. now rewrite Ea, Eb.
    + simpl. now rewrite Ea.
Qed.

(** C7, as stated, fails: with ["A"] registered and ["X"] not, smoothing
    the path [A, X] with one point per segment drops the pair and returns
    no point, while the projection returns the point of ["A"]. *)
Lemma smooth_one_differs_example :
  let m := register_node (new_matcher 1 4) "A" 0 0 0 in
  generate_smooth_path m ["A"%string; "X"%string] 1 = []
  /\ path_to_3d_coordinates m ["A"%string; "X"%string] = [mkPoint (0 * 1) (0 * 4) (0 * 1)].
Proof. split; vm_compute; reflexivity. Qed.

(** C7 (amended): for every registered-point mapping and every path in
    which no registered node id is directly followed by an unregistered
    one (in particular for every path all of whose ids are registered),
    [generate_smooth_path] with one point per segment returns exactly the
    sequence of points of [path_to_3d_coordinates]. *)
Theorem smooth_one_is_projection (m : ModelPathMatcher) (path : list string) :
  no_gap_after_registered m path = true ->
  generate_smooth_path m path 1 = path_to_3d_coordinates m path.
Proof.
  intros Hgap. unfold generate_smooth_path.
  destruct path as [|a [|b rest]]; try reflexivity.
  change (length (a :: b :: rest) <? 2)%nat with false.
  apply (smooth_one_projects m a (b :: rest) Hgap).
Qed.

Lemma smooth_one_is_projection_witness :
  let m := register_node (register_node (new_matcher 1 4) "A" 0 0 0) "B" 3 0 1 in
  generate_smooth_path m ["X"%string; "A"%string; "B"%string] 1
  = path_to_3d_coordinates m ["X"%string; "A"%string; "B"%string].
Proof.
  apply (smooth_one_is_projection
           (register_node (register_node (new_matcher 1 4) "A" 0 0 0) "B" 3 0 1)
           ["X"%string; "A"%string; "B"%string]).
  vm_compute. reflexivity.
Defined.

(** ** Estimator: a batch with a malformed sample *)

Lemma clean_expired_data_cache (clock : nat -> Q) (loc : string) (w : World) :
  congestion_cache (proc (snd (clean_expired_data clock loc w)))
  = congestion_cache (proc w).
Proof.
  unfold clean_expired_data, bind, get_proc. simpl.
  destruct (OrdDict.get loc (data_cache (proc w))); reflexivity.
Qed.

Lemma add_data_point_cache (clock : nat -> Q) (d : AccelerometerData) (w : World) :
  congestion_cache (proc (snd (add_data_point clock d w))) = congestion_cache (proc w).
Proof.
  unfold add_data_point, bind, get_proc. simpl.
  match goal with
  | |- context [clean_expired_data clock ?l ?w1] =>
      rewrite (clean_expired_data_cache clock l w1)
  end.
  reflexivity.
Qed.

Lemma ingest_all_cache (clock : nat -> Q) (samples : list AccelerometerData) (w : World) :
  congestion_cache (proc (ingest_all clock samples w)) = congestion_cache (proc w).
Proof.
  revert w. induction samples as [|d samples IH]; intros w; [reflexivity|].
  unfold ingest_all in *. simpl. rewrite IH. apply add_data_point_cache.
Qed.

Lemma ingest_batch_stops (clock : nat -> Q)
      (pre : list RawSample) (samples : list AccelerometerData)
      (bad : RawSample) (post : list RawSample) (key : string) (w : World) :
  Forall2 (fun r d => parse_sample r = Ok d) pre samples ->
  parse_sample bad = KeyError key ->
  ingest_batch clock (pre ++ bad :: post) w = (KeyError key, ingest_all clock samples w).
Proof.
  intros Hpre Hbad. revert w.
  induction Hpre as [|r d pre samples Hr Hpre IH]; intros w.
  - simpl. now rewrite Hbad.
  - rewrite <- app_comm_cons. cbn [ingest_batch]. rewrite Hr. unfold bind at 1.
    destruct (add_data_point clock d w) as [u w1] eqn:E.
    rewrite IH. unfold ingest_all. cbn [foldl]. now rewrite E.
Qed.

(** C1, as stated, fails: a batch of a well-formed sample followed by one
    without timestamp raises [KeyError], but the first sample has been
    stored: the data cache, empty before the call, holds it afterwards. *)
Lemma batch_partial_ingestion_example :
  let good := mkRaw (Some 0) (Some 0) (Some 1) (Some 0) (Some "u"%string) (Some "L"%string) in
  let bad := mkRaw (Some 0) (Some 0) (Some 1) None (Some "u"%string) (Some "L"%string) in
  let w0 := mkWorld (new_processor 300) 0 in
  let r := process_accelerometer_batch (fun v => v) (fun _ => 0) [good; bad] w0 in
  fst r = KeyError "timestamp"
  /\ data_cache (proc w0) = []
  /\ data_cache (proc (snd r)) = [("L"%string, [mkAccel 0 0 1 0 "u" "L"])].
Proof. repeat split; vm_compute; reflexivity. Qed.

(** C1 (amended): for every batch whose first malformed sample (one with a
    required key missing) comes after the well-formed samples [pre], batch
    ingestion fails with the [KeyError] of that sample; the memoized
    congestion cache is what it was before the call; the data cache (and
    the clock) is what storing the samples of [pre] one by one with
    [add_data_point] leaves, so the well-formed samples that precede the
    malformed one are inserted, and neither the malformed sample nor any
    sample after it is. *)
Theorem batch_fails_at_first_malformed_sample
        (pow_half : Q -> Q) (clock : nat -> Q)
        (pre : list RawSample) (samples : list AccelerometerData)
        (bad : RawSample) (post : list RawSample) (key : string) (w : World) :
  Forall2 (fun r d => parse_sample r = Ok d) pre samples ->
  parse_sample bad = KeyError key ->
  process_accelerometer_batch pow_half clock (pre ++ bad :: post) w
  = (KeyError key, ingest_all clock samples w)
  /\ congestion_cache (proc (ingest_all clock samples w)) = congestion_cache (proc w).
Proof.
  intros Hpre Hbad. split; [|apply ingest_all_cache].
  unfold process_accelerometer_batch, bind.
  now rewrite (ingest_batch_stops clock pre samples bad post key w Hpre Hbad).
Qed.

Lemma batch_fails_at_first_malformed_sample_witness :
  let good := mkRaw (Some 0) (Some 0) (Some 1) (Some 0) (Some "u"%string) (Some "L"%string) in
  let bad := mkRaw (Some 0) (Some 0) (Some 1) None (Some "u"%string) (Some "L"%string) in
  let w0 := mkWorld (new_processor 300) 0 in
  process_accelerometer_batch (fun v => v) (fun _ => 0) ([good] ++ bad :: [good]) w0
  = (KeyError "timestamp", ingest_all (fun _ => 0) [mkAccel 0 0 1 0 "u" "L"] w0)
  /\ congestion_cache (proc (ingest_all (fun _ => 0) [mkAccel 0 0 1 0 "u" "L"] w0))
     = congestion_cache (proc w0).
Proof.
  apply (batch_fails_at_first_malformed_sample
           (fun v => v) (fun _ => 0)
           [mkRaw (Some 0) (Some 0) (Some 1) (Some 0) (Some "u"%string) (Some "L"%string)]
           [mkAccel 0 0 1 0 "u" "L"]
           (mkRaw (Some 0) (Some 0) (Some 1) None (Some "u"%string) (Some "L"%string))
           [mkRaw (Some 0) (Some 0) (Some 1) (Some 0) (Some "u"%string) (Some "L"%string)]
           "timestamp" (mkWorld (new_processor 300) 0)).
  - repeat constructor.
  - reflexivity.
Defined.

(** ** Estimator: the range of the rate *)

Lemma py_min_le_1 (v : Q) : py_min 1 v <= 1.
Proof.
  unfold py_min. destruct (Qltb v 1) eqn:E.
  - apply Qltb_lt in E. now apply Qlt_le_weak.
  - apply Qle_refl.
Qed.

Lemma py_min_nonneg (v : Q) : 0 <= v -> 0 <= py_min 1 v.
Proof. unfold py_min. destruct (Qltb v 1); intros; [assumption | lra]. Qed.

Lemma py_max_range (v : Q) : v <= 1 -> 0 <= py_max 0 v <= 1.
Proof.
  unfold py_max. destruct (Qltb 0 v) eqn:E; intros Hv.
  - apply Qltb_lt in E. lra.
  - lra.
Qed.

Lemma Qlen_nonneg {A} (l : list A) : 0 <= Qlen l.
Proof. unfold Qlen, Qle. simpl. lia. Qed.

Lemma Qdiv_nonneg (a b : Q) : 0 <= a -> 0 <= b -> 0 <= a / b.
Proof.
  intros Ha Hb. unfold Qdiv.
  apply Qmult_le_0_compat; [assumption | now apply Qinv_le_0_compat].
Qed.

Lemma foldl_Qplus_nonneg (l : list Q) (a : Q) :
  0 <= a -> (forall v, In v l -> 0 <= v) -> 0 <= foldl Qplus a l.
Proof.
  revert a. induction l as [|v l IH]; intros a Ha Hl; simpl; [assumption|].
  apply IH.
  - assert (0 <= v) by (apply Hl; now left). lra.
  - intros u Hu. apply Hl. now right.
Qed.

Lemma Qsquare_nonneg (v : Q) : 0 <= v ^ 2.
Proof. simpl. nra. Qed.

Lemma variance_nonneg (l : list Q) : 0 <= variance l.
Proof.
  unfold variance. apply Qdiv_nonneg; [|apply Qlen_nonneg].
  unfold Qsum. apply foldl_Qplus_nonneg; [lra|].
  intros v Hv. apply in_map_iff in Hv as (u & <- & _). apply Qsquare_nonneg.
Qed.

Lemma speed_factor_range (pow_half : Q -> Q) (p : CongestionProcessor)
      (data : list AccelerometerData) :
  0 <= speed_factor pow_half p data <= 1.
Proof. unfold speed_factor. apply py_max_range, py_min_le_1. Qed.

Lemma variance_factor_range (pow_half : Q -> Q) (data : list AccelerometerData) :
  0 <= variance_factor pow_half data <= 1.
Proof.
  unfold variance_factor. destruct (1 <? length _)%nat; [|lra].
  split; [|apply py_min_le_1].
  apply py_min_nonneg, Qdiv_nonneg; [apply variance_nonneg | lra].
Qed.

Lemma density_factor_range (data : list AccelerometerData) :
  0 <= density_factor data <= 1.
Proof.
  unfold density_factor. split; [|apply py_min_le_1].
  apply py_min_nonneg, Qdiv_nonneg; [apply Qlen_nonneg | lra].
Qed.

Lemma combined_rate_range (pow_half : Q -> Q) (p : CongestionProcessor)
      (data : list AccelerometerData) :
  0 <= combined_rate pow_half p data <= 1.
Proof.
  unfold combined_rate.
  pose proof (speed_factor_range pow_half p data).
  pose proof (variance_factor_range pow_half data).
  pose proof (density_factor_range data).
  lra.
Qed.

(** Every memoized rate was computed by the weighted sum from some
    samples. *)
Definition memo_computed (pow_half : Q -> Q) (w : World) : Prop :=
  forall loc r t, congestion_cache (proc w) !! loc = Some (r, t) ->
                  exists p data, r = combined_rate pow_half p data.

Lemma cached_rate_proc (clock : nat -> Q) (loc : string) (w : World) :
  proc (snd (cached_rate clock loc w)) = proc w.
Proof.
  unfold cached_rate, bind, get_proc. simpl.
  destruct (congestion_cache (proc w) !! loc) as [[r t]|]; reflexivity.
Qed.

Lemma cached_rate_memo (clock : nat -> Q) (loc : string) (w : World) (r : Q) :
  fst (cached_rate clock loc w) = Some r ->
  exists t, congestion_cache (proc w) !! loc = Some (r, t).
Proof.
  unfold cached_rate, bind, get_proc. simpl.
  destruct (congestion_cache (proc w) !! loc) as [[r0 t]|]; simpl; [|discriminate].
  destruct (Qltb _ 60); [|discriminate]. intros [= ->]. eauto.
Qed.

(** What [recompute_congestion] returns, in terms of the samples left by
    the pruning. *)
Lemma recompute_congestion_value (pow_half : Q -> Q) (clock : nat -> Q)
      (loc : string) (w : World) :
  let w2 := snd (clean_expired_data clock loc w) in
  fst (recompute_congestion pow_half clock loc w)
  = match OrdDict.get loc (data_cache (proc w2)) with
    | None | Some [] => 0
    | Some live => combined_rate pow_half (proc w2) live
    end.
Proof.
  unfold recompute_congestion, bind at 1.
  destruct (clean_expired_data clock loc w) as [u w2]. simpl.
  unfold bind, get_proc.
  destruct (OrdDict.get loc (data_cache (proc w2))) as [[|d l]|]; reflexivity.
Qed.

Lemma recompute_congestion_cache (pow_half : Q -> Q) (clock : nat -> Q)
      (loc : string) (w : World) :
  memo_computed pow_half w -> memo_computed pow_half (snd (recompute_congestion pow_half clock loc w)).
Proof.
  intros Hw.
  assert (Hc : memo_computed pow_half (snd (clean_expired_data clock loc w))).
  { intros l r t. rewrite clean_expired_data_cache. apply Hw. }
  unfold recompute_congestion, bind at 1.
  destruct (clean_expired_data clock loc w) as [u w2]. simpl in Hc.
  unfold bind, get_proc.
  destruct (OrdDict.get loc (data_cache (proc w2))) as [[|d l]|]; try exact Hc.
  intros l' r t. simpl.
  destruct (decide (loc = l')) as [<-|Hne].
  - rewrite lookup_insert_eq. intros [= <- _]. eexists _, _. reflexivity.
  - rewrite lookup_insert_ne by done. apply Hc.
Qed.

Lemma calculate_congestion_range (pow_half : Q -> Q) (clock : nat -> Q)
      (loc : string) (w : World) :
  memo_computed pow_half w ->
  0 <= fst (calculate_congestion pow_half clock loc w) <= 1
  /\ memo_computed pow_half (snd (calculate_congestion pow_half clock loc w)).
Proof.
  intros Hw.
  pose proof (cached_rate_proc clock loc w) as Hp.
  pose proof (cached_rate_memo clock loc w) as Hm.
  unfold calculate_congestion, bind.
  destruct (cached_rate clock loc w) as [[r|] w1]; simpl in *.
  - destruct (Hm r eq_refl) as [t Ht]. split.
    + destruct (Hw loc r t Ht) as (p & data & ->). apply combined_rate_range.
    + intros l r' t'. rewrite Hp. apply Hw.
  - assert (Hw1 : memo_computed pow_half w1) by (intros l r' t'; rewrite Hp; apply Hw).
    split; [|now apply recompute_congestion_cache].
    rewrite recompute_congestion_value.
    destruct (OrdDict.get loc _) as [[|d l]|]; try lra.
    apply combined_rate_range.
Qed.

Lemma clean_expired_data_range (pow_half : Q -> Q) (clock : nat -> Q)
      (loc : string) (w : World) :
  memo_computed pow_half w -> memo_computed pow_half (snd (clean_expired_data clock loc w)).
Proof. intros Hw l r t. rewrite clean_expired_data_cache. apply Hw. Qed.

Lemma add_data_point_range (pow_half : Q -> Q) (clock : nat -> Q)
      (d : AccelerometerData) (w : World) :
  memo_computed pow_half w -> memo_computed pow_half (snd (add_data_point clock d w)).
Proof. intros Hw l r t. rewrite add_data_point_cache. apply Hw. Qed.

Lemma all_rates_loop_range (pow_half : Q -> Q) (clock : nat -> Q)
      (locs : list string) (res : OrdDict.t Q) (w : World) :
  memo_computed pow_half w ->
  memo_computed pow_half (snd (all_rates_loop pow_half clock locs res w)).
Proof.
  revert res w. induction locs as [|loc locs IH]; intros res w Hw; [exact Hw|].
  cbn [all_rates_loop]. unfold bind at 1.
  pose proof (clean_expired_data_range pow_half clock loc w Hw) as Hc.
  destruct (clean_expired_data clock loc w) as [u w1]. simpl in Hc.
  unfold bind at 1, get_proc.
  destruct (OrdDict.get loc (data_cache (proc w1))) as [[|d l]|]; try now apply IH.
  unfold bind.
  pose proof (calculate_congestion_range pow_half clock loc w1 Hc) as [_ Hr].
  destruct (calculate_congestion pow_half clock loc w1) as [r w2].
  now apply IH.
Qed.

Lemma ingest_batch_range (pow_half : Q -> Q) (clock : nat -> Q)
      (batch : list RawSample) (w : World) :
  memo_computed pow_half w -> memo_computed pow_half (snd (ingest_batch clock batch w)).
Proof.
  revert w. induction batch as [|raw batch IH]; intros w Hw; [exact Hw|].
  cbn [ingest_batch]. destruct (parse_sample raw) as [d|key| |]; try exact Hw.
  unfold bind.
  pose proof (add_data_point_range pow_half clock d w Hw) as Hd.
  destruct (add_data_point clock d w) as [u w1]. now apply IH.
Qed.

Lemma run_processor_op_range (pow_half : Q -> Q) (clock : nat -> Q)
      (w : World) (op : processor_op) :
  memo_computed pow_half w -> memo_computed pow_half (run_processor_op pow_half clock w op).
Proof.
  intros Hw. destruct op as [d|loc| |a b|batch]; simpl.
  - now apply add_data_point_range.
  - now apply calculate_congestion_range.
  - unfold get_all_congestion_rates, bind, get_proc. now apply all_rates_loop_range.
  - unfold get_congestion_between_nodes. now apply calculate_congestion_range.
  - unfold process_accelerometer_batch, bind at 1.
    pose proof (ingest_batch_range pow_half clock batch w Hw) as Hi.
    destruct (ingest_batch clock batch w) as [[u|key| |] w1]; simpl in Hi; try exact Hi.
    unfold bind at 1.
    pose proof (all_rates_loop_range pow_half clock
                  (OrdDict.keys (data_cache (proc w1))) [] w1 Hi) as Ha.
    unfold get_all_congestion_rates, bind, get_proc.
    destruct (all_rates_loop _ _ _ _ w1) as [rates w2]. exact Ha.
Qed.

Lemma run_processor_range (pow_half : Q -> Q) (clock : nat -> Q)
      (expiry : Z) (ops : list processor_op) :
  memo_computed pow_half (run_processor pow_half clock expiry ops).
Proof.
  induction ops as [|op ops IH] using rev_ind.
  - intros loc r t. unfold run_processor. simpl. now rewrite lookup_empty.
  - unfold run_processor in *. rewrite foldl_app. simpl.
    now apply run_processor_op_range.
Qed.

Lemma clean_expired_data_get (clock : nat -> Q) (loc : string) (w : World) :
  OrdDict.get loc (data_cache (proc (snd (clean_expired_data clock loc w))))
  = option_map (unexpired (clock (ticks w)) (expiry_time (proc w)))
               (OrdDict.get loc (data_cache (proc w))).
Proof.
  unfold clean_expired_data, bind, get_proc. simpl.
  destruct (OrdDict.get loc (data_cache (proc w))) as [l|] eqn:E; simpl.
  - apply ord_get_set_eq.
  - exact E.
Qed.

Lemma clean_expired_data_thresholds (clock : nat -> Q) (loc : string) (w : World) :
  step_threshold (proc (snd (clean_expired_data clock loc w))) = step_threshold (proc w)
  /\ step_cooldown (proc (snd (clean_expired_data clock loc w))) = step_cooldown (proc w).
Proof.
  unfold clean_expired_data, bind, get_proc. simpl.
  destruct (OrdDict.get loc (data_cache (proc w))); split; reflexivity.
Qed.

Lemma combined_rate_thresholds (pow_half : Q -> Q) (p p' : CongestionProcessor)
      (data : list AccelerometerData) :
  step_threshold p = step_threshold p' ->
  step_cooldown p = step_cooldown p' ->
  combined_rate pow_half p data = combined_rate pow_half p' data.
Proof.
  intros Ht Hc.
  unfold combined_rate, speed_factor, user_speed, count_steps.
  now rewrite Ht, Hc.
Qed.

Lemma calculate_congestion_unmemoized (pow_half : Q -> Q) (clock : nat -> Q)
      (loc : string) (w : World) :
  fst (cached_rate clock loc w) = None ->
  fst (calculate_congestion pow_half clock loc w)
  = match OrdDict.get loc (data_cache (proc w)) with
    | None => 0
    | Some data =>
        match unexpired (clock (ticks (snd (cached_rate clock loc w))))
                        (expiry_time (proc w)) data with
        | [] => 0
        | live => combined_rate pow_half (proc w) live
        end
    end.
Proof.
  intros Hmemo.
  pose proof (cached_rate_proc clock loc w) as Hp.
  unfold calculate_congestion, bind.
  destruct (cached_rate clock loc w) as [o w1]. simpl in *. subst o.
  rewrite recompute_congestion_value, clean_expired_data_get, Hp.
  destruct (OrdDict.get loc (data_cache (proc w))) as [data|]; simpl; [|reflexivity].
  destruct (unexpired _ _ data) as [|d live]; [reflexivity|].
  apply combined_rate_thresholds.
  - rewrite <- Hp. apply clean_expired_data_thresholds.
  - rewrite <- Hp. apply clean_expired_data_thresholds.
Qed.

(** ** The frontier *)

Lemma pop_least_perm (x : entry) (l : list entry) :
  Permutation (x :: l) (fst (pop_least x l) :: snd (pop_least x l)).
Proof.
  revert x. induction l as [|y l IH]; intros x; simpl; [reflexivity|].
  specialize (IH y). destruct (pop_least y l) as [m r]. simpl in IH.
  destruct (entry_ltb m x); simpl; [|reflexivity].
  rewrite IH. apply perm_swap.
Qed.

Lemma heappop_perm (h rest : list entry) (e : entry) :
  heappop h = Some (e, rest) -> Permutation h (e :: rest).
Proof.
  destruct h as [|x l]; simpl; [discriminate|].
  intros [= H]. pose proof (pop_least_perm x l) as Hp.
  rewrite H in Hp. exact Hp.
Qed.

Lemma heappop_none (h : list entry) : heappop h = None -> h = [].
Proof. destruct h; simpl; [reflexivity | discriminate]. Qed.

(** ** Path finder: one edge *)

Section RelaxFacts.

Variable pow_half : Q -> Q.
Variable g : BuildingGraph.
Variable end_id : string.
Variable cong : gmap (string * string) Q.

(** The state after [relax] has recorded a better route to [nb]. *)
Definition improved (cur nb : string) (gc cost h : Q) (s : search) : search :=
  mkSearch (heappush (open_set s) (gc + cost + h, nb))
           (closed_set s)
           (<[nb := gc + cost]> (g_score s))
           (<[nb := gc + cost + h]> (f_score s))
           (<[nb := cur]> (came_from s)).

Lemma relax_cases (cur nb : string) (d : Q) (s s' : search) :
  relax pow_half g end_id cong cur s (nb, d) = Ok s' ->
  s' = s
  \/ ((nb ∉ closed_set s)
      /\ exists gc h,
           g_score s !! cur = Some gc
           /\ heuristic pow_half g nb end_id = Ok h
           /\ match g_score s !! nb with
              | None => True
              | Some g_old => gc + edge_cost cong cur nb d < g_old
              end
           /\ s' = improved cur nb gc (edge_cost cong cur nb d) h s).
Proof.
  unfold relax. destruct (bool_decide (nb ∈ closed_set s)) eqn:Ecl.
  - intros [= <-]. now left.
  - apply bool_decide_eq_false_1 in Ecl. unfold subscript.
    destruct (g_score s !! cur) as [gc|] eqn:Egc; simpl; [|discriminate].
    destruct (g_score s !! nb) as [g_old|] eqn:Eold.
    + destruct (Qltb (gc + edge_cost cong cur nb d) g_old) eqn:Elt.
      * destruct (heuristic pow_half g nb end_id) as [h| | |] eqn:Eh; simpl; try discriminate.
        intros [= <-]. right. split; [exact Ecl|]. exists gc, h.
        split; [reflexivity|]. split; [reflexivity|].
        split; [now apply Qltb_lt | reflexivity].
      * intros [= <-]. now left.
    + destruct (heuristic pow_half g nb end_id) as [h| | |] eqn:Eh; simpl; try discriminate.
      intros [= <-]. right. split; [exact Ecl|]. exists gc, h.
      split; [reflexivity|]. split; [reflexivity|]. split; [exact I | reflexivity].
Qed.

Lemma relax_ok (cur nb : string) (d : Q) (s : search) :
  is_Some (g_score s !! cur) ->
  is_Some (nodes g !! nb) ->
  is_Some (nodes g !! end_id) ->
  exists s', relax pow_half g end_id cong cur s (nb, d) = Ok s'.
Proof.
  intros [gc Hgc] Hnb Hend. unfold relax.
  destruct (bool_decide (nb ∈ closed_set s)); [eauto|].
  unfold subscript. rewrite Hgc. simpl.
  destruct (heuristic_ok pow_half g nb end_id Hnb Hend) as [h ->]. simpl.
  destruct (g_score s !! nb) as [g_old|]; [|eauto].
  destruct (Qltb _ g_old); eauto.
Qed.

(** An edge is spent once its source is closed and either its target is
    closed too or the target's score is no larger than what the edge
    offers: expanding it again changes nothing. *)
Definition spent (s : search) (e : string * string * Q) : bool :=
  let '(c, n, d) := e in
  bool_decide (c ∈ closed_set s)
  && (bool_decide (n ∈ closed_set s)
      || match g_score s !! c, g_score s !! n with
         | Some gc, Some gn => negb (Qltb (gc + edge_cost cong c n d) gn)
         | _, _ => false
         end).

Definition unspent_count (s : search) (E : list (string * string * Q)) : nat :=
  length (List.filter (fun e => negb (spent s e)) E).

(** The quantity that every round of the loop decreases. *)
Definition loop_measure (s : search) (E : list (string * string * Q)) : nat :=
  (length (open_set s) + unspent_count s E)%nat.

Lemma unspent_count_le (s s' : search) (E : list (string * string * Q)) :
  (forall e, In e E -> spent s e = true -> spent s' e = true) ->
  (unspent_count s' E <= unspent_count s E)%nat.
Proof.
  unfold unspent_count. induction E as [|e E IH]; intros Hmono; simpl; [lia|].
  assert (IH' : (length (List.filter (fun e => negb (spent s' e)) E)
                 <= length (List.filter (fun e => negb (spent s e)) E))%nat).
  { apply IH. intros e' He'. apply Hmono. now right. }
  destruct (spent s e) eqn:Es.
  - rewrite (Hmono e (or_introl eq_refl) Es). simpl. exact IH'.
  - destruct (spent s' e); simpl; lia.
Qed.

Lemma unspent_count_lt (s s' : search) (E : list (string * string * Q))
      (e0 : string * string * Q) :
  (forall e, In e E -> spent s e = true -> spent s' e = true) ->
  In e0 E -> spent s e0 = false -> spent s' e0 = true ->
  (unspent_count s' E < unspent_count s E)%nat.
Proof.
  unfold unspent_count. induction E as [|e E IH]; intros Hmono Hin H0 H0'; [destruct Hin|].
  assert (Hmono' : forall e', In e' E -> spent s e' = true -> spent s' e' = true).
  { intros e' He'. apply Hmono. now right. }
  pose proof (unspent_count_le s s' E Hmono') as Hle. unfold unspent_count in Hle.
  simpl. destruct Hin as [->|Hin].
  - rewrite H0, H0'. simpl. lia.
  - specialize (IH Hmono' Hin H0 H0').
    destruct (spent s e) eqn:Es.
    + rewrite (Hmono e (or_introl eq_refl) Es). simpl. exact IH.
    + destruct (spent s' e); simpl; lia.
Qed.

Lemma improved_spent_mono (cur nb : string) (gc d h : Q) (s : search)
      (e : string * string * Q) :
  nb ∉ closed_set s ->
  match g_score s !! nb with
  | None => True
  | Some g_old => gc + edge_cost cong cur nb d < g_old
  end ->
  spent s e = true ->
  spent (improved cur nb gc (edge_cost cong cur nb d) h s) e = true.
Proof.
  intros Hnb Hold. destruct e as [[c n] w]. unfold spent. simpl.
  intros H. apply andb_prop in H as [Hc H]. rewrite Hc. simpl.
  apply orb_prop in H as [Hn|H]; [rewrite Hn; reflexivity|].
  apply bool_decide_eq_true_1 in Hc.
  assert (Hcnb : nb <> c) by (intros ->; contradiction).
  rewrite lookup_insert_ne by exact Hcnb.
  destruct (g_score s !! c) as [gcc|]; [|discriminate].
  destruct (decide (nb = n)) as [->|Hne].
  - rewrite lookup_insert_eq.
    destruct (g_score s !! n) as [gn|]; [|discriminate].
    apply orb_true_intro. right.
    apply negb_true_iff in H. apply Qltb_ge in H.
    apply negb_true_iff, Qltb_ge. lra.
  - rewrite lookup_insert_ne by exact Hne. now rewrite H, orb_true_r.
Qed.

Lemma improved_spends_edge (cur nb : string) (gc d h : Q) (s : search) :
  cur ∈ closed_set s ->
  nb ∉ closed_set s ->
  g_score s !! cur = Some gc ->
  match g_score s !! nb with
  | None => True
  | Some g_old => gc + edge_cost cong cur nb d < g_old
  end ->
  spent s (cur, nb, d) = false
  /\ spent (improved cur nb gc (edge_cost cong cur nb d) h s) (cur, nb, d) = true.
Proof.
  intros Hcur Hnb Hgc Hold.
  assert (Hne : nb <> cur) by (intros ->; contradiction).
  unfold spent. simpl.
  rewrite (bool_decide_eq_true_2 _ Hcur), (bool_decide_eq_false_2 _ Hnb). simpl.
  rewrite Hgc, lookup_insert_ne, Hgc, lookup_insert_eq by exact Hne. split.
  - destruct (g_score s !! nb) as [g_old|]; [|reflexivity].
    apply negb_false_iff, Qltb_lt. exact Hold.
  - apply negb_true_iff, Qltb_ge. lra.
Qed.

(** [relax] never increases the measure. *)
Lemma relax_measure (cur nb : string) (d : Q) (s s' : search)
      (E : list (string * string * Q)) :
  relax pow_half g end_id cong cur s (nb, d) = Ok s' ->
  cur ∈ closed_set s ->
  In (cur, nb, d) E ->
  closed_set s' = closed_set s
  /\ (forall e, In e E -> spent s e = true -> spent s' e = true)
  /\ (loop_measure s' E <= loop_measure s E)%nat.
Proof.
  intros Hr Hcur Hin. apply relax_cases in Hr as [->|(Hnb & gc & h & Hgc & _ & Hold & ->)].
  - repeat split; auto.
  - split; [reflexivity|].
    assert (Hmono : forall e, In e E -> spent s e = true ->
                    spent (improved cur nb gc (edge_cost cong cur nb d) h s) e = true).
    { intros e _. now apply improved_spent_mono. }
    split; [exact Hmono|].
    destruct (improved_spends_edge cur nb gc d h s Hcur Hnb Hgc Hold) as [H0 H1].
    pose proof (unspent_count_lt s _ E (cur, nb, d) Hmono Hin H0 H1) as Hlt.
    assert (Hopen : length (open_set (improved cur nb gc (edge_cost cong cur nb d) h s))
                    = S (length (open_set s))).
    { unfold improved, heappush. simpl. rewrite length_app. simpl. lia. }
    unfold loop_measure. rewrite Hopen. lia.
Qed.

End RelaxFacts.

(** ** Path finder: the search loop *)

Lemma in_edges (g : BuildingGraph) (c n : string) (node : Node) (d : Q) :
  nodes g !! c = Some node -> In (n, d) (neighbors node) -> In (c, n, d) (edges g).
Proof.
  intros Hc Hn. unfold edges. apply in_flat_map. exists (c, node). split.
  - apply list_elem_of_In, elem_of_map_to_list. exact Hc.
  - apply in_map_iff. exists (n, d). split; [reflexivity | exact Hn].
Qed.

Lemma graph_closedb_spec (g : BuildingGraph) (c n : string) (node : Node) (d : Q) :
  graph_closedb g = true ->
  nodes g !! c = Some node -> In (n, d) (neighbors node) -> is_Some (nodes g !! n).
Proof.
  unfold graph_closedb. intros H Hc Hn.
  rewrite forallb_forall in H.
  assert (Hin : In (c, node) (map_to_list (nodes g))).
  { apply list_elem_of_In, elem_of_map_to_list. exact Hc. }
  specialize (H _ Hin). simpl in H. rewrite forallb_forall in H.
  specialize (H _ Hn). simpl in H. now apply bool_decide_eq_true_1 in H.
Qed.

Section SearchFacts.

Variable pow_half : Q -> Q.
Variable g : BuildingGraph.
Variable start_id end_id : string.
Variable cong : gmap (string * string) Q.

Hypothesis graph_closed : graph_closedb g = true.
Hypothesis end_present : is_Some (nodes g !! end_id).

(** What holds of the variables of [find_path] at the head of the loop.
    [rk] numbers the closed nodes in the order in which they were closed,
    [B] is the next number. *)
Record search_inv (s : search) (rk : string -> nat) (B : nat) : Prop := {
  inv_open : forall f n, In (f, n) (open_set s) -> is_Some (g_score s !! n);
  inv_closed : forall c, c ∈ closed_set s -> is_Some (g_score s !! c) /\ (rk c < B)%nat;
  inv_score : forall n, is_Some (g_score s !! n) ->
                is_Some (nodes g !! n) /\ connected g start_id n
                /\ (n = start_id \/ is_Some (came_from s !! n));
  inv_from : forall n c, came_from s !! n = Some c ->
               c ∈ closed_set s /\ n <> start_id /\ edge_rel g c n
               /\ (n ∈ closed_set s -> (rk c < rk n)%nat);
  inv_start : start_id ∈ closed_set s
              \/ (came_from s = ∅ /\ forall f n, In (f, n) (open_set s) -> n = start_id)
}.

Lemma is_Some_insert {V} (m : gmap string V) (k n : string) (v : V) :
  is_Some (m !! n) -> is_Some (<[k := v]> m !! n).
Proof.
  intros H. destruct (decide (k = n)) as [->|Hne].
  - rewrite lookup_insert_eq. eauto.
  - now rewrite lookup_insert_ne.
Qed.

Lemma improved_inv (cur nb : string) (node : Node) (gc d h : Q) (s : search)
      (rk : string -> nat) (B : nat) :
  search_inv s rk B ->
  cur ∈ closed_set s ->
  start_id ∈ closed_set s ->
  nb ∉ closed_set s ->
  nodes g !! cur = Some node ->
  In (nb, d) (neighbors node) ->
  search_inv (improved cur nb gc (edge_cost cong cur nb d) h s) rk B.
Proof.
  intros Hinv Hcur Hstart Hnb Hnode Hin.
  destruct Hinv as [Hopen Hclosed Hscore Hfrom _].
  assert (Hedge : edge_rel g cur nb) by (exists node, d; auto).
  constructor; simpl.
  - intros f n Hfn. unfold heappush in Hfn. apply in_app_iff in Hfn as [Hfn|[[= _ <-]|[]]].
    + apply is_Some_insert. eauto.
    + rewrite lookup_insert_eq. eauto.
  - intros c Hc. destruct (Hclosed c Hc) as [H1 H2]. split; [|exact H2].
    now apply is_Some_insert.
  - intros n Hn. destruct (decide (nb = n)) as [<-|Hne].
    + split; [eapply graph_closedb_spec; eauto|]. split.
      * apply connected_step with cur; [|exact Hedge].
        apply Hscore, Hclosed, Hcur.
      * right. rewrite lookup_insert_eq. eauto.
    + rewrite lookup_insert_ne in Hn by exact Hne.
      destruct (Hscore n Hn) as (H1 & H2 & H3). split; [exact H1|]. split; [exact H2|].
      destruct H3 as [H3|H3]; [now left | right; now apply is_Some_insert].
  - intros n c Hn. destruct (decide (nb = n)) as [<-|Hne].
    + rewrite lookup_insert_eq in Hn. injection Hn as <-.
      split; [exact Hcur|]. split; [intros ->; contradiction|].
      split; [exact Hedge|]. intros Hcl. contradiction.
    + rewrite lookup_insert_ne in Hn by exact Hne. now apply Hfrom.
  - now left.
Qed.

Lemma relax_all_inv (cur : string) (node : Node) (nbs : list (string * Q))
      (s : search) (rk : string -> nat) (B : nat) :
  search_inv s rk B ->
  cur ∈ closed_set s ->
  start_id ∈ closed_set s ->
  nodes g !! cur = Some node ->
  (forall x, In x nbs -> In x (neighbors node)) ->
  exists s',
    relax_all pow_half g end_id cong cur s nbs = Ok s'
    /\ search_inv s' rk B
    /\ (loop_measure cong s' (edges g) <= loop_measure cong s (edges g))%nat.
Proof.
  revert s. induction nbs as [|[nb d] nbs IH]; intros s Hinv Hcur Hstart Hnode Hsub.
  - exists s. simpl. auto.
  - assert (Hin : In (nb, d) (neighbors node)) by (apply Hsub; now left).
    assert (Hnbn : is_Some (nodes g !! nb)) by (eapply graph_closedb_spec; eauto).
    assert (Hgc : is_Some (g_score s !! cur)) by (apply (inv_closed _ _ _ Hinv), Hcur).
    destruct (relax_ok pow_half g end_id cong cur nb d s Hgc Hnbn end_present) as [s1 Hs1].
    cbn [relax_all]. rewrite Hs1. simpl.
    destruct (relax_measure pow_half g end_id cong cur nb d s s1 (edges g) Hs1 Hcur
                (in_edges g cur nb node d Hnode Hin)) as (Hcl & _ & Hm).
    assert (Hinv1 : search_inv s1 rk B).
    { apply relax_cases in Hs1 as [->|(Hnb & gc & h & _ & _ & _ & ->)]; [exact Hinv|].
      eapply improved_inv; eauto. }
    destruct (IH s1 Hinv1) as (s' & Hs' & Hinv' & Hm').
    + now rewrite Hcl.
    + now rewrite Hcl.
    + exact Hnode.
    + intros x Hx. apply Hsub. now right.
    + exists s'. split; [exact Hs'|]. split; [exact Hinv'|]. lia.
Qed.

(** The state after [current_id] was popped and closed. *)
Definition close_node (cur : string) (rest : list entry) (s : search) : search :=
  mkSearch rest ({[cur]} ∪ closed_set s) (g_score s) (f_score s) (came_from s).

Lemma in_close_l (cur : string) (X : gset string) : cur ∈ {[cur]} ∪ X.
Proof. apply elem_of_union_l, elem_of_singleton. reflexivity. Qed.

Lemma in_close_r (cur c : string) (X : gset string) : c ∈ X -> c ∈ {[cur]} ∪ X.
Proof. apply elem_of_union_r. Qed.

Lemma in_close_inv (cur c : string) (X : gset string) :
  c ∈ {[cur]} ∪ X -> c = cur \/ c ∈ X.
Proof.
  intros H. apply elem_of_union in H as [H|H]; [left | now right].
  now apply elem_of_singleton in H.
Qed.

Lemma close_spent_mono (cur : string) (rest : list entry) (s : search)
      (e : string * string * Q) :
  spent cong s e = true -> spent cong (close_node cur rest s) e = true.
Proof.
  destruct e as [[c n] d]. unfold spent, close_node. simpl.
  intros H. apply andb_prop in H as [Hc H].
  apply bool_decide_eq_true_1 in Hc.
  rewrite (bool_decide_eq_true_2 (c ∈ {[cur]} ∪ closed_set s)) by now apply in_close_r.
  simpl. apply orb_prop in H as [Hn|H].
  - apply bool_decide_eq_true_1 in Hn.
    rewrite (bool_decide_eq_true_2 (n ∈ {[cur]} ∪ closed_set s)) by now apply in_close_r.
    reflexivity.
  - rewrite H. apply orb_true_r.
Qed.

Lemma close_node_measure (cur : string) (f : Q) (rest : list entry) (s : search) :
  Permutation (open_set s) ((f, cur) :: rest) ->
  (S (loop_measure cong (close_node cur rest s) (edges g))
   <= loop_measure cong s (edges g))%nat.
Proof.
  intros Hperm. apply Permutation_length in Hperm. simpl in Hperm.
  pose proof (unspent_count_le cong s (close_node cur rest s) (edges g)
                (fun e _ => close_spent_mono cur rest s e)) as Hle.
  unfold loop_measure. simpl. lia.
Qed.

Lemma close_node_inv (cur : string) (f : Q) (rest : list entry) (s : search)
      (rk : string -> nat) (B : nat) :
  search_inv s rk B ->
  Permutation (open_set s) ((f, cur) :: rest) ->
  exists rk' B',
    search_inv (close_node cur rest s) rk' B'
    /\ (B' <= S B)%nat
    /\ cur ∈ closed_set (close_node cur rest s)
    /\ start_id ∈ closed_set (close_node cur rest s).
Proof.
  intros Hinv Hperm.
  assert (Hcur_open : In (f, cur) (open_set s)).
  { eapply Permutation_in; [symmetry; exact Hperm | now left]. }
  assert (Hrest : forall f' n, In (f', n) rest -> In (f', n) (open_set s)).
  { intros f' n Hn. eapply Permutation_in; [symmetry; exact Hperm | now right]. }
  destruct Hinv as [Hopen Hclosed Hscore Hfrom Hstart].
  assert (Hcur' : cur ∈ closed_set (close_node cur rest s)) by apply in_close_l.
  assert (Hstart' : start_id ∈ closed_set (close_node cur rest s)).
  { simpl. destruct Hstart as [Hs|[_ Hs]]; [now apply in_close_r|].
    rewrite (Hs f cur Hcur_open). apply in_close_l. }
  destruct (decide (cur ∈ closed_set s)) as [Hin|Hnotin].
  - exists rk, B. split; [|split; [lia | split; [exact Hcur' | exact Hstart']]].
    constructor; simpl.
    + intros f' n Hn. eauto.
    + intros c Hc. apply Hclosed.
      apply in_close_inv in Hc as [->|Hc]; assumption.
    + exact Hscore.
    + intros n c Hn. destruct (Hfrom n c Hn) as (H1 & H2 & H3 & H4).
      split; [now apply in_close_r|]. split; [exact H2|]. split; [exact H3|].
      intros Hcl. apply H4. apply in_close_inv in Hcl as [->|Hcl]; assumption.
    + left. exact Hstart'.
  - exists (fun x => if decide (x = cur) then B else rk x), (S B).
    split; [|split; [lia | split; [exact Hcur' | exact Hstart']]].
    constructor; simpl.
    + intros f' n Hn. eauto.
    + intros c Hc. destruct (decide (c = cur)) as [->|Hne].
      * split; [eauto | lia].
      * apply in_close_inv in Hc as [Hc|Hc]; [contradiction|].
        destruct (Hclosed c Hc). split; [assumption | lia].
    + exact Hscore.
    + intros n c Hn. destruct (Hfrom n c Hn) as (H1 & H2 & H3 & H4).
      split; [now apply in_close_r|]. split; [exact H2|]. split; [exact H3|].
      intros Hcl.
      destruct (decide (c = cur)) as [->|Hc]; [contradiction|].
      destruct (decide (n = cur)) as [->|Hn'].
      * apply Hclosed. exact H1.
      * apply H4. apply in_close_inv in Hcl as [Hcl|Hcl]; [contradiction | exact Hcl].
    + left. exact Hstart'.
Qed.

(** What one round of the loop does to a state that satisfies the
    invariant: it never raises; it ends the loop only on an empty frontier
    or at the goal; otherwise the invariant holds again and the measure is
    smaller. *)
Lemma step_inv (s : search) (rk : string -> nat) (B : nat) :
  search_inv s rk B ->
  exists r,
    step pow_half g end_id cong s = Ok r
    /\ match r with
       | inl (Exhausted s1) => s1 = s /\ open_set s = []
       | inl (Reached s1 cur) =>
           cur = end_id /\ is_Some (g_score s1 !! cur) /\ search_inv s1 rk B
       | inr s' =>
           exists rk' B',
             search_inv s' rk' B'
             /\ (B' + loop_measure cong s' (edges g)
                 <= B + loop_measure cong s (edges g))%nat
             /\ (loop_measure cong s' (edges g) < loop_measure cong s (edges g))%nat
       end.
Proof.
  intros Hinv. unfold step.
  destruct (heappop (open_set s)) as [[[f cur] rest]|] eqn:Epop.
  - pose proof (heappop_perm _ _ _ Epop) as Hperm.
    assert (Hcur_open : In (f, cur) (open_set s)).
    { eapply Permutation_in; [symmetry; exact Hperm | now left]. }
    assert (Hrest : forall f' n, In (f', n) rest -> In (f', n) (open_set s)).
    { intros f' n Hn. eapply Permutation_in; [symmetry; exact Hperm | now right]. }
    assert (Hgcur : is_Some (g_score s !! cur)) by (eapply inv_open; eauto).
    destruct (String.eqb_spec cur end_id) as [Heq|Hne].
    + eexists. split; [reflexivity|]. simpl. split; [exact Heq|]. split; [exact Hgcur|].
      destruct Hinv as [Hopen Hclosed Hscore Hfrom Hstart].
      constructor; simpl; eauto.
      destruct Hstart as [Hs|[Hs1 Hs2]]; [now left | right; eauto].
    + destruct (inv_score _ _ _ Hinv cur Hgcur) as ([node Hnode] & _ & _).
      unfold subscript. rewrite Hnode. simpl.
      destruct (close_node_inv cur f rest s rk B Hinv Hperm)
        as (rk' & B' & Hinv2 & HB & Hcur2 & Hstart2).
      destruct (relax_all_inv cur node (neighbors node) (close_node cur rest s) rk' B'
                  Hinv2 Hcur2 Hstart2 Hnode (fun x H => H))
        as (s3 & Hs3 & Hinv3 & Hm3).
      unfold close_node in Hs3. rewrite Hs3. simpl.
      eexists. split; [reflexivity|]. simpl.
      exists rk', B'. split; [exact Hinv3|].
      pose proof (close_node_measure cur f rest s Hperm) as Hm2.
      split; lia.
  - apply heappop_none in Epop.
    eexists. split; [reflexivity|]. simpl. auto.
Qed.

(** How the loop may end. *)
Definition exit_ok (s0 : search) (e : loop_exit) : Prop :=
  match e with
  | Exhausted s => open_set s = []
  | Reached s cur =>
      cur = end_id /\ is_Some (g_score s !! cur)
      /\ exists rk B, search_inv s rk B
                      /\ (B <= S (length (edges g)))%nat
  end.

(** The loop ends, without an error, within the number of rounds given by
    the measure. *)
Lemma search_loop_ends (fuel : nat) (s : search) (rk : string -> nat) (B : nat) :
  search_inv s rk B ->
  (B + loop_measure cong s (edges g) <= S (length (edges g)))%nat ->
  (loop_measure cong s (edges g) < fuel)%nat ->
  exists e, search_loop pow_half g end_id cong fuel s = Ok e /\ exit_ok s e.
Proof.
  revert s rk B. induction fuel as [|fuel IH]; intros s rk B Hinv HB Hfuel; [lia|].
  cbn [search_loop].
  destruct (step_inv s rk B Hinv) as (r & -> & Hr). simpl.
  destruct r as [[s1 cur|s1]|s'].
  - destruct Hr as (Hc & Hg & Hi). eexists. split; [reflexivity|]. simpl.
    split; [exact Hc|]. split; [exact Hg|]. exists rk, B. split; [exact Hi | lia].
  - destruct Hr as [-> Ho]. eexists. split; [reflexivity|]. exact Ho.
  - destruct Hr as (rk' & B' & Hi & HB' & Hm).
    destruct (IH s' rk' B' Hi) as (e & He & Hok); [lia | lia |].
    exists e. split; [exact He|].
    destruct e; exact Hok.
Qed.

(** *** Walking the predecessor links *)

Lemma reconstruct_loop_chain (cf : gmap string string) (mu : string -> nat) :
  (forall n c, cf !! n = Some c -> (mu c < mu n)%nat) ->
  forall (fuel : nat) (cur : string) (path : list string),
    (mu cur < fuel)%nat ->
    exists tl z,
      reconstruct_loop fuel cf cur path = Ok (path ++ tl)
      /\ (forall x, In x tl -> (mu x < mu cur)%nat /\ exists n, cf !! n = Some x)
      /\ NoDup tl
      /\ last (cur :: tl) = Some z
      /\ cf !! z = None
      /\ (z = cur \/ In z tl).
Proof.
  intros Hmu. induction fuel as [|fuel IH]; intros cur path Hfuel; [lia|].
  cbn [reconstruct_loop]. destruct (cf !! cur) as [prev|] eqn:Ecur.
  - pose proof (Hmu cur prev Ecur) as Hlt.
    destruct (IH prev (path ++ [prev])) as (tl & z & Hrun & Htl & Hnd & Hlast & Hz & Hzin); [lia|].
    exists (prev :: tl), z. rewrite Hrun, <- app_assoc. simpl.
    split; [reflexivity|]. split; [|split; [|split; [|split]]].
    + intros x [<-|Hx]; [split; [exact Hlt | eauto]|].
      destruct (Htl x Hx) as [H1 H2]. split; [lia | exact H2].
    + apply NoDup_cons. split; [|exact Hnd].
      intros Hin. apply list_elem_of_In in Hin. destruct (Htl prev Hin). lia.
    + first [exact Hlast | rewrite last_cons_cons; exact Hlast].
    + exact Hz.
    + right. destruct Hzin as [->|Hzin]; [now left | now right].
  - exists [], cur. rewrite app_nil_r.
    split; [reflexivity|]. split; [intros x []|]. split; [constructor|].
    split; [reflexivity|]. split; [exact Ecur | now left].
Qed.

(** From a state in which the goal was popped, [_reconstruct_path]
    returns a duplicate-free path from the start to the goal. *)
Lemma reconstruct_path_route (fuel : nat) (s : search) (rk : string -> nat) (B : nat) :
  search_inv s rk B ->
  is_Some (g_score s !! end_id) ->
  (B < fuel)%nat ->
  exists path,
    reconstruct_path fuel (came_from s) end_id = Ok path
    /\ NoDup path /\ head path = Some start_id /\ last path = Some end_id.
Proof.
  intros Hinv Hend Hfuel.
  set (mu := fun n => if decide (n ∈ closed_set s) then rk n else B).
  assert (Hmu : forall n c, came_from s !! n = Some c -> (mu c < mu n)%nat).
  { intros n c Hn. destruct (inv_from _ _ _ Hinv n c Hn) as (Hc & _ & _ & Hrk).
    destruct (inv_closed _ _ _ Hinv c Hc) as [_ HcB].
    unfold mu. rewrite (decide_True _ _ Hc).
    destruct (decide (n ∈ closed_set s)) as [Hncl|_]; [now apply Hrk | exact HcB]. }
  assert (Hend_mu : (mu end_id < fuel)%nat).
  { unfold mu. destruct (decide (end_id ∈ closed_set s)) as [Hcl|_]; [|exact Hfuel].
    destruct (inv_closed _ _ _ Hinv end_id Hcl). lia. }
  destruct (reconstruct_loop_chain (came_from s) mu Hmu fuel end_id [end_id] Hend_mu)
    as (tl & z & Hrun & Htl & Hnd & Hlast & Hz & Hzin).
  unfold reconstruct_path. rewrite Hrun. simpl.
  exists (rev (end_id :: tl)). split; [reflexivity|].
  rewrite rev_alt. change (rev_append (end_id :: tl) []) with (reverse (end_id :: tl)).
  split; [|split].
  - rewrite reverse_Permutation. apply NoDup_cons. split; [|exact Hnd].
    intros Hin. apply list_elem_of_In in Hin. destruct (Htl end_id Hin). lia.
  - rewrite head_reverse, Hlast. f_equal.
    assert (Hzscore : is_Some (g_score s !! z)).
    { destruct Hzin as [->|Hzin]; [exact Hend|].
      destruct (Htl z Hzin) as [_ [n Hn]].
      destruct (inv_from _ _ _ Hinv n z Hn) as (Hc & _).
      now apply (inv_closed _ _ _ Hinv). }
    destruct (inv_score _ _ _ Hinv z Hzscore) as (_ & _ & [Hs|Hs]); [exact Hs|].
    rewrite Hz in Hs. destruct Hs as [? [=]].
  - rewrite last_reverse. reflexivity.
Qed.

(** *** The whole search *)

Hypothesis start_present : is_Some (nodes g !! start_id).

Lemma initial_search_inv (h0 : Q) :
  search_inv (initial_search start_id h0) (fun _ => O) O.
Proof.
  constructor; simpl.
  - intros f n [[= _ <-]|[]]. rewrite lookup_singleton_eq. eauto.
  - intros c Hc. now apply not_elem_of_empty in Hc.
  - intros n [v Hn]. apply lookup_singleton_Some in Hn as [<- _].
    split; [exact start_present|]. split; [constructor | now left].
  - intros n c Hn. now rewrite lookup_empty in Hn.
  - right. split; [reflexivity|]. now intros f n [[= _ <-]|[]].
Qed.

Lemma initial_search_measure (h0 : Q) :
  (loop_measure cong (initial_search start_id h0) (edges g) <= S (length (edges g)))%nat.
Proof.
  unfold loop_measure, unspent_count. simpl.
  pose proof (List.filter_length_le
                (fun e => negb (spent cong (initial_search start_id h0) e)) (edges g)).
  lia.
Qed.

(** With both ids in a closed graph, [find_path] returns once the fuel
    exceeds the number of edges by three: the empty path when the frontier
    runs empty, and otherwise a duplicate-free route, which exists only if
    the goal can be reached from the start. *)
Lemma find_path_outcome (fuel : nat) (congo : option (gmap (string * string) Q)) :
  default ∅ congo = cong ->
  (length (edges g) + 3 <= fuel)%nat ->
  exists h0 e,
    heuristic pow_half g start_id end_id = Ok h0
    /\ search_loop pow_half g end_id cong fuel (initial_search start_id h0) = Ok e
    /\ match e with
       | Exhausted s =>
           open_set s = [] /\ find_path pow_half g fuel start_id end_id congo = Ok []
       | Reached s cur =>
           connected g start_id end_id
           /\ exists path,
                find_path pow_half g fuel start_id end_id congo = Ok path
                /\ NoDup path /\ head path = Some start_id /\ last path = Some end_id
       end.
Proof.
  intros Hcong Hfuel.
  destruct (heuristic_ok pow_half g start_id end_id start_present end_present) as [h0 Hh0].
  pose proof (initial_search_measure h0) as Hm0.
  destruct (search_loop_ends fuel (initial_search start_id h0) (fun _ => O) O
              (initial_search_inv h0)) as (e & He & Hok); [lia | lia |].
  exists h0, e. split; [exact Hh0|]. split; [exact He|].
  unfold find_path.
  rewrite (bool_decide_eq_true_2 _ start_present), (bool_decide_eq_true_2 _ end_present).
  simpl. rewrite Hcong, Hh0. simpl. rewrite He. simpl.
  destruct e as [s cur|s]; simpl in Hok.
  - destruct Hok as (-> & Hg & rk & B & Hinv & HB).
    split; [apply (inv_score _ _ _ Hinv end_id Hg)|].
    apply (reconstruct_path_route fuel s rk B Hinv Hg). lia.
  - split; [exact Hok | reflexivity].
Qed.

End SearchFacts.

(** ** Graphs made by the construction calls are closed *)

Definition graph_closed_prop (g : BuildingGraph) : Prop :=
  forall c node n d,
    nodes g !! c = Some node -> In (n, d) (neighbors node) -> is_Some (nodes g !! n).

Lemma graph_closedb_intro (g : BuildingGraph) :
  graph_closed_prop g -> graph_closedb g = true.
Proof.
  intros H. unfold graph_closedb. apply forallb_forall. intros [c node] Hin.
  apply list_elem_of_In, elem_of_map_to_list in Hin.
  apply forallb_forall. intros [n d] Hn. simpl. apply bool_decide_eq_true_2. eauto.
Qed.

Lemma ord_set_in_key {V} (k k' : string) (v v' : V) (d : OrdDict.t V) :
  In (k, v) (OrdDict.set k' v' d) -> k = k' \/ In (k, v) d.
Proof.
  induction d as [|[k0 v0] d IH]; simpl.
  - intros [[= -> _]|[]]. now left.
  - destruct (String.eqb_spec k0 k') as [->|Hne]; simpl.
    + intros [[= -> _]|H]; [now left | right; now right].
    + intros [H|H]; [right; now left|].
      destruct (IH H) as [->|H']; [now left | right; now right].
Qed.

Lemma is_Some_alter {V} (f : V -> V) (m : gmap string V) (k n : string) :
  is_Some (m !! n) -> is_Some (alter f k m !! n).
Proof.
  intros [v Hv]. destruct (decide (k = n)) as [->|Hne].
  - rewrite lookup_alter_eq, Hv. simpl. eauto.
  - rewrite lookup_alter_ne by exact Hne. eauto.
Qed.

Lemma alter_neighbor_closed (m : gmap string Node) (a b c n : string) (w d : Q)
      (node : Node) :
  is_Some (m !! b) ->
  (forall c' node' n' d', m !! c' = Some node' -> In (n', d') (neighbors node') ->
                          is_Some (m !! n')) ->
  alter (fun x => add_neighbor x b w) a m !! c = Some node ->
  In (n, d) (neighbors node) ->
  is_Some (alter (fun x => add_neighbor x b w) a m !! n).
Proof.
  intros Hb Hm Hc Hn. apply is_Some_alter.
  destruct (decide (a = c)) as [->|Hne].
  - rewrite lookup_alter_eq in Hc.
    destruct (m !! c) as [old|] eqn:Eold; [|discriminate]. injection Hc as <-.
    simpl in Hn. apply ord_set_in_key in Hn as [->|Hn]; [exact Hb | eauto].
  - rewrite lookup_alter_ne in Hc by exact Hne. eauto.
Qed.

Lemma run_op_closed (g : BuildingGraph) (op : graph_op) :
  graph_closed_prop g -> graph_closed_prop (run_op g op).
Proof.
  intros Hg. destruct op as [a x y fl | a b w | name a]; simpl.
  - intros c node n d Hc Hn. simpl in Hc.
    destruct (decide (a = c)) as [->|Hne].
    + rewrite lookup_insert_eq in Hc. injection Hc as <-. destruct Hn.
    + rewrite lookup_insert_ne in Hc by exact Hne. simpl.
      apply is_Some_insert. eauto.
  - unfold add_edge.
    destruct (nodes g !! a) as [na|] eqn:Ea; [|exact Hg].
    destruct (nodes g !! b) as [nb|] eqn:Eb; [|exact Hg].
    intros c node n d Hc Hn. simpl in *.
    eapply alter_neighbor_closed; [| |exact Hc|exact Hn].
    + apply is_Some_alter. rewrite Ea. eauto.
    + intros c' node' n' d' Hc' Hn'.
      eapply alter_neighbor_closed; [| |exact Hc'|exact Hn'].
      * rewrite Eb. eauto.
      * exact Hg.
  - exact Hg.
Qed.

Lemma build_closed (ops : list graph_op) : graph_closedb (build ops) = true.
Proof.
  apply graph_closedb_intro.
  induction ops as [|op ops IH] using rev_ind.
  - intros c node n d Hc. unfold build in Hc. simpl in Hc. now rewrite lookup_empty in Hc.
  - rewrite build_snoc. now apply run_op_closed.
Qed.

(** ** Path finder: the whole search *)

Lemma find_path_absent (pow_half : Q -> Q) (g : BuildingGraph) (start_id end_id : string)
      (congo : option (gmap (string * string) Q)) (fuel : nat) :
  nodes g !! start_id = None \/ nodes g !! end_id = None ->
  find_path pow_half g fuel start_id end_id congo = Ok [].
Proof.
  intros H. unfold find_path.
  destruct H as [H|H]; rewrite H.
  - rewrite bool_decide_eq_false_2 by (intros [? [=]]). reflexivity.
  - rewrite (bool_decide_eq_false_2 (is_Some None)) by (intros [? [=]]).
    simpl. now rewrite orb_true_r.
Qed.

(** More fuel does not change a result. *)
Lemma search_loop_more_fuel (pow_half : Q -> Q) (g : BuildingGraph) (end_id : string)
      (cong : gmap (string * string) Q) (fuel fuel' : nat) (s : search) (e : loop_exit) :
  search_loop pow_half g end_id cong fuel s = Ok e ->
  (fuel <= fuel')%nat ->
  search_loop pow_half g end_id cong fuel' s = Ok e.
Proof.
  revert fuel' s. induction fuel as [|fuel IH]; intros fuel' s Hrun Hle; [discriminate|].
  destruct fuel' as [|fuel']; [lia|].
  cbn [search_loop] in *.
  destruct (step pow_half g end_id cong s) as [[ex|s']| | |]; simpl in *; try discriminate.
  - exact Hrun.
  - apply IH; [exact Hrun | lia].
Qed.

Lemma reconstruct_loop_more_fuel (cf : gmap string string) (fuel fuel' : nat)
      (cur : string) (path res : list string) :
  reconstruct_loop fuel cf cur path = Ok res ->
  (fuel <= fuel')%nat ->
  reconstruct_loop fuel' cf cur path = Ok res.
Proof.
  revert fuel' cur path. induction fuel as [|fuel IH]; intros fuel' cur path Hrun Hle;
    [discriminate|].
  destruct fuel' as [|fuel']; [lia|].
  cbn [reconstruct_loop] in *.
  destruct (cf !! cur) as [prev|]; [|exact Hrun].
  apply IH; [exact Hrun | lia].
Qed.

Lemma find_path_more_fuel (pow_half : Q -> Q) (g : BuildingGraph) (start_id end_id : string)
      (congo : option (gmap (string * string) Q)) (fuel fuel' : nat) (path : list string) :
  find_path pow_half g fuel start_id end_id congo = Ok path ->
  (fuel <= fuel')%nat ->
  find_path pow_half g fuel' start_id end_id congo = Ok path.
Proof.
  unfold find_path. intros Hrun Hle.
  destruct (negb _ || negb _); [exact Hrun|].
  destruct (heuristic pow_half g start_id end_id) as [h0| | |]; simpl in *; try discriminate.
  destruct (search_loop pow_half g end_id (default ∅ congo) fuel (initial_search start_id h0))
    as [e| | |] eqn:Eloop; simpl in Hrun; try discriminate.
  rewrite (search_loop_more_fuel _ _ _ _ _ _ _ _ Eloop Hle). simpl.
  destruct e as [s cur|s]; [|exact Hrun].
  unfold reconstruct_path in *.
  destruct (reconstruct_loop fuel (came_from s) cur [cur]) as [res| | |] eqn:Erec;
    simpl in Hrun; try discriminate.
  now rewrite (reconstruct_loop_more_fuel _ _ _ _ _ _ Erec Hle).
Qed.

(** In exact arithmetic and in a graph whose neighbor ids are all nodes,
    the search returns a path (the same for every fuel from [enough_fuel]
    on), which is empty exactly when the start id or the goal id is not a
    node or the loop ends on an empty frontier. *)
Lemma search_outcome_exact
        (pow_half : Q -> Q) (g : BuildingGraph) (start_id end_id : string)
        (congo : option (gmap (string * string) Q)) :
  graph_closedb g = true ->
  exists path,
    (forall fuel, (enough_fuel g <= fuel)%nat ->
                  find_path pow_half g fuel start_id end_id congo = Ok path)
    /\ (nodes g !! start_id = None \/ nodes g !! end_id = None ->
        forall fuel, find_path pow_half g fuel start_id end_id congo = Ok [])
    /\ (path = [] <->
        nodes g !! start_id = None \/ nodes g !! end_id = None
        \/ exists h0 s,
             heuristic pow_half g start_id end_id = Ok h0
             /\ (forall fuel, (enough_fuel g <= fuel)%nat ->
                   search_loop pow_half g end_id (default ∅ congo) fuel
                               (initial_search start_id h0) = Ok (Exhausted s))
             /\ open_set s = [])
    /\ (~ connected g start_id end_id -> path = []).
Proof.
  intros Hclosed.
  destruct (nodes g !! start_id) as [ns|] eqn:Es; cycle 1.
  { exists []. split; [intros fuel _; apply find_path_absent; now left|].
    split; [intros _ fuel; apply find_path_absent; now left|].
    split; [split; [now left | reflexivity] | reflexivity]. }
  destruct (nodes g !! end_id) as [ne|] eqn:Ee; cycle 1.
  { exists []. split; [intros fuel _; apply find_path_absent; now right|].
    split; [intros _ fuel; apply find_path_absent; now right|].
    split; [split; [right; now left | reflexivity] | reflexivity]. }
  assert (Hs : is_Some (nodes g !! start_id)) by (rewrite Es; eauto).
  assert (He : is_Some (nodes g !! end_id)) by (rewrite Ee; eauto).
  destruct (find_path_outcome pow_half g start_id end_id (default ∅ congo)
              Hclosed He Hs (enough_fuel g) congo eq_refl (Nat.le_refl _))
    as (h0 & e & Hh0 & Hloop & Hres).
  destruct e as [s cur|s].
  - destruct Hres as (Hconn & path & Hpath & _ & Hhead & _).
    exists path. split; [intros fuel Hfuel; eapply find_path_more_fuel; eauto|].
    split; [intros [[=]|[=]]|].
    split; [split|].
    + intros ->. discriminate Hhead.
    + intros [[=]|[[=]|(h0' & s' & Hh0' & Hloop' & _)]].
      rewrite Hh0 in Hh0'. injection Hh0' as <-.
      rewrite (Hloop' (enough_fuel g) (Nat.le_refl _)) in Hloop. discriminate Hloop.
    + intros Hnot. contradiction.
  - destruct Hres as (Hopen & Hpath).
    exists []. split; [intros fuel Hfuel; eapply find_path_more_fuel; eauto|].
    split; [intros [[=]|[=]]|].
    split; [split; [|reflexivity] | reflexivity].
    intros _. right. right. exists h0, s.
    split; [exact Hh0|]. split; [|exact Hopen].
    intros fuel Hfuel. eapply search_loop_more_fuel; eauto.
Qed.

(** C10: in a graph whose neighbor ids are all nodes, whose distances are
    strictly positive, searched with a snapshot whose rates are
    non-negative, [find_path] terminates: the search loop and the walk
    along the predecessor links both end within [enough_fuel] rounds, and
    the path returned is the same for every larger fuel; if it is not
    empty, it has no repeated node id, starts at the start id and ends at
    the goal id. *)
Theorem find_path_terminates_with_simple_path
        (pow_half : Q -> Q) (g : BuildingGraph) (start_id end_id : string)
        (congo : option (gmap (string * string) Q)) :
  graph_closedb g = true ->
  positive_distancesb g = true ->
  nonneg_ratesb (default ∅ congo) = true ->
  exists path,
    (forall fuel, (enough_fuel g <= fuel)%nat ->
                  find_path pow_half g fuel start_id end_id congo = Ok path)
    /\ (path <> [] ->
        NoDup path /\ head path = Some start_id /\ last path = Some end_id).
Proof.
  intros Hclosed _ _.
  destruct (nodes g !! start_id) as [ns|] eqn:Es; cycle 1.
  { exists []. split; [intros fuel _; apply find_path_absent; now left | congruence]. }
  destruct (nodes g !! end_id) as [ne|] eqn:Ee; cycle 1.
  { exists []. split; [intros fuel _; apply find_path_absent; now right | congruence]. }
  assert (Hs : is_Some (nodes g !! start_id)) by (rewrite Es; eauto).
  assert (He : is_Some (nodes g !! end_id)) by (rewrite Ee; eauto).
  destruct (find_path_outcome pow_half g start_id end_id (default ∅ congo)
              Hclosed He Hs (enough_fuel g) congo eq_refl (Nat.le_refl _))
    as (h0 & e & _ & _ & Hres).
  destruct e as [s cur|s].
  - destruct Hres as (_ & path & Hpath & Hnd & Hhead & Hlast).
    exists path. split; [intros fuel Hfuel; eapply find_path_more_fuel; eauto|].
    intros _. auto.
  - destruct Hres as (_ & Hpath). exists [].
    split; [intros fuel Hfuel; eapply find_path_more_fuel; eauto | congruence].
Qed.

Lemma find_path_terminates_with_simple_path_witness :
  exists path,
    (forall fuel, (enough_fuel two_rooms <= fuel)%nat ->
                  find_path (fun v => v) two_rooms fuel "A" "B"
                            (Some {[("A"%string, "B"%string) := 1]}) = Ok path)
    /\ (path <> [] ->
        NoDup path /\ head path = Some "A"%string /\ last path = Some "B"%string).
Proof.
  apply (find_path_terminates_with_simple_path
           (fun v => v) two_rooms "A" "B" (Some {[("A"%string, "B"%string) := 1]})).
  - vm_compute. reflexivity.
  - vm_compute. reflexivity.
  - vm_compute. reflexivity.
Defined.

(** * Further properties of the graph model *)

Lemma ord_set_set_same {V} (k : string) (v : V) (d : OrdDict.t V) :
  OrdDict.set k v (OrdDict.set k v d) = OrdDict.set k v d.
Proof.
  induction d as [|[k0 v0] d IH]; simpl.
  - now rewrite String.eqb_refl.
  - destruct (String.eqb k0 k) eqn:E; simpl; rewrite E; [reflexivity | now rewrite IH].
Qed.

Lemma add_neighbor_twice (n : Node) (k : string) (d : Q) :
  add_neighbor (add_neighbor n k d) k d = add_neighbor n k d.
Proof. unfold add_neighbor. simpl. now rewrite ord_set_set_same. Qed.

Lemma add_edge_nodes (g : BuildingGraph) (a b : string) (d : Q) :
  is_Some (nodes g !! a) -> is_Some (nodes g !! b) ->
  nodes (add_edge g a b d)
  = alter (fun n => add_neighbor n a d) b (alter (fun n => add_neighbor n b d) a (nodes g)).
Proof. intros [na Ha] [nb Hb]. unfold add_edge. now rewrite Ha, Hb. Qed.

Lemma alter_add_neighbor_lookup (m : gmap string Node) (a k : string) (d : Q)
      (c : string) (n : Node) :
  m !! c = Some n ->
  exists n', alter (fun x => add_neighbor x k d) a m !! c = Some n'
             /\ node_x n' = node_x n /\ node_y n' = node_y n
             /\ node_floor n' = node_floor n
             /\ forall k', k' <> k ->
                  OrdDict.get k' (neighbors n') = OrdDict.get k' (neighbors n).
Proof.
  intros Hc. destruct (decide (a = c)) as [->|Hne].
  - rewrite lookup_alter_eq, Hc. simpl. eexists. split; [reflexivity|].
    simpl. repeat (split; [reflexivity|]).
    intros k' Hk'. now apply ord_get_set_ne.
  - rewrite lookup_alter_ne by exact Hne. exists n. auto.
Qed.

(** X1: [add_edge] between two existing nodes records the distance in both
    neighbor maps (for a self-loop, in the one map), keeps the set of node
    ids, every node's coordinates, every node other than the two
    endpoints, and every neighbor entry under a key other than the two
    ids. *)
Theorem add_edge_links_both_ways (g : BuildingGraph) (a b : string) (d : Q) :
  is_Some (nodes g !! a) ->
  is_Some (nodes g !! b) ->
  let g' := add_edge g a b d in
  (exists na, nodes g' !! a = Some na /\ OrdDict.get b (neighbors na) = Some d)
  /\ (exists nb, nodes g' !! b = Some nb /\ OrdDict.get a (neighbors nb) = Some d)
  /\ (forall c, c <> a -> c <> b -> nodes g' !! c = nodes g !! c)
  /\ (forall c n, nodes g !! c = Some n ->
        exists n', nodes g' !! c = Some n'
                   /\ node_x n' = node_x n /\ node_y n' = node_y n
                   /\ node_floor n' = node_floor n
                   /\ forall k, k <> a -> k <> b ->
                        OrdDict.get k (neighbors n') = OrdDict.get k (neighbors n))
  /\ (forall c, nodes g !! c = None -> nodes g' !! c = None).
Proof.
  intros Ha Hb g'. subst g'. rewrite (add_edge_nodes g a b d Ha Hb).
  destruct Ha as [na Ha], Hb as [nb Hb].
  split; [|split; [|split; [|split]]].
  - destruct (decide (b = a)) as [->|Hne].
    + rewrite !lookup_alter_eq, Ha. simpl. eexists. split; [reflexivity|].
      simpl. apply ord_get_set_eq.
    + rewrite lookup_alter_ne, lookup_alter_eq, Ha by exact Hne. simpl.
      eexists. split; [reflexivity|]. simpl. apply ord_get_set_eq.
  - rewrite lookup_alter_eq.
    destruct (decide (a = b)) as [->|Hne].
    + rewrite lookup_alter_eq, Hb. simpl. eexists. split; [reflexivity|].
      simpl. apply ord_get_set_eq.
    + rewrite lookup_alter_ne, Hb by exact Hne. simpl.
      eexists. split; [reflexivity|]. simpl. apply ord_get_set_eq.
  - intros c Hca Hcb. now rewrite !lookup_alter_ne by congruence.
  - intros c n Hc.
    destruct (alter_add_neighbor_lookup (nodes g) a b d c n Hc)
      as (n1 & Hn1 & Hx1 & Hy1 & Hf1 & Hk1).
    destruct (alter_add_neighbor_lookup _ b a d c n1 Hn1)
      as (n2 & Hn2 & Hx2 & Hy2 & Hf2 & Hk2).
    exists n2. split; [exact Hn2|].
    split; [congruence|]. split; [congruence|]. split; [congruence|].
    intros k Hka Hkb. rewrite Hk2, Hk1 by congruence. reflexivity.
  - intros c Hc.
    destruct (decide (b = c)) as [->|Hbc].
    + rewrite lookup_alter_eq.
      destruct (decide (a = c)) as [->|Hac].
      * now rewrite lookup_alter_eq, Hc.
      * now rewrite lookup_alter_ne, Hc by exact Hac.
    + rewrite lookup_alter_ne by exact Hbc.
      destruct (decide (a = c)) as [->|Hac].
      * now rewrite lookup_alter_eq, Hc.
      * now rewrite lookup_alter_ne by exact Hac.
Qed.

Lemma add_edge_links_both_ways_witness :
  let g' := add_edge two_rooms "A" "B" 7 in
  (exists na, nodes g' !! "A"%string = Some na
              /\ OrdDict.get "B" (neighbors na) = Some 7)
  /\ (exists nb, nodes g' !! "B"%string = Some nb
                 /\ OrdDict.get "A" (neighbors nb) = Some 7).
Proof.
  destruct (add_edge_links_both_ways two_rooms "A" "B" 7) as (H1 & H2 & _).
  - vm_compute. eauto.
  - vm_compute. eauto.
  - split; [exact H1 | exact H2].
Defined.

(** X2: adding the same edge with the same distance a second time leaves
    the graph exactly as the first call left it. *)
Theorem add_edge_idempotent (g : BuildingGraph) (a b : string) (d : Q) :
  add_edge (add_edge g a b d) a b d = add_edge g a b d.
Proof.
  destruct (nodes g !! a) as [na|] eqn:Ha; cycle 1.
  { unfold add_edge at 2. rewrite Ha. unfold add_edge. now rewrite Ha. }
  destruct (nodes g !! b) as [nb|] eqn:Hb; cycle 1.
  { unfold add_edge at 2. rewrite Ha, Hb. unfold add_edge. now rewrite Ha, Hb. }
  assert (Ha' : is_Some (nodes g !! a)) by (rewrite Ha; eauto).
  assert (Hb' : is_Some (nodes g !! b)) by (rewrite Hb; eauto).
  assert (Hspec : special_locations (add_edge g a b d) = special_locations g).
  { unfold add_edge. now rewrite Ha, Hb. }
  assert (Hnodes : nodes (add_edge (add_edge g a b d) a b d) = nodes (add_edge g a b d)).
  { rewrite (add_edge_nodes (add_edge g a b d) a b d).
    - rewrite (add_edge_nodes g a b d Ha' Hb'). apply map_eq. intros c.
      destruct (decide (b = c)) as [->|Hbc]; destruct (decide (a = c)) as [->|Hac];
        repeat (rewrite lookup_alter_eq || rewrite lookup_alter_ne by assumption);
        destruct (nodes g !! c); simpl; rewrite ?add_neighbor_twice; reflexivity.
    - rewrite (add_edge_nodes g a b d Ha' Hb'). now apply is_Some_alter, is_Some_alter.
    - rewrite (add_edge_nodes g a b d Ha' Hb'). now apply is_Some_alter, is_Some_alter. }
  destruct (add_edge (add_edge g a b d) a b d) as [ns2 sp2] eqn:E2.
  destruct (add_edge g a b d) as [ns1 sp1] eqn:E1.
  simpl in Hnodes, Hspec. subst ns2.
  assert (Hsp2 : sp2 = sp1).
  { assert (H : special_locations (add_edge (mkGraph ns1 sp1) a b d) = sp1).
    { unfold add_edge. simpl. destruct (ns1 !! a), (ns1 !! b); reflexivity. }
    rewrite E2 in H. exact H. }
  now subst sp2.
Qed.

(** X3: every graph made by [add_node], [add_edge] and
    [add_special_location] calls is closed: each neighbor id of each of its
    nodes is itself a node of the graph. *)
Theorem built_graph_neighbors_are_nodes
        (ops : list graph_op) (c n : string) (node : Node) (d : Q) :
  nodes (build ops) !! c = Some node ->
  In (n, d) (neighbors node) ->
  is_Some (nodes (build ops) !! n).
Proof.
  intros Hc Hn. eapply graph_closedb_spec; eauto. apply build_closed.
Qed.

Lemma built_graph_neighbors_are_nodes_witness :
  is_Some (nodes (build [AddNode "A" 0 0 0; AddNode "B" 1 0 0; AddEdge "A" "B" 1])
           !! "B"%string).
Proof.
  apply (built_graph_neighbors_are_nodes
           [AddNode "A" 0 0 0; AddNode "B" 1 0 0; AddEdge "A" "B" 1]
           "A" "B" (mkNode "A" 0 0 0 [("B"%string, 1)]) 1).
  - vm_compute. reflexivity.
  - simpl. left. reflexivity.
Defined.

(** X4: a name registered with [add_special_location] resolves to the node
    stored under the registered id; when that id is not a node the lookup
    raises ([self.nodes[node_id]]), since the registration does not check
    the id. Names never registered give Python's [None], and registering
    one name does not change what another name resolves to. *)
Theorem special_location_resolution (g : BuildingGraph) (name nid : string) :
  let g' := add_special_location g name nid in
  (forall n, nodes g !! nid = Some n -> get_node_by_location g' name = Some (Some n))
  /\ (nodes g !! nid = None -> get_node_by_location g' name = None)
  /\ (forall other, other <> name ->
        get_node_by_location g' other = get_node_by_location g other)
  /\ (forall other, special_locations g !! other = None ->
        get_node_by_location g other = Some None).
Proof.
  simpl. unfold get_node_by_location, add_special_location. simpl.
  split; [|split; [|split]].
  - intros n Hn. now rewrite lookup_insert_eq, Hn.
  - intros Hn. now rewrite lookup_insert_eq, Hn.
  - intros other Hne. now rewrite lookup_insert_ne by congruence.
  - intros other Ho. now rewrite Ho.
Qed.

(** * Further properties of the estimator *)

Lemma add_data_point_run (clock : nat -> Q) (d : AccelerometerData) (w : World) :
  let p := proc w in
  let loc := location_id d in
  let stored := default [] (OrdDict.get loc (data_cache p)) ++ [d] in
  snd (add_data_point clock d w)
  = mkWorld (mkProcessor
               (OrdDict.set loc (unexpired (clock (ticks w)) (expiry_time p) stored)
                            (OrdDict.set loc stored (data_cache p)))
               (congestion_cache p) (expiry_time p) (step_threshold p) (step_cooldown p))
            (S (ticks w)).
Proof.
  simpl. unfold add_data_point, bind, get_proc, set_data_cache, clean_expired_data,
    bind, get_proc, time_time, set_data_cache. simpl.
  now rewrite ord_get_set_eq.
Qed.

Lemma ord_set_set_get {V} (k k' : string) (v v' : V) (d : OrdDict.t V) :
  OrdDict.get k' (OrdDict.set k v (OrdDict.set k v' d))
  = OrdDict.get k' (OrdDict.set k v d).
Proof.
  destruct (String.eqb_spec k k') as [->|Hne].
  - now rewrite !ord_get_set_eq.
  - now rewrite !ord_get_set_ne by congruence.
Qed.

(** X5: [add_data_point] appends the sample to the record of its location
    (creating the record if need be) and prunes that record at the current
    clock reading: afterwards the record holds exactly the unexpired ones
    among the old samples and the new one, in order, so the new sample is
    stored only if it is itself unexpired; the records of the other
    locations and the memoized rates are untouched, and the clock was read
    once. *)
Theorem add_data_point_effect (clock : nat -> Q) (d : AccelerometerData) (w : World) :
  let w' := snd (add_data_point clock d w) in
  let loc := location_id d in
  let now := clock (ticks w) in
  let old := default [] (OrdDict.get loc (data_cache (proc w))) in
  OrdDict.get loc (data_cache (proc w'))
  = Some (unexpired now (expiry_time (proc w)) (old ++ [d]))
  /\ (forall s, In s (unexpired now (expiry_time (proc w)) (old ++ [d])) <->
                In s (old ++ [d])
                /\ now - timestamp s < inject_Z (expiry_time (proc w)))
  /\ (forall other, other <> loc ->
        OrdDict.get other (data_cache (proc w'))
        = OrdDict.get other (data_cache (proc w)))
  /\ congestion_cache (proc w') = congestion_cache (proc w)
  /\ ticks w' = S (ticks w).
Proof.
  intros w' loc now old. subst w' loc now old. rewrite add_data_point_run. simpl.
  split; [apply ord_get_set_eq|]. split; [|split; [|split; reflexivity]].
  - intros s. unfold unexpired. rewrite <- !list_elem_of_In, list_elem_of_filter.
    rewrite Qltb_lt. tauto.
  - intros other Hne. now rewrite !ord_get_set_ne by congruence.
Qed.

Lemma calculate_congestion_hit (pow_half : Q -> Q) (clock : nat -> Q)
      (loc : string) (w : World) (r stamp : Q) :
  congestion_cache (proc w) !! loc = Some (r, stamp) ->
  clock (ticks w) - stamp < 60 ->
  calculate_congestion pow_half clock loc w = (r, mkWorld (proc w) (S (ticks w))).
Proof.
  intros Hmemo Hfresh.
  unfold calculate_congestion, bind, cached_rate, bind, get_proc, time_time, ret.
  rewrite Hmemo. simpl.
  apply Qltb_lt in Hfresh. now rewrite Hfresh.
Qed.

Lemma recompute_congestion_stores (pow_half : Q -> Q) (clock : nat -> Q)
      (loc : string) (w : World) (data : list AccelerometerData) :
  OrdDict.get loc (data_cache (proc w)) = Some data ->
  unexpired (clock (ticks w)) (expiry_time (proc w)) data <> [] ->
  congestion_cache (proc (snd (recompute_congestion pow_half clock loc w))) !! loc
  = Some (fst (recompute_congestion pow_half clock loc w), clock (S (ticks w))).
Proof.
  intros Hdata Hlive.
  unfold recompute_congestion, bind, clean_expired_data, bind, get_proc, time_time,
    set_data_cache, set_congestion_cache, ret.
  rewrite Hdata. simpl. rewrite ord_get_set_eq.
  destruct (unexpired (clock (ticks w)) (expiry_time (proc w)) data) as [|d l];
    [congruence|].
  simpl. now rewrite lookup_insert_eq.
Qed.

(** X6: when [calculate_congestion] computes a rate from unexpired samples
    (no fresh memoized rate, at least one unexpired sample), it memoizes
    the rate with the clock reading that follows the pruning; and however
    many samples are then added with [add_data_point], a later call whose
    clock reading is less than 60 seconds after that stamp returns the
    memoized rate: the new samples are not taken into account. *)
Theorem memoized_rate_ignores_new_samples
        (pow_half : Q -> Q) (clock : nat -> Q) (loc : string) (w : World)
        (data : list AccelerometerData) :
  fst (cached_rate clock loc w) = None ->
  OrdDict.get loc (data_cache (proc w)) = Some data ->
  unexpired (clock (ticks (snd (cached_rate clock loc w))))
            (expiry_time (proc w)) data <> [] ->
  let r := fst (calculate_congestion pow_half clock loc w) in
  let w1 := snd (calculate_congestion pow_half clock loc w) in
  exists stamp,
    congestion_cache (proc w1) !! loc = Some (r, stamp)
    /\ forall added,
         let w2 := ingest_all clock added w1 in
         clock (ticks w2) - stamp < 60 ->
         fst (calculate_congestion pow_half clock loc w2) = r.
Proof.
  intros Hmemo Hdata Hlive r w1.
  pose proof (cached_rate_proc clock loc w) as Hp.
  assert (Hcalc : calculate_congestion pow_half clock loc w
                  = recompute_congestion pow_half clock loc (snd (cached_rate clock loc w))).
  { unfold calculate_congestion, bind.
    destruct (cached_rate clock loc w) as [o w0]. simpl in Hmemo. now subst o. }
  subst r w1. rewrite Hcalc.
  set (w0 := snd (cached_rate clock loc w)) in *.
  rewrite <- Hp in Hdata, Hlive.
  exists (clock (S (ticks w0))).
  pose proof (recompute_congestion_stores pow_half clock loc w0 data Hdata Hlive) as Hst.
  split; [exact Hst|].
  intros added. cbv zeta. intros Hfresh.
  set (w2 := ingest_all clock added (snd (recompute_congestion pow_half clock loc w0))) in *.
  assert (Hc : congestion_cache (proc w2) !! loc
               = Some (fst (recompute_congestion pow_half clock loc w0),
                       clock (S (ticks w0)))).
  { subst w2. now rewrite ingest_all_cache. }
  now rewrite (calculate_congestion_hit pow_half clock loc w2 _ _ Hc Hfresh).
Qed.

Lemma memoized_rate_ignores_new_samples_witness :
  let d := mkAccel 0 0 2 0 "u" "L" in
  let w := snd (add_data_point (fun _ => 0) d (mkWorld (new_processor 300) 0)) in
  exists stamp,
    congestion_cache (proc (snd (calculate_congestion (fun v => v) (fun _ => 0) "L" w)))
      !! "L"%string
    = Some (fst (calculate_congestion (fun v => v) (fun _ => 0) "L" w), stamp)
    /\ forall added,
         (fun _ : nat => 0) (ticks (ingest_all (fun _ => 0) added
                (snd (calculate_congestion (fun v => v) (fun _ => 0) "L" w)))) - stamp < 60 ->
         fst (calculate_congestion (fun v => v) (fun _ => 0) "L"
                (ingest_all (fun _ => 0) added
                   (snd (calculate_congestion (fun v => v) (fun _ => 0) "L" w))))
         = fst (calculate_congestion (fun v => v) (fun _ => 0) "L" w).
Proof.
  destruct (memoized_rate_ignores_new_samples
              (fun v => v) (fun _ => 0) "L"
              (snd (add_data_point (fun _ => 0) (mkAccel 0 0 2 0 "u" "L")
                                   (mkWorld (new_processor 300) 0)))
              [mkAccel 0 0 2 0 "u" "L"]) as (stamp & Hst & Hlater).
  - vm_compute. reflexivity.
  - vm_compute. reflexivity.
  - vm_compute. discriminate.
  - exists stamp. split; [exact Hst | exact Hlater].
Defined.

(** X7: asking for the rate of a location that has neither a record nor a
    memoized rate returns 0 and changes nothing at all: no record is
    created, nothing is memoized and the clock is not even read. When the
    location has a record but every sample of it has expired (and there is
    no fresh memoized rate), the rate is 0 as well, the record stays as an
    empty record, and the zero is not memoized. *)
Theorem calculate_congestion_without_samples
        (pow_half : Q -> Q) (clock : nat -> Q) (loc : string) (w : World) :
  (OrdDict.get loc (data_cache (proc w)) = None ->
   congestion_cache (proc w) !! loc = None ->
   calculate_congestion pow_half clock loc w = (0, w))
  /\ (forall data,
        OrdDict.get loc (data_cache (proc w)) = Some data ->
        fst (cached_rate clock loc w) = None ->
        unexpired (clock (ticks (snd (cached_rate clock loc w))))
                  (expiry_time (proc w)) data = [] ->
        let w' := snd (calculate_congestion pow_half clock loc w) in
        fst (calculate_congestion pow_half clock loc w) = 0
        /\ OrdDict.get loc (data_cache (proc w')) = Some []
        /\ congestion_cache (proc w') = congestion_cache (proc w)).
Proof.
  split.
  - intros Hdata Hmemo.
    unfold calculate_congestion, bind, cached_rate, bind, get_proc, ret.
    rewrite Hmemo. simpl.
    unfold recompute_congestion, bind, clean_expired_data, bind, get_proc, ret.
    rewrite Hdata. simpl. rewrite Hdata. destruct w; reflexivity.
  - intros data Hdata Hmemo Hlive.
    pose proof (cached_rate_proc clock loc w) as Hp.
    assert (Hcalc : calculate_congestion pow_half clock loc w
                    = recompute_congestion pow_half clock loc
                                           (snd (cached_rate clock loc w))).
    { unfold calculate_congestion, bind.
      destruct (cached_rate clock loc w) as [o w0]. simpl in Hmemo. now subst o. }
    cbv zeta. rewrite Hcalc.
    set (w0 := snd (cached_rate clock loc w)) in *.
    rewrite <- Hp in Hdata, Hlive. rewrite <- Hp.
    unfold recompute_congestion, bind, clean_expired_data, bind, get_proc, time_time,
      set_data_cache, ret.
    rewrite Hdata. simpl. rewrite ord_get_set_eq, Hlive. simpl.
    split; [reflexivity|]. split; [apply ord_get_set_eq | reflexivity].
Qed.

Lemma remove_dups_nonempty (l : list string) :
  l <> [] -> (1 <= length (remove_dups l))%nat.
Proof.
  induction l as [|x l IH]; [congruence|]. intros _. simpl.
  destruct (decide_rel elem_of x l) as [Hin|Hnot]; [|simpl; lia].
  apply IH. intros ->. now apply not_elem_of_nil in Hin.
Qed.

Lemma density_factor_lower (data : list AccelerometerData) :
  data <> [] -> 1 # 20 <= density_factor data.
Proof.
  intros Hne. unfold density_factor, users_of.
  assert (Hlen : (1 <= length (remove_dups (map user_id data)))%nat).
  { apply remove_dups_nonempty. destruct data; [congruence | discriminate]. }
  assert (Hq : 1 <= Qlen (remove_dups (map user_id data))).
  { unfold Qlen, Qle. simpl. lia. }
  assert (Hdiv : 1 # 20 <= Qlen (remove_dups (map user_id data)) / 20).
  { apply Qle_shift_div_l; [reflexivity|]. lra. }
  unfold py_min. destruct (Qltb _ 1); [exact Hdiv | lra].
Qed.

(** X8: a rate computed from at least one unexpired sample (no fresh
    memoized rate) is at least 1/100, because the density factor of a
    non-empty record is at least 1/20. Together with the zero returned
    when no sample is left, a computed rate is 0 exactly when the location
    has no unexpired sample. *)
Theorem computed_rate_positive_with_samples
        (pow_half : Q -> Q) (clock : nat -> Q) (loc : string) (w : World)
        (data : list AccelerometerData) :
  fst (cached_rate clock loc w) = None ->
  OrdDict.get loc (data_cache (proc w)) = Some data ->
  unexpired (clock (ticks (snd (cached_rate clock loc w))))
            (expiry_time (proc w)) data <> [] ->
  1 # 100 <= fst (calculate_congestion pow_half clock loc w).
Proof.
  intros Hmemo Hdata Hlive.
  rewrite (calculate_congestion_unmemoized pow_half clock loc w Hmemo), Hdata.
  destruct (unexpired _ _ data) as [|d live] eqn:E; [congruence|].
  unfold combined_rate.
  pose proof (speed_factor_range pow_half (proc w) (d :: live)).
  pose proof (variance_factor_range pow_half (d :: live)).
  assert (1 # 20 <= density_factor (d :: live)) by (now apply density_factor_lower).
  lra.
Qed.

Lemma computed_rate_positive_with_samples_witness :
  1 # 100 <= fst (calculate_congestion (fun v => v) (fun _ => 0) "L"
                    (snd (add_data_point (fun _ => 0) (mkAccel 0 0 2 0 "u" "L")
                                         (mkWorld (new_processor 300) 0)))).
Proof.
  apply (computed_rate_positive_with_samples
           (fun v => v) (fun _ => 0) "L"
           (snd (add_data_point (fun _ => 0) (mkAccel 0 0 2 0 "u" "L")
                                (mkWorld (new_processor 300) 0)))
           [mkAccel 0 0 2 0 "u" "L"]).
  - vm_compute. reflexivity.
  - vm_compute. reflexivity.
  - vm_compute. discriminate.
Defined.

(** In exact arithmetic a record of exactly one sample has the factors
    1, 0 and 1/20: one sample spans no time, so no walking speed is
    measured; there is no variance; and there is one user out of twenty. *)
Lemma single_sample_factors (pow_half : Q -> Q) (p : CongestionProcessor)
        (d : AccelerometerData) :
  speed_factor pow_half p [d] = 1
  /\ variance_factor pow_half [d] = 0
  /\ density_factor [d] == 1 # 20
  /\ combined_rate pow_half p [d] == 51 # 100.
Proof.
  assert (Hs : speed_factor pow_half p [d] = 1).
  { assert (Hf : filter (fun d0 : AccelerometerData => user_id d0 = user_id d) [d] = [d]).
    { now rewrite filter_cons_True by reflexivity. }
    assert (Hspan : Qltb 0 ((timestamp d - timestamp d) / 60) = false).
    { apply Qltb_ge.
      assert (Hz : (timestamp d - timestamp d) / 60 == 0) by (unfold Qdiv; ring).
      rewrite Hz. apply Qle_refl. }
    unfold speed_factor, users_of, user_speed. simpl. rewrite Hf. simpl.
    rewrite Hspan. reflexivity. }
  assert (Hv : variance_factor pow_half [d] = 0) by reflexivity.
  assert (Hd : density_factor [d] == 1 # 20) by reflexivity.
  split; [exact Hs|]. split; [exact Hv|]. split; [exact Hd|].
  unfold combined_rate. rewrite Hs, Hv, Hd. reflexivity.
Qed.

(** Every location with a record in [w] still has one in [w']. *)
Definition keeps_records (w w' : World) : Prop :=
  forall loc, is_Some (OrdDict.get loc (data_cache (proc w))) ->
              is_Some (OrdDict.get loc (data_cache (proc w'))).

Lemma ord_get_set_is_Some {V} (k k' : string) (v : V) (d : OrdDict.t V) :
  is_Some (OrdDict.get k d) -> is_Some (OrdDict.get k (OrdDict.set k' v d)).
Proof.
  intros H. destruct (String.eqb_spec k k') as [->|Hne].
  - rewrite ord_get_set_eq. eauto.
  - now rewrite ord_get_set_ne.
Qed.

Lemma keeps_records_trans (w1 w2 w3 : World) :
  keeps_records w1 w2 -> keeps_records w2 w3 -> keeps_records w1 w3.
Proof. intros H12 H23 loc H. apply H23, H12, H. Qed.

Lemma clean_expired_data_keeps (clock : nat -> Q) (loc : string) (w : World) :
  keeps_records w (snd (clean_expired_data clock loc w)).
Proof.
  intros l Hl. unfold clean_expired_data, bind, get_proc. simpl.
  destruct (OrdDict.get loc (data_cache (proc w))); simpl; [|exact Hl].
  now apply ord_get_set_is_Some.
Qed.

Lemma add_data_point_keeps (clock : nat -> Q) (d : AccelerometerData) (w : World) :
  keeps_records w (snd (add_data_point clock d w)).
Proof.
  intros l Hl. rewrite add_data_point_run. simpl.
  now apply ord_get_set_is_Some, ord_get_set_is_Some.
Qed.

Lemma calculate_congestion_keeps (pow_half : Q -> Q) (clock : nat -> Q)
      (loc : string) (w : World) :
  keeps_records w (snd (calculate_congestion pow_half clock loc w)).
Proof.
  pose proof (cached_rate_proc clock loc w) as Hp.
  unfold calculate_congestion, bind.
  destruct (cached_rate clock loc w) as [[r|] w0]; simpl in *.
  - intros l Hl. now rewrite Hp.
  - apply keeps_records_trans with w0; [intros l Hl; now rewrite Hp|].
    apply keeps_records_trans with (snd (clean_expired_data clock loc w0));
      [apply clean_expired_data_keeps|].
    unfold recompute_congestion, bind at 1.
    destruct (clean_expired_data clock loc w0) as [u w2]. simpl.
    unfold bind, get_proc.
    destruct (OrdDict.get loc (data_cache (proc w2))) as [[|d l]|]; intros l' Hl'; exact Hl'.
Qed.

Lemma all_rates_loop_keeps (pow_half : Q -> Q) (clock : nat -> Q)
      (locs : list string) (res : OrdDict.t Q) (w : World) :
  keeps_records w (snd (all_rates_loop pow_half clock locs res w)).
Proof.
  revert res w. induction locs as [|loc locs IH]; intros res w; [intros l Hl; exact Hl|].
  cbn [all_rates_loop]. unfold bind at 1.
  pose proof (clean_expired_data_keeps clock loc w) as Hc.
  destruct (clean_expired_data clock loc w) as [u w1]. simpl in Hc.
  unfold bind at 1, get_proc.
  destruct (OrdDict.get loc (data_cache (proc w1))) as [[|d l]|];
    try (eapply keeps_records_trans; [exact Hc | apply IH]).
  unfold bind.
  pose proof (calculate_congestion_keeps pow_half clock loc w1) as Hk.
  destruct (calculate_congestion pow_half clock loc w1) as [r w2]. simpl in Hk.
  eapply keeps_records_trans; [exact Hc|].
  eapply keeps_records_trans; [exact Hk | apply IH].
Qed.

Lemma ingest_batch_keeps (clock : nat -> Q) (batch : list RawSample) (w : World) :
  keeps_records w (snd (ingest_batch clock batch w)).
Proof.
  revert w. induction batch as [|raw batch IH]; intros w; [intros l Hl; exact Hl|].
  cbn [ingest_batch]. destruct (parse_sample raw) as [d|key| |]; try (intros l Hl; exact Hl).
  unfold bind.
  pose proof (add_data_point_keeps clock d w) as Hd.
  destruct (add_data_point clock d w) as [u w1]. simpl in Hd.
  eapply keeps_records_trans; [exact Hd | apply IH].
Qed.

(** X10: no method of the processor ever deletes a record: a location that
    has a record (possibly an empty one) before a call of
    [add_data_point], [calculate_congestion], [get_all_congestion_rates],
    [get_congestion_between_nodes] or [process_accelerometer_batch] (failed
    or not) still has one after it. *)
Theorem records_are_never_deleted
        (pow_half : Q -> Q) (clock : nat -> Q) (w : World) (op : processor_op)
        (loc : string) :
  is_Some (OrdDict.get loc (data_cache (proc w))) ->
  is_Some (OrdDict.get loc (data_cache (proc (run_processor_op pow_half clock w op)))).
Proof.
  revert loc. change (keeps_records w (run_processor_op pow_half clock w op)).
  destruct op as [d|l| |a b|batch]; simpl.
  - apply add_data_point_keeps.
  - apply calculate_congestion_keeps.
  - unfold get_all_congestion_rates, bind, get_proc. apply all_rates_loop_keeps.
  - unfold get_congestion_between_nodes. apply calculate_congestion_keeps.
  - unfold process_accelerometer_batch, bind at 1.
    pose proof (ingest_batch_keeps clock batch w) as Hi.
    destruct (ingest_batch clock batch w) as [[u|key| |] w1]; simpl in Hi; try exact Hi.
    unfold bind at 1.
    pose proof (all_rates_loop_keeps pow_half clock
                  (OrdDict.keys (data_cache (proc w1))) [] w1) as Ha.
    unfold get_all_congestion_rates, bind, get_proc.
    destruct (all_rates_loop _ _ _ _ w1) as [rates w2]. simpl in Ha.
    eapply keeps_records_trans; [exact Hi | exact Ha].
Qed.

Lemma records_are_never_deleted_witness :
  let w := snd (add_data_point (fun _ => 1000) (mkAccel 0 0 2 0 "u" "L")
                               (mkWorld (new_processor 300) 0)) in
  is_Some (OrdDict.get "L"
             (data_cache (proc (run_processor_op (fun v => v) (fun _ => 1000) w
                                                 (OpCalculate "L"))))).
Proof.
  apply (records_are_never_deleted
           (fun v => v) (fun _ => 1000)
           (snd (add_data_point (fun _ => 1000) (mkAccel 0 0 2 0 "u" "L")
                                (mkWorld (new_processor 300) 0)))
           (OpCalculate "L") "L").
  vm_compute. eauto.
Defined.

Lemma ord_set_in_inv {V} (k k' : string) (v v' : V) (d : OrdDict.t V) :
  In (k, v) (OrdDict.set k' v' d) -> (k = k' /\ v = v') \/ In (k, v) d.
Proof.
  induction d as [|[k0 v0] d IH]; simpl.
  - intros [[= -> ->]|[]]. now left.
  - destruct (String.eqb_spec k0 k') as [->|Hne]; simpl.
    + intros [[= -> ->]|H]; [now left | right; now right].
    + intros [H|H]; [right; now left|].
      destruct (IH H) as [H'|H']; [now left | right; now right].
Qed.

Lemma all_rates_loop_entries (pow_half : Q -> Q) (clock : nat -> Q)
      (locs : list string) (res : OrdDict.t Q) (w : World) (loc : string) (r : Q) :
  memo_computed pow_half w ->
  In (loc, r) (fst (all_rates_loop pow_half clock locs res w)) ->
  In (loc, r) res \/ (In loc locs /\ 0 <= r <= 1).
Proof.
  revert res w. induction locs as [|l locs IH]; intros res w Hw Hin; [now left|].
  cbn [all_rates_loop] in Hin. unfold bind at 1 in Hin.
  pose proof (clean_expired_data_range pow_half clock l w Hw) as Hc.
  destruct (clean_expired_data clock l w) as [u w1]. simpl in Hc.
  unfold bind at 1, get_proc in Hin.
  assert (Hskip : In (loc, r) (fst (all_rates_loop pow_half clock locs res w1)) ->
                  In (loc, r) res \/ (In loc (l :: locs) /\ 0 <= r <= 1)).
  { intros H. destruct (IH res w1 Hc H) as [H'|[H1 H2]]; [now left|].
    right. split; [now right | exact H2]. }
  destruct (OrdDict.get l (data_cache (proc w1))) as [[|d ds]|]; try (now apply Hskip).
  unfold bind in Hin.
  pose proof (calculate_congestion_range pow_half clock l w1 Hc) as [Hr Hw2].
  destruct (calculate_congestion pow_half clock l w1) as [r0 w2]. simpl in Hr, Hw2.
  destruct (IH _ w2 Hw2 Hin) as [H'|[H1 H2]].
  - apply ord_set_in_inv in H' as [[-> ->]|H']; [|now left].
    right. split; [now left | exact Hr].
  - right. split; [now right | exact H2].
Qed.

(** X11: in every state reached from a new processor by its methods, the
    dictionary returned by [get_all_congestion_rates] only has locations
    that have a record, and every rate in it lies in [0, 1]. *)
Theorem all_congestion_rates_entries
        (pow_half : Q -> Q) (clock : nat -> Q) (expiry : Z)
        (ops : list processor_op) (loc : string) (r : Q) :
  let w := run_processor pow_half clock expiry ops in
  In (loc, r) (fst (get_all_congestion_rates pow_half clock w)) ->
  In loc (OrdDict.keys (data_cache (proc w))) /\ 0 <= r <= 1.
Proof.
  intros w Hin.
  pose proof (run_processor_range pow_half clock expiry ops) as Hw. fold w in Hw.
  unfold get_all_congestion_rates, bind, get_proc in Hin.
  destruct (all_rates_loop_entries pow_half clock _ [] w loc r Hw Hin) as [[]|H].
  exact H.
Qed.

Lemma all_congestion_rates_entries_witness :
  let w := run_processor (fun v => v) (fun _ => 0) 300
                         [OpAddDataPoint (mkAccel 0 0 2 0 "u" "L")] in
  In "L"%string (OrdDict.keys (data_cache (proc w))) /\ 0 <= 10200 # 20000 <= 1.
Proof.
  apply (all_congestion_rates_entries
           (fun v => v) (fun _ => 0) 300
           [OpAddDataPoint (mkAccel 0 0 2 0 "u" "L")] "L" (10200 # 20000)).
  vm_compute. left. reflexivity.
Defined.

Lemma ingest_batch_ok (clock : nat -> Q) (batch : list RawSample)
      (samples : list AccelerometerData) (w : World) :
  Forall2 (fun r d => parse_sample r = Ok d) batch samples ->
  ingest_batch clock batch w = (Ok tt, ingest_all clock samples w).
Proof.
  intros Hall. revert w.
  induction Hall as [|r d batch samples Hr Hall IH]; intros w; [reflexivity|].
  cbn [ingest_batch]. rewrite Hr. unfold bind at 1.
  destruct (add_data_point clock d w) as [u w1] eqn:E.
  rewrite IH. unfold ingest_all. cbn [foldl]. now rewrite E.
Qed.

(** The position of a label in the scale from free to jammed. *)
Definition label_rank (label : string) : nat :=
  if String.eqb label "通畅" then 0
  else if String.eqb label "轻微拥堵" then 1
  else if String.eqb label "中度拥堵" then 2
  else if String.eqb label "拥堵" then 3
  else 4.

(** X13: [classify_congestion] is monotone: a higher rate never gets a
    label lower on the scale free, slightly congested, moderately
    congested, congested, severely congested; rates below 0.2 (negative
    ones included) are free and rates from 0.8 on (however large) are
    severely congested. *)
Theorem classify_congestion_monotone (r1 r2 : Q) :
  (r1 <= r2 -> (label_rank (classify_congestion r1) <= label_rank (classify_congestion r2))%nat)
  /\ (r1 < 2 # 10 -> label_rank (classify_congestion r1) = 0%nat)
  /\ (8 # 10 <= r1 -> label_rank (classify_congestion r1) = 4%nat).
Proof.
  unfold classify_congestion.
  destruct (Qltb r1 (2 # 10)) eqn:A1; destruct (Qltb r1 (4 # 10)) eqn:A2;
    destruct (Qltb r1 (6 # 10)) eqn:A3; destruct (Qltb r1 (8 # 10)) eqn:A4;
    destruct (Qltb r2 (2 # 10)) eqn:B1; destruct (Qltb r2 (4 # 10)) eqn:B2;
    destruct (Qltb r2 (6 # 10)) eqn:B3; destruct (Qltb r2 (8 # 10)) eqn:B4;
    rewrite ?Qltb_lt, ?Qltb_ge in *;
    (split; [intros Hle | split; intros Hb]);
    try (vm_compute; lia); try reflexivity; exfalso; lra.
Qed.

(** * Further properties of the projector *)

(** The point that [register_node] stores for a node. *)
Definition model_point (m : ModelPathMatcher) (node : Node) : Point3D :=
  mkPoint (node_x node * model_scale m)
          (inject_Z (node_floor node) * floor_height m)
          (node_y node * model_scale m).

Lemma register_from_graph_lookup
      (m : ModelPathMatcher) (graph_nodes : gmap string Node) (nid : string) :
  model_scale (register_nodes_from_graph m graph_nodes) = model_scale m
  /\ floor_height (register_nodes_from_graph m graph_nodes) = floor_height m
  /\ node_positions (register_nodes_from_graph m graph_nodes) !! nid
     = match graph_nodes !! nid with
       | Some node => Some (model_point m node)
       | None => node_positions m !! nid
       end.
Proof.
  unfold register_nodes_from_graph. revert nid.
  apply (map_fold_weak_ind
           (fun (acc : ModelPathMatcher) (mp : gmap string Node) =>
              forall nid,
                model_scale acc = model_scale m
                /\ floor_height acc = floor_height m
                /\ node_positions acc !! nid
                   = match mp !! nid with
                     | Some node => Some (model_point m node)
                     | None => node_positions m !! nid
                     end)).
  - intros nid. now rewrite lookup_empty.
  - intros k node mp acc Hk IH nid.
    destruct (IH nid) as (Hs & Hh & Hp). simpl.
    split; [exact Hs|]. split; [exact Hh|].
    destruct (decide (k = nid)) as [->|Hne].
    + rewrite !lookup_insert_eq. unfold model_point. now rewrite Hs, Hh.
    + rewrite !lookup_insert_ne by exact Hne. exact Hp.
Qed.


Lemma interpolated_length (p q : Point3D) (pps : Z) :
  length (interpolated p q pps) = Z.to_nat (pps - 1).
Proof. unfold interpolated. now rewrite length_map, length_seqZ. Qed.

Lemma smooth_segments_length (m : ModelPathMatcher) (a : string) (path : list string)
      (pps : Z) :
  (1 <= pps)%Z ->
  Forall (fun nid => is_Some (node_positions m !! nid)) (a :: path) ->
  length (smooth_segments m (a :: path) pps) = (length path * Z.to_nat pps)%nat.
Proof.
  intros Hpps. revert a. induction path as [|b rest IH]; intros a Hall; [reflexivity|].
  apply Forall_cons in Hall as [[pa Ha] Hall].
  pose proof Hall as Hall'. apply Forall_cons in Hall' as [[pb Hb] _].
  change (smooth_segments m (a :: b :: rest) pps)
    with (match node_positions m !! a, node_positions m !! b with
          | Some start_pos, Some end_pos => start_pos :: interpolated start_pos end_pos pps
          | _, _ => []
          end ++ smooth_segments m (b :: rest) pps).
  rewrite Ha, Hb, length_app, (IH b Hall). simpl. rewrite interpolated_length. lia.
Qed.

Lemma smooth_length_registered (m : ModelPathMatcher) (path : list string) (pps : Z) :
  (1 <= pps)%Z ->
  (2 <= length path)%nat ->
  Forall (fun nid => is_Some (node_positions m !! nid)) path ->
  length (generate_smooth_path m path pps)
  = ((length path - 1) * Z.to_nat pps + 1)%nat.
Proof.
  intros Hpps Hlen Hall. unfold generate_smooth_path.
  destruct path as [|a [|b rest]]; simpl in Hlen; try lia.
  change (length (a :: b :: rest) <? 2)%nat with false. cbv iota.
  rewrite length_app, (smooth_segments_length m a (b :: rest) pps Hpps Hall).
  assert (Hlast : exists z, last (a :: b :: rest) = Some z /\ z ∈ a :: b :: rest).
  { destruct (last (a :: b :: rest)) as [z|] eqn:E.
    - exists z. split; [reflexivity|]. apply last_Some in E as [l' ->].
      apply elem_of_app. right. now left.
    - apply last_None in E. discriminate. }
  destruct Hlast as (z & -> & Hz).
  rewrite Forall_forall in Hall. destruct (Hall z Hz) as [pz ->].
  simpl. lia.
Qed.

(** X15: for a path of at least two node ids, all of them registered, and
    at least one point per segment, [generate_smooth_path] returns
    [(len(path) - 1) * points_per_segment + 1] points. *)
Theorem smooth_path_length (m : ModelPathMatcher) (path : list string) (pps : Z) :
  (1 <= pps)%Z ->
  (2 <= length path)%nat ->
  Forall (fun nid => is_Some (node_positions m !! nid)) path ->
  length (generate_smooth_path m path pps)
  = ((length path - 1) * Z.to_nat pps + 1)%nat.
Proof. apply smooth_length_registered. Qed.

Lemma smooth_path_length_witness :
  let m := register_node (register_node (new_matcher 1 4) "A" 0 0 0) "B" 3 0 1 in
  length (generate_smooth_path m ["A"%string; "B"%string; "A"%string] 5) = 11%nat.
Proof.
  apply (smooth_path_length
           (register_node (register_node (new_matcher 1 4) "A" 0 0 0) "B" 3 0 1)
           ["A"%string; "B"%string; "A"%string] 5).
  - lia.
  - simpl. lia.
  - repeat constructor; vm_compute; eauto.
Defined.

(** X16: with [points_per_segment] at most 1 (zero and negative numbers
    included) no interpolated point is produced and nothing is divided by
    [points_per_segment]: the result is the one for [points_per_segment =
    1]. *)
Theorem smooth_path_without_interpolation
        (m : ModelPathMatcher) (path : list string) (pps : Z) :
  (pps <= 1)%Z ->
  generate_smooth_path m path pps = generate_smooth_path m path 1.
Proof.
  intros Hpps.
  assert (Hi : forall p q, interpolated p q pps = []).
  { intros p q. unfold interpolated. rewrite seqZ_nil by lia. reflexivity. }
  assert (Hs : smooth_segments m path pps = smooth_segments m path 1).
  { induction path as [|a [|b rest] IH]; try reflexivity.
    change (smooth_segments m (a :: b :: rest) pps)
      with (match node_positions m !! a, node_positions m !! b with
            | Some start_pos, Some end_pos => start_pos :: interpolated start_pos end_pos pps
            | _, _ => []
            end ++ smooth_segments m (b :: rest) pps).
    change (smooth_segments m (a :: b :: rest) 1)
      with (match node_positions m !! a, node_positions m !! b with
            | Some start_pos, Some end_pos => start_pos :: interpolated start_pos end_pos 1
            | _, _ => []
            end ++ smooth_segments m (b :: rest) 1).
    rewrite IH. destruct (node_positions m !! a), (node_positions m !! b); try reflexivity.
    now rewrite Hi, interpolated_one. }
  unfold generate_smooth_path. now rewrite Hs.
Qed.

Lemma smooth_path_without_interpolation_witness :
  let m := register_node (register_node (new_matcher 1 4) "A" 0 0 0) "B" 3 0 1 in
  generate_smooth_path m ["A"%string; "B"%string] 0
  = generate_smooth_path m ["A"%string; "B"%string] 1.
Proof.
  apply (smooth_path_without_interpolation
           (register_node (register_node (new_matcher 1 4) "A" 0 0 0) "B" 3 0 1)
           ["A"%string; "B"%string] 0).
  lia.
Defined.




Lemma segments_loop_in (m : ModelPathMatcher) (path : list string) (seg : Segment) :
  In seg (segments_loop m path) ->
  exists pa pb,
    node_positions m !! start_node_id seg = Some pa
    /\ node_positions m !! end_node_id seg = Some pb
    /\ seg_start seg = pa /\ seg_end seg = pb
    /\ is_floor_change seg = Qltb (1 # 10) (Qabs (py pa - py pb))
    /\ exists i, path !! i = Some (start_node_id seg)
                 /\ path !! S i = Some (end_node_id seg).
Proof.
  induction path as [|a [|b rest] IH]; try (intros []).
  change (segments_loop m (a :: b :: rest))
    with (match node_positions m !! a, node_positions m !! b with
          | Some start_pos, Some end_pos =>
              [mkSegment start_pos end_pos
                         (Qltb (1 # 10) (Qabs (py start_pos - py end_pos))) a b]
          | _, _ => []
          end ++ segments_loop m (b :: rest)).
  intros Hin. apply in_app_iff in Hin as [Hin|Hin].
  - destruct (node_positions m !! a) as [pa|] eqn:Ea; [|destruct Hin].
    destruct (node_positions m !! b) as [pb|] eqn:Eb; [|destruct Hin].
    destruct Hin as [<-|[]]. simpl. exists pa, pb.
    repeat (split; [first [assumption | reflexivity]|]). exists O. split; reflexivity.
  - destruct (IH Hin) as (pa & pb & H1 & H2 & H3 & H4 & H5 & i & Hi & Hi').
    exists pa, pb. repeat (split; [assumption|]). exists (S i). split; assumption.
Qed.

Lemma segments_loop_lookup (m : ModelPathMatcher) (path : list string)
      (i : nat) (a b : string) :
  Forall (fun nid => is_Some (node_positions m !! nid)) path ->
  path !! i = Some a -> path !! S i = Some b ->
  exists pa pb,
    node_positions m !! a = Some pa /\ node_positions m !! b = Some pb
    /\ segments_loop m path !! i
       = Some (mkSegment pa pb (Qltb (1 # 10) (Qabs (py pa - py pb))) a b).
Proof.
  revert i. induction path as [|x [|y rest] IH]; intros i Hall Hi Hi'.
  { discriminate Hi. }
  { destruct i; simpl in Hi'; discriminate Hi'. }
  apply Forall_cons in Hall as [[px0 Hx] Hall].
  pose proof Hall as Hall'. apply Forall_cons in Hall' as [[py0 Hy] _].
  change (segments_loop m (x :: y :: rest))
    with (match node_positions m !! x, node_positions m !! y with
          | Some start_pos, Some end_pos =>
              [mkSegment start_pos end_pos
                         (Qltb (1 # 10) (Qabs (py start_pos - py end_pos))) x y]
          | _, _ => []
          end ++ segments_loop m (y :: rest)).
  rewrite Hx, Hy. destruct i as [|i].
  - simpl in Hi, Hi'. injection Hi as <-. injection Hi' as <-.
    exists px0, py0. repeat split; assumption.
  - simpl in Hi, Hi'. destruct (IH i Hall Hi Hi') as (pa & pb & Ha & Hb & Hseg).
    exists pa, pb. repeat (split; [assumption|]). exact Hseg.
Qed.

Lemma segments_loop_length (m : ModelPathMatcher) (path : list string) :
  Forall (fun nid => is_Some (node_positions m !! nid)) path ->
  length (segments_loop m path) = (length path - 1)%nat.
Proof.
  induction path as [|x [|y rest] IH]; intros Hall; try reflexivity.
  apply Forall_cons in Hall as [[px0 Hx] Hall].
  pose proof Hall as Hall'. apply Forall_cons in Hall' as [[py0 Hy] _].
  change (segments_loop m (x :: y :: rest))
    with (match node_positions m !! x, node_positions m !! y with
          | Some start_pos, Some end_pos =>
              [mkSegment start_pos end_pos
                         (Qltb (1 # 10) (Qabs (py start_pos - py end_pos))) x y]
          | _, _ => []
          end ++ segments_loop m (y :: rest)).
  rewrite Hx, Hy, length_app, (IH Hall). simpl. lia.
Qed.

(** X18: for a path all of whose node ids are registered,
    [generate_path_segments] returns one segment per consecutive pair, in
    order: [len(path) - 1] segments (none for a path of fewer than two
    ids), the i-th one going from the point of [path[i]] to the point of
    [path[i+1]], carrying both ids, and flagged as a floor change exactly
    when the vertical coordinates of the two points differ by more than
    0.1. *)
Theorem path_segments_of_registered_path
        (m : ModelPathMatcher) (path : list string) :
  Forall (fun nid => is_Some (node_positions m !! nid)) path ->
  length (generate_path_segments m path) = (length path - 1)%nat
  /\ forall i a b,
       path !! i = Some a -> path !! S i = Some b ->
       exists pa pb,
         get_node_position m a = Some pa /\ get_node_position m b = Some pb
         /\ generate_path_segments m path !! i
            = Some (mkSegment pa pb (Qltb (1 # 10) (Qabs (py pa - py pb))) a b).
Proof.
  intros Hall. unfold generate_path_segments, get_node_position.
  destruct path as [|x [|y rest]].
  - split; [reflexivity|]. intros i a b Hi. discriminate Hi.
  - split; [reflexivity|]. intros i a b Hi Hi'. destruct i; simpl in Hi'; discriminate Hi'.
  - change (length (x :: y :: rest) <? 2)%nat with false. cbv iota.
    split; [now apply segments_loop_length|].
    intros i a b Hi Hi'. now apply segments_loop_lookup.
Qed.

Lemma path_segments_of_registered_path_witness :
  let m := register_node (register_node (new_matcher 1 4) "A" 0 0 0) "B" 3 0 1 in
  length (generate_path_segments m ["A"%string; "B"%string]) = 1%nat.
Proof.
  apply (path_segments_of_registered_path
           (register_node (register_node (new_matcher 1 4) "A" 0 0 0) "B" 3 0 1)
           ["A"%string; "B"%string]).
  repeat constructor; vm_compute; eauto.
Defined.

(** X19: when the points come from [register_nodes_from_graph], a segment
    returned by [generate_path_segments] between two nodes of the same
    floor is never flagged as a floor change, whatever the floor height
    is. *)
Theorem same_floor_segment_is_not_floor_change
        (m : ModelPathMatcher) (graph_nodes : gmap string Node)
        (path : list string) (seg : Segment) (na nb : Node) :
  In seg (generate_path_segments (register_nodes_from_graph m graph_nodes) path) ->
  graph_nodes !! start_node_id seg = Some na ->
  graph_nodes !! end_node_id seg = Some nb ->
  node_floor na = node_floor nb ->
  is_floor_change seg = false.
Proof.
  intros Hin Ha Hb Hfloor. unfold generate_path_segments in Hin.
  destruct (length path <? 2)%nat; [destruct Hin|].
  apply segments_loop_in in Hin as (pa & pb & Hpa & Hpb & _ & _ & Hflag & _).
  destruct (register_from_graph_lookup m graph_nodes (start_node_id seg)) as (_ & _ & Hla).
  destruct (register_from_graph_lookup m graph_nodes (end_node_id seg)) as (_ & _ & Hlb).
  rewrite Ha in Hla. rewrite Hb in Hlb.
  rewrite Hla in Hpa. rewrite Hlb in Hpb.
  injection Hpa as <-. injection Hpb as <-.
  rewrite Hflag. unfold model_point. cbn [py]. rewrite Hfloor. apply Qltb_ge.
  set (y := inject_Z (node_floor nb) * floor_height m).
  apply Qabs_Qle_condition. split; lra.
Qed.

Lemma same_floor_segment_is_not_floor_change_witness :
  is_floor_change
    (mkSegment (mkPoint (0 * 1) (inject_Z 0 * 4) (0 * 1))
               (mkPoint (1 * 1) (inject_Z 0 * 4) (0 * 1))
               false "A" "B") = false.
Proof.
  apply (same_floor_segment_is_not_floor_change
           (new_matcher 1 4) (nodes two_rooms) ["A"%string; "B"%string]
           (mkSegment (mkPoint (0 * 1) (inject_Z 0 * 4) (0 * 1))
                      (mkPoint (1 * 1) (inject_Z 0 * 4) (0 * 1))
                      false "A" "B")
           (mkNode "A" 0 0 0 [("B"%string, 1)]) (mkNode "B" 1 0 0 [("A"%string, 1)])).
  - vm_compute. left. reflexivity.
  - vm_compute. reflexivity.
  - vm_compute. reflexivity.
  - reflexivity.
Defined.

(** * Further properties of the path finder *)

(** Consecutive elements of a list are related by [R]. *)
Inductive walk {A} (R : A -> A -> Prop) : list A -> Prop :=
| walk_nil : walk R []
| walk_one a : walk R [a]
| walk_cons a b l : R a b -> walk R (b :: l) -> walk R (a :: b :: l).

Lemma walk_snoc {A} (R : A -> A -> Prop) (l : list A) (a b : A) :
  walk R (l ++ [a]) -> R a b -> walk R (l ++ [a; b]).
Proof.
  induction l as [|x [|y l] IH]; simpl; intros Hw Hab.
  - constructor; [exact Hab | constructor].
  - inversion Hw; subst. constructor; [assumption|]. constructor; [exact Hab | constructor].
  - inversion Hw; subst. constructor; [assumption|]. now apply IH.
Qed.

(** [tl] is what following the predecessor links from [cur] visits. *)
Fixpoint links (cf : gmap string string) (cur : string) (tl : list string) : Prop :=
  match tl with
  | [] => cf !! cur = None
  | x :: tl' => cf !! cur = Some x /\ links cf x tl'
  end.

Lemma reconstruct_loop_links (cf : gmap string string) (fuel : nat)
      (cur : string) (path res : list string) :
  reconstruct_loop fuel cf cur path = Ok res ->
  exists tl, res = path ++ tl /\ links cf cur tl.
Proof.
  revert cur path. induction fuel as [|fuel IH]; intros cur path Hrun; [discriminate|].
  cbn [reconstruct_loop] in Hrun. destruct (cf !! cur) as [prev|] eqn:E.
  - destruct (IH prev (path ++ [prev]) Hrun) as (tl & -> & Htl).
    exists (prev :: tl). rewrite <- app_assoc. split; [reflexivity|].
    simpl. auto.
  - injection Hrun as <-. exists []. rewrite app_nil_r. auto.
Qed.

Lemma links_walk (cf : gmap string string) (R : string -> string -> Prop)
      (cur : string) (tl : list string) :
  (forall x y, cf !! x = Some y -> R y x) ->
  links cf cur tl -> walk R (rev (cur :: tl)).
Proof.
  intros HR. revert cur. induction tl as [|x tl IH]; intros cur Hl; [constructor|].
  destruct Hl as [Hx Hl]. specialize (IH x Hl).
  change (rev (cur :: x :: tl)) with ((rev tl ++ [x]) ++ [cur]).
  rewrite <- app_assoc. simpl in IH |- *. apply walk_snoc; [exact IH | now apply HR].
Qed.

Lemma links_values (cf : gmap string string) (cur : string) (tl : list string) (x : string) :
  links cf cur tl -> In x tl -> exists n, cf !! n = Some x.
Proof.
  revert cur. induction tl as [|y tl IH]; intros cur Hl Hin; [destruct Hin|].
  destruct Hl as [Hy Hl]. destruct Hin as [->|Hin]; [eauto | eapply IH; eauto].
Qed.

Section RouteFacts.

Variable pow_half : Q -> Q.
Variable g : BuildingGraph.
Variable start_id end_id : string.
Variable cong : gmap (string * string) Q.

Hypothesis graph_closed : graph_closedb g = true.
Hypothesis start_present : is_Some (nodes g !! start_id).
Hypothesis end_present : is_Some (nodes g !! end_id).

(** The state in which the goal was popped, behind a non-empty result. *)
Lemma find_path_reached (fuel : nat) (congo : option (gmap (string * string) Q))
      (path : list string) :
  default ∅ congo = cong ->
  (enough_fuel g <= fuel)%nat ->
  find_path pow_half g fuel start_id end_id congo = Ok path ->
  path <> [] ->
  exists s rk B,
    search_inv g start_id s rk B
    /\ is_Some (g_score s !! end_id)
    /\ reconstruct_path fuel (came_from s) end_id = Ok path.
Proof.
  intros Hcong Hfuel Hrun Hne. unfold enough_fuel in Hfuel.
  destruct (heuristic_ok pow_half g start_id end_id start_present end_present) as [h0 Hh0].
  pose proof (initial_search_measure g start_id cong h0) as Hm0.
  destruct (search_loop_ends pow_half g start_id end_id cong graph_closed end_present
              fuel (initial_search start_id h0) (fun _ => O) O
              (initial_search_inv g start_id start_present h0))
    as (e & He & Hok); [lia | lia |].
  unfold find_path in Hrun.
  rewrite (bool_decide_eq_true_2 _ start_present),
    (bool_decide_eq_true_2 _ end_present) in Hrun.
  simpl in Hrun. rewrite Hcong, Hh0 in Hrun. simpl in Hrun. rewrite He in Hrun.
  simpl in Hrun. destruct e as [s cur|s]; simpl in Hok.
  - destruct Hok as (-> & Hg & rk & B & Hinv & _). exists s, rk, B. auto.
  - injection Hrun as <-. congruence.
Qed.

Lemma route_is_walk (fuel : nat) (congo : option (gmap (string * string) Q))
      (path : list string) :
  default ∅ congo = cong ->
  (enough_fuel g <= fuel)%nat ->
  find_path pow_half g fuel start_id end_id congo = Ok path ->
  walk (edge_rel g) path /\ Forall (fun a => is_Some (nodes g !! a)) path.
Proof.
  intros Hcong Hfuel Hrun.
  destruct path as [|a0 path0] eqn:Epath; [split; constructor|].
  rewrite <- Epath in *.
  destruct (find_path_reached fuel congo path Hcong Hfuel Hrun)
    as (s & rk & B & Hinv & Hg & Hrec); [rewrite Epath; discriminate|].
  unfold reconstruct_path in Hrec.
  destruct (reconstruct_loop fuel (came_from s) end_id [end_id]) as [res| | |] eqn:Eloop;
    simpl in Hrec; try discriminate.
  injection Hrec as <-.
  apply reconstruct_loop_links in Eloop as (tl & -> & Hlinks). simpl.
  split.
  - apply (links_walk (came_from s)); [|exact Hlinks].
    intros x y Hxy. apply (inv_from _ _ _ _ _ Hinv x y Hxy).
  - apply Forall_forall. intros a Ha.
    change (rev tl ++ [end_id]) with (rev (end_id :: tl)) in Ha.
    apply list_elem_of_In, in_rev in Ha. destruct Ha as [<-|Ha]; [exact end_present|].
    destruct (links_values _ _ _ a Hlinks Ha) as [n Hn].
    destruct (inv_from _ _ _ _ _ Hinv n a Hn) as (Hc & _).
    apply (inv_score _ _ _ _ _ Hinv), (inv_closed _ _ _ _ _ Hinv), Hc.
Qed.

End RouteFacts.

Lemma find_path_route_facts
        (pow_half : Q -> Q) (g : BuildingGraph) (start_id end_id : string)
        (congo : option (gmap (string * string) Q)) (fuel : nat) (path : list string) :
  graph_closedb g = true ->
  (enough_fuel g <= fuel)%nat ->
  find_path pow_half g fuel start_id end_id congo = Ok path ->
  walk (edge_rel g) path /\ Forall (fun a => is_Some (nodes g !! a)) path.
Proof.
  intros Hclosed Hfuel Hrun.
  destruct (nodes g !! start_id) as [ns|] eqn:Es; cycle 1.
  { rewrite find_path_absent in Hrun by now left. injection Hrun as <-. split; constructor. }
  destruct (nodes g !! end_id) as [ne|] eqn:Ee; cycle 1.
  { rewrite find_path_absent in Hrun by now right. injection Hrun as <-. split; constructor. }
  assert (Hs : is_Some (nodes g !! start_id)) by (rewrite Es; eauto).
  assert (He : is_Some (nodes g !! end_id)) by (rewrite Ee; eauto).
  exact (route_is_walk pow_half g start_id end_id (default ∅ congo)
           Hclosed Hs He fuel congo path eq_refl Hfuel Hrun).
Qed.

(** X20: in a graph whose neighbor ids are all nodes, the path returned by
    [find_path] is a route of the graph: every id on it is a node, and
    every id but the last has the next one in its neighbor map. *)
Theorem find_path_returns_a_route
        (pow_half : Q -> Q) (g : BuildingGraph) (start_id end_id : string)
        (congo : option (gmap (string * string) Q)) (fuel : nat) (path : list string) :
  graph_closedb g = true ->
  (enough_fuel g <= fuel)%nat ->
  find_path pow_half g fuel start_id end_id congo = Ok path ->
  walk (edge_rel g) path /\ Forall (fun a => is_Some (nodes g !! a)) path.
Proof. apply find_path_route_facts. Qed.

Lemma find_path_returns_a_route_witness :
  walk (edge_rel two_rooms) ["A"%string; "B"%string]
  /\ Forall (fun a => is_Some (nodes two_rooms !! a)) ["A"%string; "B"%string].
Proof.
  apply (find_path_returns_a_route (fun v => v) two_rooms "A" "B" None 5).
  - vm_compute. reflexivity.
  - vm_compute. lia.
  - vm_compute. reflexivity.
Defined.

(** ** A reachable goal is found *)

(** [s'] extends [s]: same closed set, more scores, more frontier entries,
    and every new score has an entry in the frontier. *)
Definition grows (s s' : search) : Prop :=
  closed_set s' = closed_set s
  /\ (forall n, is_Some (g_score s !! n) -> is_Some (g_score s' !! n))
  /\ (forall e, In e (open_set s) -> In e (open_set s'))
  /\ (forall n, is_Some (g_score s' !! n) ->
                is_Some (g_score s !! n) \/ exists f, In (f, n) (open_set s')).

Lemma grows_refl (s : search) : grows s s.
Proof. repeat split; auto. Qed.

Lemma grows_trans (s1 s2 s3 : search) : grows s1 s2 -> grows s2 s3 -> grows s1 s3.
Proof.
  intros (Hc1 & Hg1 & Ho1 & Hn1) (Hc2 & Hg2 & Ho2 & Hn2).
  split; [congruence|]. split; [auto|]. split; [auto|].
  intros n Hn. destruct (Hn2 n Hn) as [H|H]; [|now right].
  destruct (Hn1 n H) as [H'|[f H']]; [now left | right; eauto].
Qed.

Lemma relax_grows (pow_half : Q -> Q) (g : BuildingGraph) (end_id : string)
      (cong : gmap (string * string) Q) (cur nb : string) (d : Q) (s s' : search) :
  relax pow_half g end_id cong cur s (nb, d) = Ok s' ->
  grows s s' /\ (nb ∈ closed_set s \/ is_Some (g_score s' !! nb)).
Proof.
  unfold relax. destruct (bool_decide (nb ∈ closed_set s)) eqn:Ecl.
  - intros [= <-]. apply bool_decide_eq_true_1 in Ecl. split; [apply grows_refl | now left].
  - unfold subscript.
    destruct (g_score s !! cur) as [gc|] eqn:Egc; simpl; [|discriminate].
    assert (Himp : forall h,
              grows s (improved cur nb gc (edge_cost cong cur nb d) h s)
              /\ (nb ∈ closed_set s
                  \/ is_Some (g_score (improved cur nb gc (edge_cost cong cur nb d) h s)
                              !! nb))).
    { intros h. split.
      - split; [reflexivity|]. split; [intros n Hn; now apply is_Some_insert|].
        split; [intros e He; unfold improved, heappush; simpl; apply in_app_iff; now left|].
        intros n Hn. simpl in Hn. destruct (decide (nb = n)) as [<-|Hne].
        + right. eexists. unfold heappush. apply in_app_iff. right. now left.
        + left. now rewrite lookup_insert_ne in Hn.
      - right. simpl. rewrite lookup_insert_eq. eauto. }
    destruct (g_score s !! nb) as [g_old|] eqn:Eold.
    + destruct (Qltb (gc + edge_cost cong cur nb d) g_old).
      * destruct (heuristic pow_half g nb end_id) as [h| | |]; simpl; try discriminate.
        intros [= <-]. apply Himp.
      * intros [= <-]. split; [apply grows_refl|]. right. rewrite Eold. eauto.
    + destruct (heuristic pow_half g nb end_id) as [h| | |]; simpl; try discriminate.
      intros [= <-]. apply Himp.
Qed.

Lemma relax_all_grows (pow_half : Q -> Q) (g : BuildingGraph) (end_id : string)
      (cong : gmap (string * string) Q) (cur : string) (nbs : list (string * Q))
      (s s' : search) :
  relax_all pow_half g end_id cong cur s nbs = Ok s' ->
  grows s s'
  /\ forall nb d, In (nb, d) nbs -> nb ∈ closed_set s \/ is_Some (g_score s' !! nb).
Proof.
  revert s. induction nbs as [|[nb d] nbs IH]; intros s Hrun.
  - injection Hrun as <-. split; [apply grows_refl | intros ? ? []].
  - cbn [relax_all] in Hrun.
    destruct (relax pow_half g end_id cong cur s (nb, d)) as [s1| | |] eqn:E1;
      simpl in Hrun; try discriminate.
    destruct (relax_grows _ _ _ _ _ _ _ _ _ E1) as [Hg1 Hnb].
    destruct (IH s1 Hrun) as [Hg2 Hrest].
    split; [eapply grows_trans; eauto|].
    intros nb' d' [[= <- <-]|Hin].
    + destruct Hnb as [H|H]; [now left | right]. now apply Hg2.
    + destruct (Hrest nb' d' Hin) as [H|H]; [left | now right].
      destruct Hg1 as [Hc _]. now rewrite <- Hc.
Qed.

Lemma step_continues (pow_half : Q -> Q) (g : BuildingGraph) (end_id : string)
      (cong : gmap (string * string) Q) (s s' : search) :
  step pow_half g end_id cong s = Ok (inr s') ->
  exists f cur rest node,
    Permutation (open_set s) ((f, cur) :: rest)
    /\ cur <> end_id
    /\ nodes g !! cur = Some node
    /\ relax_all pow_half g end_id cong cur (close_node cur rest s) (neighbors node) = Ok s'.
Proof.
  unfold step. destruct (heappop (open_set s)) as [[[f cur] rest]|] eqn:Epop; [|discriminate].
  destruct (String.eqb_spec cur end_id) as [->|Hne]; [discriminate|].
  unfold subscript. destruct (nodes g !! cur) as [node|] eqn:Enode; simpl; [|discriminate].
  fold (close_node cur rest s).
  destruct (relax_all pow_half g end_id cong cur (close_node cur rest s) (neighbors node))
    as [s3| | |] eqn:E3; simpl; try discriminate.
  intros [= <-]. exists f, cur, rest, node.
  split; [now apply heappop_perm|]. auto.
Qed.

Lemma step_exhausted (pow_half : Q -> Q) (g : BuildingGraph) (end_id : string)
      (cong : gmap (string * string) Q) (s s1 : search) :
  step pow_half g end_id cong s = Ok (inl (Exhausted s1)) -> open_set s = [].
Proof.
  unfold step. destruct (heappop (open_set s)) as [[[f cur] rest]|] eqn:Epop.
  - destruct (String.eqb cur end_id); [discriminate|].
    destruct (subscript (nodes g) cur) as [node| | |]; simpl; try discriminate.
    destruct (relax_all _ _ _ _ _ _ _) as [s3| | |]; simpl; discriminate.
  - intros _. now apply heappop_none.
Qed.

(** The state in which the loop ended satisfies whatever every round
    preserves. *)
Lemma search_loop_exit_state (pow_half : Q -> Q) (g : BuildingGraph) (end_id : string)
      (cong : gmap (string * string) Q) (P : search -> Prop) :
  (forall s s', P s -> step pow_half g end_id cong s = Ok (inr s') -> P s') ->
  forall fuel s e,
    P s -> search_loop pow_half g end_id cong fuel s = Ok e ->
    exists s0, P s0 /\ step pow_half g end_id cong s0 = Ok (inl e).
Proof.
  intros Hstep. induction fuel as [|fuel IH]; intros s e HP Hrun; [discriminate|].
  cbn [search_loop] in Hrun.
  destruct (step pow_half g end_id cong s) as [[ex|s']| | |] eqn:E; simpl in Hrun;
    try discriminate.
  - injection Hrun as <-. eauto.
  - apply (IH s' e); [eapply Hstep; eauto | exact Hrun].
Qed.

Section Completeness.

Variable pow_half : Q -> Q.
Variable g : BuildingGraph.
Variable start_id end_id : string.
Variable cong : gmap (string * string) Q.

Hypothesis graph_closed : graph_closedb g = true.
Hypothesis start_present : is_Some (nodes g !! start_id).
Hypothesis end_present : is_Some (nodes g !! end_id).

(** Every scored node is closed or waits in the frontier; every neighbor
    of a closed node is scored; the goal is not closed. *)
Record frontier_inv (s : search) : Prop := {
  fr_scored : forall n, is_Some (g_score s !! n) ->
                n ∈ closed_set s \/ exists f, In (f, n) (open_set s);
  fr_expanded : forall c node n d,
                  c ∈ closed_set s -> nodes g !! c = Some node ->
                  In (n, d) (neighbors node) -> is_Some (g_score s !! n);
  fr_goal : end_id ∉ closed_set s;
  fr_start : is_Some (g_score s !! start_id)
}.

Definition loop_inv (s : search) : Prop :=
  (exists rk B, search_inv g start_id s rk B) /\ frontier_inv s.

Lemma loop_inv_step (s s' : search) :
  loop_inv s -> step pow_half g end_id cong s = Ok (inr s') -> loop_inv s'.
Proof.
  intros [(rk & B & Hinv) Hfr] Hstep. split.
  - destruct (step_inv pow_half g start_id end_id cong graph_closed end_present s rk B Hinv)
      as (r & Hr & Hpost).
    rewrite Hstep in Hr. injection Hr as <-.
    destruct Hpost as (rk' & B' & Hinv' & _). eauto.
  - apply step_continues in Hstep as (f & cur & rest & node & Hperm & Hne & Hnode & Hrun).
    apply relax_all_grows in Hrun as [(Hc & Hg & Ho & Hn) Hnbs].
    assert (Hcur_open : In (f, cur) (open_set s)).
    { eapply Permutation_in; [symmetry; exact Hperm | now left]. }
    destruct Hfr as [Hscored Hexp Hgoal Hstart].
    constructor.
    + intros n Hn'. rewrite Hc. simpl.
      destruct (Hn n Hn') as [Hold|Hnew]; [|now right].
      simpl in Hold. destruct (Hscored n Hold) as [Hcl|[f' Hin]].
      * left. now apply in_close_r.
      * eapply Permutation_in in Hin; [|exact Hperm].
        destruct Hin as [[= _ <-]|Hin]; [left; apply in_close_l|].
        right. exists f'. apply Ho. exact Hin.
    + intros c node' n d Hcl Hnode' Hin. rewrite Hc in Hcl. simpl in Hcl.
      apply in_close_inv in Hcl as [->|Hcl].
      * rewrite Hnode in Hnode'. injection Hnode' as <-.
        destruct (Hnbs n d Hin) as [Hncl|Hs]; [|exact Hs].
        apply Hg. simpl. simpl in Hncl.
        apply in_close_inv in Hncl as [->|Hncl].
        -- eapply inv_open; eauto.
        -- now apply (inv_closed _ _ _ _ _ Hinv).
      * apply Hg. simpl. eauto.
    + rewrite Hc. simpl. intros Hin. apply in_close_inv in Hin as [Heq|Hin]; auto.
    + apply Hg. simpl. exact Hstart.
Qed.

Lemma initial_loop_inv (h0 : Q) : loop_inv (initial_search start_id h0).
Proof.
  split.
  - exists (fun _ => O), O. now apply initial_search_inv.
  - constructor; simpl.
    + intros n [v Hn]. apply lookup_singleton_Some in Hn as [<- _].
      right. exists 0. now left.
    + intros c node n d Hc. now apply not_elem_of_empty in Hc.
    + apply not_elem_of_empty.
    + rewrite lookup_singleton_eq. eauto.
Qed.

(** When the frontier is empty, the closed set holds everything that can
    be reached from the start. *)
Lemma exhausted_closed_reachable (s : search) (n : string) :
  frontier_inv s -> open_set s = [] -> connected g start_id n -> n ∈ closed_set s.
Proof.
  intros Hfr Hopen Hconn.
  assert (Hscored : forall x, is_Some (g_score s !! x) -> x ∈ closed_set s).
  { intros x Hx. destruct (fr_scored s Hfr x Hx) as [H|[f Hin]]; [exact H|].
    rewrite Hopen in Hin. destruct Hin. }
  induction Hconn as [|b c Hb IH (node & d & Hnode & Hin)].
  - apply Hscored, (fr_start s Hfr).
  - apply Hscored. eapply (fr_expanded s Hfr); eauto.
Qed.

Lemma reachable_goal_not_exhausted (fuel : nat) (h0 : Q) (s : search) :
  connected g start_id end_id ->
  search_loop pow_half g end_id cong fuel (initial_search start_id h0) = Ok (Exhausted s) ->
  False.
Proof.
  intros Hconn Hrun.
  destruct (search_loop_exit_state pow_half g end_id cong loop_inv loop_inv_step
              fuel _ _ (initial_loop_inv h0) Hrun) as (s0 & [_ Hfr] & Hstep).
  apply step_exhausted in Hstep.
  apply (fr_goal s0 Hfr). now apply exhausted_closed_reachable.
Qed.

End Completeness.

Lemma connected_present (g : BuildingGraph) (a b : string) :
  graph_closedb g = true -> is_Some (nodes g !! a) -> connected g a b ->
  is_Some (nodes g !! b).
Proof.
  intros Hclosed Ha Hconn. induction Hconn as [|c d Hc IH (node & w & Hnode & Hin)];
    [exact Ha|].
  eapply graph_closedb_spec; eauto.
Qed.

(** In exact arithmetic and in a graph whose neighbor ids are all nodes,
    a goal that can be reached from the start node along neighbor links is
    found. *)
Lemma reachable_goal_found_exact
        (pow_half : Q -> Q) (g : BuildingGraph) (start_id end_id : string)
        (congo : option (gmap (string * string) Q)) :
  graph_closedb g = true ->
  is_Some (nodes g !! start_id) ->
  connected g start_id end_id ->
  exists path,
    (forall fuel, (enough_fuel g <= fuel)%nat ->
                  find_path pow_half g fuel start_id end_id congo = Ok path)
    /\ path <> [].
Proof.
  intros Hclosed Hs Hconn.
  assert (He : is_Some (nodes g !! end_id)) by (eapply connected_present; eauto).
  destruct (find_path_outcome pow_half g start_id end_id (default ∅ congo)
              Hclosed He Hs (enough_fuel g) congo eq_refl (Nat.le_refl _))
    as (h0 & e & Hh0 & Hloop & Hres).
  destruct e as [s cur|s].
  - destruct Hres as (_ & path & Hpath & _ & Hhead & _).
    exists path. split; [intros fuel Hfuel; eapply find_path_more_fuel; eauto|].
    intros ->. discriminate Hhead.
  - exfalso.
    exact (reachable_goal_not_exhausted pow_half g start_id end_id (default ∅ congo)
             Hclosed Hs He (enough_fuel g) h0 s Hconn Hloop).
Qed.

(** * Further properties of the whole request *)

Lemma project_length_registered (m : ModelPathMatcher) (path : list string) :
  Forall (fun nid => is_Some (node_positions m !! nid)) path ->
  length (path_to_3d_coordinates m path) = length path.
Proof.
  unfold path_to_3d_coordinates. induction path as [|a rest IH]; intros Hall; [reflexivity|].
  apply Forall_cons in Hall as [[pa Ha] Hall]. simpl. rewrite Ha. simpl.
  f_equal. exact (IH Hall).
Qed.

Lemma no_gap_registered (m : ModelPathMatcher) (path : list string) :
  Forall (fun nid => is_Some (node_positions m !! nid)) path ->
  no_gap_after_registered m path = true.
Proof.
  induction path as [|a [|b rest] IH]; intros Hall; try reflexivity.
  apply Forall_cons in Hall as [_ Hall].
  pose proof Hall as Hall'. apply Forall_cons in Hall' as [Hb _].
  change (no_gap_after_registered m (a :: b :: rest))
    with ((if registered m a then registered m b else true)
          && no_gap_after_registered m (b :: rest)).
  rewrite (IH Hall), andb_true_r. unfold registered.
  rewrite (bool_decide_eq_true_2 _ Hb). now destruct (bool_decide _).
Qed.

(** X24: the request pipeline fits together. When the points are
    registered from the nodes of the graph that was searched (any scale
    and floor height), a path returned by [find_path] is projected without
    loss: one 3D point per node of the path, one segment per step, the
    smoothed path with one point per segment is the projection itself, and
    with [n >= 1] points per segment a route of at least two nodes gives
    [(len(path) - 1) * n + 1] points. *)
Theorem found_path_projects_completely
        (pow_half : Q -> Q) (g : BuildingGraph) (start_id end_id : string)
        (congo : option (gmap (string * string) Q)) (fuel : nat) (path : list string)
        (m : ModelPathMatcher) :
  graph_closedb g = true ->
  (enough_fuel g <= fuel)%nat ->
  find_path pow_half g fuel start_id end_id congo = Ok path ->
  let m' := register_nodes_from_graph m (nodes g) in
  length (path_to_3d_coordinates m' path) = length path
  /\ length (generate_path_segments m' path) = (length path - 1)%nat
  /\ generate_smooth_path m' path 1 = path_to_3d_coordinates m' path
  /\ (forall pps, (1 <= pps)%Z -> (2 <= length path)%nat ->
        length (generate_smooth_path m' path pps)
        = ((length path - 1) * Z.to_nat pps + 1)%nat).
Proof.
  intros Hclosed Hfuel Hrun m'.
  destruct (find_path_route_facts pow_half g start_id end_id congo fuel path
              Hclosed Hfuel Hrun) as [_ Hall].
  assert (Hreg : Forall (fun nid => is_Some (node_positions m' !! nid)) path).
  { eapply Forall_impl; [exact Hall|]. intros a [na Ha]. simpl.
    destruct (register_from_graph_lookup m (nodes g) a) as (_ & _ & Hp).
    subst m'. rewrite Hp, Ha. eauto. }
  split; [now apply project_length_registered|].
  split.
  { unfold generate_path_segments. destruct path as [|x [|y rest]]; try reflexivity.
    change (length (x :: y :: rest) <? 2)%nat with false. cbv iota.
    now apply segments_loop_length. }
  split.
  { unfold generate_smooth_path. destruct path as [|a [|b rest]]; try reflexivity.
    change (length (a :: b :: rest) <? 2)%nat with false. cbv iota.
    apply (smooth_one_projects m' a (b :: rest)). now apply no_gap_registered. }
  intros pps Hpps Hlen. now apply smooth_length_registered.
Qed.

Lemma found_path_projects_completely_witness :
  let m' := register_nodes_from_graph (new_matcher 1 4) (nodes two_rooms) in
  length (path_to_3d_coordinates m' ["A"%string; "B"%string]) = 2%nat
  /\ length (generate_path_segments m' ["A"%string; "B"%string]) = 1%nat
  /\ generate_smooth_path m' ["A"%string; "B"%string] 1
     = path_to_3d_coordinates m' ["A"%string; "B"%string]
  /\ (forall pps, (1 <= pps)%Z -> (2 <= 2)%nat ->
        length (generate_smooth_path m' ["A"%string; "B"%string] pps)
        = ((2 - 1) * Z.to_nat pps + 1)%nat).
Proof.
  apply (found_path_projects_completely
           (fun v => v) two_rooms "A" "B" None 5 ["A"%string; "B"%string]
           (new_matcher 1 4)).
  - vm_compute. reflexivity.
  - vm_compute. lia.
  - vm_compute. reflexivity.
Defined.

(** * The range of [float] *)

(** ** The heuristic and the search *)

Lemma floor_square_exact (df : Z) :
  inject_Z ((Z.abs df * 5) ^ 2) = (inject_Z (Z.abs df) * 5) ^ 2.
Proof.
  rewrite Z.pow_2_r. unfold inject_Z, Qmult, Qpower, Qpower_positive. simpl.
  reflexivity.
Qed.

(** The checked heuristic raises or agrees with the exact one. *)
Lemma heuristic_refines (pow_half : Q -> Q) (g : BuildingGraph) (a b : string) :
  Checked.heuristic pow_half g a b = OverflowError
  \/ Checked.heuristic pow_half g a b = heuristic pow_half g a b.
Proof.
  unfold Checked.heuristic, heuristic, subscript.
  destruct (nodes g !! a) as [na|]; [|now right].
  destruct (nodes g !! b) as [nb|]; [|now right].
  cbn [rbind]. unfold float_square, float_of_int.
  destruct (square_in_range _); [|now left]. cbn [rbind].
  destruct (square_in_range _); [|now left]. cbn [rbind].
  destruct (square_in_range _); [|now left]. cbn [rbind].
  destruct (in_float_range _); [|now left]. cbn [rbind].
  right. now rewrite floor_square_exact.
Qed.

Section RangeSearch.

Variable pow_half : Q -> Q.
Variable g : BuildingGraph.
Variable end_id : string.
Variable cong : gmap (string * string) Q.

Lemma relax_refines (cur : string) (s : search) (nb : string * Q) :
  Checked.relax pow_half g end_id cong cur s nb = OverflowError
  \/ Checked.relax pow_half g end_id cong cur s nb = relax pow_half g end_id cong cur s nb.
Proof.
  destruct nb as [n d]. unfold Checked.relax, relax.
  destruct (bool_decide (n ∈ closed_set s)); [now right|].
  destruct (subscript (g_score s) cur) as [gc| | |]; cbn [rbind]; try now right.
  destruct (match g_score s !! n with
            | Some g_old => Qltb (gc + edge_cost cong cur n d) g_old
            | None => true
            end); [|now right].
  destruct (heuristic_refines pow_half g n end_id) as [-> | ->]; [now left | now right].
Qed.

Lemma relax_all_refines (cur : string) (s : search) (nbs : list (string * Q)) :
  Checked.relax_all pow_half g end_id cong cur s nbs = OverflowError
  \/ Checked.relax_all pow_half g end_id cong cur s nbs
     = relax_all pow_half g end_id cong cur s nbs.
Proof.
  revert s. induction nbs as [|nb nbs IH]; intros s; [now right|].
  cbn [Checked.relax_all relax_all].
  destruct (relax_refines cur s nb) as [-> | ->]; [now left|].
  destruct (relax pow_half g end_id cong cur s nb) as [s'| | |]; cbn [rbind];
    try now right.
  apply IH.
Qed.

Lemma step_refines (s : search) :
  Checked.step pow_half g end_id cong s = OverflowError
  \/ Checked.step pow_half g end_id cong s = step pow_half g end_id cong s.
Proof.
  unfold Checked.step, step.
  destruct (heappop (open_set s)) as [[[f cur] rest]|]; [|now right].
  destruct (String.eqb cur end_id); [now right|].
  destruct (subscript (nodes g) cur) as [node| | |]; cbn [rbind]; try now right.
  destruct (relax_all_refines cur
              (mkSearch rest ({[cur]} ∪ closed_set s) (g_score s) (f_score s) (came_from s))
              (neighbors node)) as [-> | ->]; [now left | now right].
Qed.

Lemma search_loop_refines (fuel : nat) (s : search) :
  Checked.search_loop pow_half g end_id cong fuel s = OverflowError
  \/ Checked.search_loop pow_half g end_id cong fuel s
     = search_loop pow_half g end_id cong fuel s.
Proof.
  revert s. induction fuel as [|fuel IH]; intros s; [now right|].
  cbn [Checked.search_loop search_loop].
  destruct (step_refines s) as [-> | ->]; [now left|].
  destruct (step pow_half g end_id cong s) as [[e|s']| | |]; cbn [rbind]; try now right.
  apply IH.
Qed.

(** When the heuristic is in range on the nodes of the graph, the
    checked search is the exact one. *)
Hypothesis Hrange : heuristic_in_range pow_half g end_id = true.

Lemma heuristic_agrees (a : string) :
  Checked.heuristic pow_half g a end_id = heuristic pow_half g a end_id.
Proof.
  destruct (heuristic_refines pow_half g a end_id) as [E|E]; [|exact E].
  exfalso. destruct (nodes g !! a) as [na|] eqn:Ea.
  - unfold heuristic_in_range in Hrange. rewrite forallb_forall in Hrange.
    assert (Hin : In (a, na) (map_to_list (nodes g))).
    { apply list_elem_of_In, elem_of_map_to_list. exact Ea. }
    specialize (Hrange _ Hin). simpl in Hrange. rewrite E in Hrange. discriminate.
  - unfold Checked.heuristic, subscript in E. rewrite Ea in E. discriminate.
Qed.

Lemma relax_agrees (cur : string) (s : search) (nb : string * Q) :
  Checked.relax pow_half g end_id cong cur s nb = relax pow_half g end_id cong cur s nb.
Proof.
  destruct nb as [n d]. unfold Checked.relax, relax.
  destruct (bool_decide (n ∈ closed_set s)); [reflexivity|].
  destruct (subscript (g_score s) cur) as [gc| | |]; cbn [rbind]; try reflexivity.
  now rewrite heuristic_agrees.
Qed.

Lemma relax_all_agrees (cur : string) (s : search) (nbs : list (string * Q)) :
  Checked.relax_all pow_half g end_id cong cur s nbs
  = relax_all pow_half g end_id cong cur s nbs.
Proof.
  revert s. induction nbs as [|nb nbs IH]; intros s; [reflexivity|].
  cbn [Checked.relax_all relax_all]. rewrite relax_agrees.
  destruct (relax pow_half g end_id cong cur s nb) as [s'| | |]; cbn [rbind];
    try reflexivity.
  apply IH.
Qed.

Lemma step_agrees (s : search) :
  Checked.step pow_half g end_id cong s = step pow_half g end_id cong s.
Proof.
  unfold Checked.step, step.
  destruct (heappop (open_set s)) as [[[f cur] rest]|]; [|reflexivity].
  destruct (String.eqb cur end_id); [reflexivity|].
  destruct (subscript (nodes g) cur) as [node| | |]; cbn [rbind]; try reflexivity.
  now rewrite relax_all_agrees.
Qed.

Lemma search_loop_agrees (fuel : nat) (s : search) :
  Checked.search_loop pow_half g end_id cong fuel s
  = search_loop pow_half g end_id cong fuel s.
Proof.
  revert s. induction fuel as [|fuel IH]; intros s; [reflexivity|].
  cbn [Checked.search_loop search_loop]. rewrite step_agrees.
  destruct (step pow_half g end_id cong s) as [[e|s']| | |]; cbn [rbind]; try reflexivity.
  apply IH.
Qed.

End RangeSearch.

Lemma find_path_refines (pow_half : Q -> Q) (g : BuildingGraph) (fuel : nat)
      (start_id end_id : string) (congo : option (gmap (string * string) Q)) :
  Checked.find_path pow_half g fuel start_id end_id congo = OverflowError
  \/ Checked.find_path pow_half g fuel start_id end_id congo
     = find_path pow_half g fuel start_id end_id congo.
Proof.
  unfold Checked.find_path, find_path.
  destruct (negb _ || negb _); [now right|].
  destruct (heuristic_refines pow_half g start_id end_id) as [-> | ->]; [now left|].
  destruct (heuristic pow_half g start_id end_id) as [h0| | |]; cbn [rbind]; try now right.
  destruct (search_loop_refines pow_half g end_id (default ∅ congo) fuel
              (initial_search start_id h0)) as [-> | ->]; [now left | now right].
Qed.

Lemma find_path_agrees (pow_half : Q -> Q) (g : BuildingGraph) (fuel : nat)
      (start_id end_id : string) (congo : option (gmap (string * string) Q)) :
  heuristic_in_range pow_half g end_id = true ->
  Checked.find_path pow_half g fuel start_id end_id congo
  = find_path pow_half g fuel start_id end_id congo.
Proof.
  intros Hrange. unfold Checked.find_path, find_path.
  destruct (negb _ || negb _); [reflexivity|].
  rewrite (heuristic_agrees pow_half g end_id Hrange).
  destruct (heuristic pow_half g start_id end_id) as [h0| | |]; cbn [rbind]; try reflexivity.
  now rewrite (search_loop_agrees pow_half g end_id (default ∅ congo) Hrange).
Qed.

Lemma checked_find_path_absent (pow_half : Q -> Q) (g : BuildingGraph)
      (start_id end_id : string) (congo : option (gmap (string * string) Q)) (fuel : nat) :
  nodes g !! start_id = None \/ nodes g !! end_id = None ->
  Checked.find_path pow_half g fuel start_id end_id congo = Ok [].
Proof.
  intros H. destruct (find_path_refines pow_half g fuel start_id end_id congo) as [E|E].
  - exfalso. revert E. unfold Checked.find_path.
    destruct H as [H|H]; rewrite H.
    + rewrite bool_decide_eq_false_2 by (intros [? [=]]). discriminate.
    + rewrite (bool_decide_eq_false_2 (is_Some None)) by (intros [? [=]]).
      simpl. rewrite orb_true_r. discriminate.
  - rewrite E. now apply find_path_absent.
Qed.

(** In a closed graph the exact search returns the empty path exactly
    when an id is missing or the goal cannot be reached. *)
Lemma exact_path_empty_iff (pow_half : Q -> Q) (g : BuildingGraph)
      (start_id end_id : string) (congo : option (gmap (string * string) Q)) :
  graph_closedb g = true ->
  exists path,
    (forall fuel, (enough_fuel g <= fuel)%nat ->
                  find_path pow_half g fuel start_id end_id congo = Ok path)
    /\ (path = [] <->
        nodes g !! start_id = None \/ nodes g !! end_id = None
        \/ ~ connected g start_id end_id).
Proof.
  intros Hclosed.
  destruct (search_outcome_exact pow_half g start_id end_id congo Hclosed)
    as (path & Hpath & _ & Hiff & Hnot).
  exists path. split; [exact Hpath|]. split.
  - intros Hnil. apply Hiff in Hnil as [Hs|[He|(h0 & s & Hh0 & Hloop & _)]];
      [now left | right; now left |].
    destruct (nodes g !! start_id) as [ns|] eqn:Es; [|now left].
    destruct (nodes g !! end_id) as [ne|] eqn:Ee; [|right; now left].
    right. right. intros Hconn.
    assert (Hs : is_Some (nodes g !! start_id)) by (rewrite Es; eauto).
    assert (He : is_Some (nodes g !! end_id)) by (rewrite Ee; eauto).
    exact (reachable_goal_not_exhausted pow_half g start_id end_id (default ∅ congo)
             Hclosed Hs He (enough_fuel g) h0 s Hconn (Hloop _ (Nat.le_refl _))).
  - intros [Hs|[He|Hnc]].
    + apply Hiff. now left.
    + apply Hiff. right. now left.
    + now apply Hnot.
Qed.

Example two_rooms_in_range : heuristic_in_range (fun v => v) two_rooms "B" = true.
Proof. vm_compute. reflexivity. Qed.

(** C3: in a graph whose neighbor ids are all nodes, [find_path] returns
    the empty path without searching (any fuel, even none) when the start
    id or the goal id is not a node. When [_heuristic] raises no
    [OverflowError] between a node of the graph and the goal, it returns a
    path (the same for every fuel from [enough_fuel] on), which is empty
    exactly when an id is not a node or the loop ends on an empty
    frontier, in particular when the goal cannot be reached from the start
    along neighbor links, and non-empty in every other case. In general
    the call either raises [OverflowError] or returns a path, and a
    returned path is empty exactly when an id is not a node or the goal
    cannot be reached. *)
Theorem find_path_empty_iff_search_fails_in_range
        (pow_half : Q -> Q) (g : BuildingGraph) (start_id end_id : string)
        (congo : option (gmap (string * string) Q)) :
  graph_closedb g = true ->
  (nodes g !! start_id = None \/ nodes g !! end_id = None ->
   forall fuel, Checked.find_path pow_half g fuel start_id end_id congo = Ok [])
  /\ (heuristic_in_range pow_half g end_id = true ->
      exists path,
        (forall fuel, (enough_fuel g <= fuel)%nat ->
                      Checked.find_path pow_half g fuel start_id end_id congo = Ok path)
        /\ (path = [] <->
            nodes g !! start_id = None \/ nodes g !! end_id = None
            \/ exists h0 s,
                 Checked.heuristic pow_half g start_id end_id = Ok h0
                 /\ (forall fuel, (enough_fuel g <= fuel)%nat ->
                       Checked.search_loop pow_half g end_id (default ∅ congo) fuel
                                           (initial_search start_id h0)
                       = Ok (Exhausted s))
                 /\ open_set s = [])
        /\ (~ connected g start_id end_id -> path = []))
  /\ (forall fuel, (enough_fuel g <= fuel)%nat ->
        Checked.find_path pow_half g fuel start_id end_id congo = OverflowError
        \/ exists path,
             Checked.find_path pow_half g fuel start_id end_id congo = Ok path
             /\ (path = [] <->
                 nodes g !! start_id = None \/ nodes g !! end_id = None
                 \/ ~ connected g start_id end_id)).
Proof.
  intros Hclosed. split; [|split].
  - intros Habsent fuel. now apply checked_find_path_absent.
  - intros Hrange.
    destruct (search_outcome_exact pow_half g start_id end_id congo Hclosed)
      as (path & Hpath & _ & Hiff & Hnot).
    exists path. split; [|split; [|exact Hnot]].
    + intros fuel Hfuel. rewrite (find_path_agrees _ _ _ _ _ _ Hrange). now apply Hpath.
    + rewrite Hiff. rewrite (heuristic_agrees pow_half g end_id Hrange).
      split; (intros [Hs|[He|(h0 & s & Hh0 & Hloop & Hopen)]];
              [now left | right; now left |]);
        right; right; exists h0, s; (split; [exact Hh0|]); (split; [|exact Hopen]);
        intros fuel Hfuel.
      * rewrite (search_loop_agrees pow_half g end_id (default ∅ congo) Hrange).
        now apply Hloop.
      * rewrite <- (search_loop_agrees pow_half g end_id (default ∅ congo) Hrange).
        now apply Hloop.
  - intros fuel Hfuel.
    destruct (exact_path_empty_iff pow_half g start_id end_id congo Hclosed)
      as (path & Hpath & Hiff).
    destruct (find_path_refines pow_half g fuel start_id end_id congo) as [E|E];
      [now left|].
    right. exists path. split; [|exact Hiff]. rewrite E. now apply Hpath.
Qed.

Lemma find_path_empty_iff_search_fails_in_range_witness :
  (nodes two_rooms !! "A"%string = None \/ nodes two_rooms !! "B"%string = None ->
   forall fuel, Checked.find_path (fun v => v) two_rooms fuel "A" "B" None = Ok [])
  /\ (heuristic_in_range (fun v => v) two_rooms "B" = true ->
      exists path,
        (forall fuel, (enough_fuel two_rooms <= fuel)%nat ->
                      Checked.find_path (fun v => v) two_rooms fuel "A" "B" None = Ok path)
        /\ (path = [] <->
            nodes two_rooms !! "A"%string = None \/ nodes two_rooms !! "B"%string = None
            \/ exists h0 s,
                 Checked.heuristic (fun v => v) two_rooms "A" "B" = Ok h0
                 /\ (forall fuel, (enough_fuel two_rooms <= fuel)%nat ->
                       Checked.search_loop (fun v => v) two_rooms "B" (default ∅ None) fuel
                                           (initial_search "A" h0)
                       = Ok (Exhausted s))
                 /\ open_set s = [])
        /\ (~ connected two_rooms "A" "B" -> path = []))
  /\ (forall fuel, (enough_fuel two_rooms <= fuel)%nat ->
        Checked.find_path (fun v => v) two_rooms fuel "A" "B" None = OverflowError
        \/ exists path,
             Checked.find_path (fun v => v) two_rooms fuel "A" "B" None = Ok path
             /\ (path = [] <->
                 nodes two_rooms !! "A"%string = None \/ nodes two_rooms !! "B"%string = None
                 \/ ~ connected two_rooms "A" "B")).
Proof.
  apply (find_path_empty_iff_search_fails_in_range (fun v => v) two_rooms "A" "B" None).
  vm_compute. reflexivity.
Defined.

(** With one room at [x = 10 ^ 200] the first call of [_heuristic] squares
    [10 ^ 200]: the call returns neither the empty path nor a path from
    [A] to its neighbor [B]. *)
Lemma find_path_overflow_example :
  graph_closedb far_rooms = true
  /\ is_Some (nodes far_rooms !! "A"%string)
  /\ is_Some (nodes far_rooms !! "B"%string)
  /\ Checked.find_path (fun v => v) far_rooms (enough_fuel far_rooms) "A" "B" None
     = OverflowError.
Proof.
  split; [vm_compute; reflexivity|].
  split; [vm_compute; eauto|].
  split; [vm_compute; eauto|].
  vm_compute. reflexivity.
Qed.

(** X21: in a graph whose neighbor ids are all nodes, [find_path] never
    gives up on a goal that can be reached from the start node along
    neighbor links, whatever the distances and the congestion rates are:
    there is a non-empty path that it returns (the same for every fuel
    from [enough_fuel] on) unless it raises [OverflowError], and it
    returns that path when [_heuristic] raises no [OverflowError] between
    a node of the graph and the goal. *)
Theorem find_path_finds_reachable_goal_or_overflows
        (pow_half : Q -> Q) (g : BuildingGraph) (start_id end_id : string)
        (congo : option (gmap (string * string) Q)) :
  graph_closedb g = true ->
  is_Some (nodes g !! start_id) ->
  connected g start_id end_id ->
  exists path,
    path <> []
    /\ (forall fuel, (enough_fuel g <= fuel)%nat ->
          Checked.find_path pow_half g fuel start_id end_id congo = Ok path
          \/ Checked.find_path pow_half g fuel start_id end_id congo = OverflowError)
    /\ (heuristic_in_range pow_half g end_id = true ->
        forall fuel, (enough_fuel g <= fuel)%nat ->
          Checked.find_path pow_half g fuel start_id end_id congo = Ok path).
Proof.
  intros Hclosed Hs Hconn.
  destruct (reachable_goal_found_exact pow_half g start_id end_id congo Hclosed Hs Hconn)
    as (path & Hpath & Hne).
  exists path. split; [exact Hne|]. split.
  - intros fuel Hfuel.
    destruct (find_path_refines pow_half g fuel start_id end_id congo) as [E|E];
      [now right|].
    left. rewrite E. now apply Hpath.
  - intros Hrange fuel Hfuel. rewrite (find_path_agrees _ _ _ _ _ _ Hrange).
    now apply Hpath.
Qed.

Lemma find_path_finds_reachable_goal_or_overflows_witness :
  exists path,
    path <> []
    /\ (forall fuel, (enough_fuel two_rooms <= fuel)%nat ->
          Checked.find_path (fun v => v) two_rooms fuel "A" "B" None = Ok path
          \/ Checked.find_path (fun v => v) two_rooms fuel "A" "B" None = OverflowError)
    /\ (heuristic_in_range (fun v => v) two_rooms "B" = true ->
        forall fuel, (enough_fuel two_rooms <= fuel)%nat ->
          Checked.find_path (fun v => v) two_rooms fuel "A" "B" None = Ok path).
Proof.
  apply (find_path_finds_reachable_goal_or_overflows (fun v => v) two_rooms "A" "B" None).
  - vm_compute. reflexivity.
  - vm_compute. eauto.
  - apply connected_step with "A"%string; [constructor|].
    exists (mkNode "A" 0 0 0 [("B"%string, 1)]), 1. split; [vm_compute; reflexivity|].
    left. reflexivity.
Defined.

(** ** The instructions *)

Section InstructionFacts.

Variable pow_half : Q -> Q.
Variable format_1f : Q -> string.
Variable format_int : Z -> string.

Lemma instruction_for_cases (a b : Node) :
  (step_in_range a b = true
   /\ exists text, instruction_for pow_half format_1f format_int a b = Ok text)
  \/ (step_in_range a b = false
      /\ instruction_for pow_half format_1f format_int a b = OverflowError).
Proof.
  unfold instruction_for, step_in_range, float_square.
  destruct (square_in_range (node_x b - node_x a)); cbn [rbind andb];
    [|right; now split].
  destruct (square_in_range (node_y b - node_y a)); cbn [rbind];
    [|right; now split].
  left. split; [reflexivity|]. eexists. reflexivity.
Qed.

Lemma instructions_loop_step (g : BuildingGraph) (a b : string) (rest : list string) :
  instructions_loop pow_half format_1f format_int g (a :: b :: rest)
  = rbind (subscript (nodes g) a) (fun current_node =>
    rbind (subscript (nodes g) b) (fun next_node =>
    rbind (instruction_for pow_half format_1f format_int current_node next_node)
          (fun instruction =>
    rbind (instructions_loop pow_half format_1f format_int g (b :: rest))
          (fun instructions => Ok (instruction :: instructions))))).
Proof. reflexivity. Qed.

Lemma steps_in_range_step (g : BuildingGraph) (a b : string) (rest : list string) :
  steps_in_range g (a :: b :: rest)
  = match nodes g !! a, nodes g !! b with
    | Some na, Some nb => step_in_range na nb
    | _, _ => true
    end && steps_in_range g (b :: rest).
Proof. reflexivity. Qed.

Lemma instructions_loop_ok (g : BuildingGraph) (path : list string) :
  Forall (fun a => is_Some (nodes g !! a)) path ->
  steps_in_range g path = true ->
  exists l, instructions_loop pow_half format_1f format_int g path = Ok l
            /\ length l = (length path - 1)%nat.
Proof.
  induction path as [|a [|b rest] IH]; intros Hall Hsteps.
  - exists []. auto.
  - exists []. auto.
  - apply Forall_cons in Hall as [[na Ha] Hall].
    pose proof Hall as Hall'. apply Forall_cons in Hall' as [[nb Hb] _].
    rewrite steps_in_range_step, Ha, Hb in Hsteps.
    apply andb_true_iff in Hsteps as [Hstep Hsteps].
    destruct (IH Hall Hsteps) as (l & Hl & Hlen).
    destruct (instruction_for_cases na nb) as [[_ [text Ht]]|[Hf _]]; [|congruence].
    rewrite instructions_loop_step. unfold subscript. rewrite Ha, Hb. cbn [rbind].
    rewrite Ht. cbn [rbind]. rewrite Hl. cbn [rbind].
    eexists. split; [reflexivity|]. cbn [length] in *. lia.
Qed.

Lemma instructions_loop_returned (g : BuildingGraph) (path l : list string) :
  instructions_loop pow_half format_1f format_int g path = Ok l ->
  length l = (length path - 1)%nat
  /\ steps_in_range g path = true
  /\ ((2 <= length path)%nat -> Forall (fun a => is_Some (nodes g !! a)) path).
Proof.
  revert l. induction path as [|a [|b rest] IH]; intros l E.
  - injection E as <-. split; [reflexivity|]. split; [reflexivity|]. simpl. lia.
  - injection E as <-. split; [reflexivity|]. split; [reflexivity|]. simpl. lia.
  - rewrite instructions_loop_step in E. unfold subscript in E.
    destruct (nodes g !! a) as [na|] eqn:Ea; cbn [rbind] in E; [|discriminate].
    destruct (nodes g !! b) as [nb|] eqn:Eb; cbn [rbind] in E; [|discriminate].
    destruct (instruction_for_cases na nb) as [[Hstep [text Ht]]|[_ Ht]];
      rewrite Ht in E; cbn [rbind] in E; [|discriminate].
    destruct (instructions_loop pow_half format_1f format_int g (b :: rest))
      as [l'| | |] eqn:El; cbn [rbind] in E; try discriminate.
    injection E as <-. destruct (IH l' eq_refl) as (Hlen & Hsteps & Hall).
    split; [cbn [length] in *; lia|].
    split; [rewrite steps_in_range_step, Ea, Eb, Hstep, Hsteps; reflexivity|].
    intros _. apply Forall_cons. split; [eauto|].
    destruct rest as [|c rest'].
    + apply Forall_cons. split; [eauto | constructor].
    + apply Hall. cbn [length]. lia.
Qed.

Lemma instructions_loop_error (g : BuildingGraph) (path : list string) (key : string) :
  instructions_loop pow_half format_1f format_int g path = KeyError key ->
  In key path /\ nodes g !! key = None.
Proof.
  induction path as [|a [|b rest] IH]; try discriminate.
  rewrite instructions_loop_step. unfold subscript.
  destruct (nodes g !! a) as [na|] eqn:Ea; cbn [rbind].
  - destruct (nodes g !! b) as [nb|] eqn:Eb; cbn [rbind].
    + destruct (instruction_for_cases na nb) as [[_ [text Ht]]|[_ Ht]];
        rewrite Ht; cbn [rbind]; [|discriminate].
      destruct (instructions_loop pow_half format_1f format_int g (b :: rest))
        as [l|k| |] eqn:El; cbn [rbind]; try discriminate.
      intros [= ->]. destruct (IH eq_refl) as [Hin Hk]. split; [now right | exact Hk].
    + intros [= <-]. split; [right; now left | exact Eb].
  - intros [= <-]. split; [now left | exact Ea].
Qed.

Lemma instructions_loop_overflow (g : BuildingGraph) (path : list string) :
  instructions_loop pow_half format_1f format_int g path = OverflowError ->
  steps_in_range g path = false.
Proof.
  induction path as [|a [|b rest] IH]; try discriminate.
  rewrite instructions_loop_step, steps_in_range_step. unfold subscript.
  destruct (nodes g !! a) as [na|] eqn:Ea; cbn [rbind]; [|discriminate].
  destruct (nodes g !! b) as [nb|] eqn:Eb; cbn [rbind]; [|discriminate].
  destruct (instruction_for_cases na nb) as [[Hstep [text Ht]]|[Hstep Ht]];
    rewrite Ht, Hstep; cbn [rbind]; [|reflexivity].
  destruct (instructions_loop pow_half format_1f format_int g (b :: rest))
    as [l|k| |] eqn:El; cbn [rbind]; try discriminate.
  intros _. now rewrite IH.
Qed.

Lemma instructions_loop_total (g : BuildingGraph) (path : list string) :
  instructions_loop pow_half format_1f format_int g path <> OutOfFuel.
Proof.
  induction path as [|a [|b rest] IH]; try discriminate.
  rewrite instructions_loop_step. unfold subscript.
  destruct (nodes g !! a) as [na|]; cbn [rbind]; [|discriminate].
  destruct (nodes g !! b) as [nb|]; cbn [rbind]; [|discriminate].
  destruct (instruction_for_cases na nb) as [[_ [text Ht]]|[_ Ht]];
    rewrite Ht; cbn [rbind]; [|discriminate].
  destruct (instructions_loop pow_half format_1f format_int g (b :: rest)); cbn [rbind];
    [discriminate | discriminate | contradiction | discriminate].
Qed.

(** X22: [generate_navigation_instructions] answers a path of fewer than
    two ids with the single message that the path is incomplete, without
    looking at the graph. For a longer path it returns one instruction per
    consecutive pair exactly when every id of the path is a node and no
    square of a step overflows. The only exceptions it raises are the
    [KeyError] of an id of the path that is not a node and the
    [OverflowError] of a step between two nodes whose square overflows. *)
Theorem navigation_instructions_outcome (path : list string) (g : BuildingGraph) :
  let run := generate_navigation_instructions pow_half format_1f format_int path g in
  ((length path < 2)%nat -> run = Ok ["无法生成导航指令，路径不完整"%string])
  /\ ((2 <= length path)%nat ->
      Forall (fun a => is_Some (nodes g !! a)) path ->
      steps_in_range g path = true ->
      exists l, run = Ok l /\ length l = (length path - 1)%nat)
  /\ ((2 <= length path)%nat ->
      forall l, run = Ok l ->
                length l = (length path - 1)%nat
                /\ Forall (fun a => is_Some (nodes g !! a)) path
                /\ steps_in_range g path = true)
  /\ (forall key, run = KeyError key -> In key path /\ nodes g !! key = None)
  /\ (run = OverflowError -> steps_in_range g path = false)
  /\ run <> OutOfFuel.
Proof.
  cbv zeta. unfold generate_navigation_instructions.
  split; [|split; [|split; [|split; [|split]]]].
  - intros Hlen. apply Nat.ltb_lt in Hlen. now rewrite Hlen.
  - intros Hlen Hall Hsteps. apply Nat.ltb_ge in Hlen. rewrite Hlen.
    now apply instructions_loop_ok.
  - intros Hlen l. pose proof Hlen as Hlen'. apply Nat.ltb_ge in Hlen'. rewrite Hlen'.
    intros E. destruct (instructions_loop_returned g path l E) as (H1 & H2 & H3).
    split; [exact H1|]. split; [now apply H3 | exact H2].
  - intros key. destruct (length path <? 2)%nat; [discriminate|].
    apply instructions_loop_error.
  - destruct (length path <? 2)%nat; [discriminate|].
    apply instructions_loop_overflow.
  - destruct (length path <? 2)%nat; [discriminate|].
    apply instructions_loop_total.
Qed.

End InstructionFacts.

(** X23: for a path returned by [find_path] (in a graph whose neighbor
    ids are all nodes) [generate_navigation_instructions] never raises a
    [KeyError]: unless a square of a step of the route overflows, which
    raises [OverflowError], it returns one instruction per step, and the
    single message about an incomplete path when the route is empty (no
    path) or has one node (start and goal are the same node). *)
Theorem instructions_for_found_path_or_overflow
        (pow_half : Q -> Q) (format_1f : Q -> string) (format_int : Z -> string)
        (g : BuildingGraph) (start_id end_id : string)
        (congo : option (gmap (string * string) Q)) (fuel : nat) (path : list string) :
  graph_closedb g = true ->
  (enough_fuel g <= fuel)%nat ->
  Checked.find_path pow_half g fuel start_id end_id congo = Ok path ->
  let run := generate_navigation_instructions pow_half format_1f format_int path g in
  (steps_in_range g path = true ->
   exists l, run = Ok l /\ length l = Nat.max 1 (length path - 1))
  /\ (steps_in_range g path = false -> run = OverflowError).
Proof.
  intros Hclosed Hfuel Hrun run.
  assert (Hexact : find_path pow_half g fuel start_id end_id congo = Ok path).
  { destruct (find_path_refines pow_half g fuel start_id end_id congo) as [E|E];
      congruence. }
  destruct (find_path_route_facts pow_half g start_id end_id congo fuel path
              Hclosed Hfuel Hexact) as [_ Hall].
  destruct (navigation_instructions_outcome pow_half format_1f format_int path g)
    as (Hshort & Hok & Hret & Hkey & Hovf & Htot).
  fold run in Hshort, Hok, Hret, Hkey, Hovf, Htot.
  destruct (le_lt_dec 2 (length path)) as [Hlen|Hlen].
  - split.
    + intros Hsteps. destruct (Hok Hlen Hall Hsteps) as (l & Hl & Hlen').
      exists l. split; [exact Hl | lia].
    + intros Hsteps. destruct run as [l|key| |] eqn:E.
      * destruct (Hret Hlen l eq_refl) as (_ & _ & Hs). congruence.
      * destruct (Hkey key eq_refl) as [Hin Hnone].
        rewrite Forall_forall in Hall.
        destruct (Hall key (proj2 (list_elem_of_In _ _) Hin)) as [n Hn]. congruence.
      * now contradiction Htot.
      * reflexivity.
  - split.
    + intros _. eexists. split; [now apply Hshort|]. simpl. lia.
    + intros Hsteps. exfalso.
      destruct path as [|a [|b rest]]; simpl in Hsteps, Hlen; try discriminate. lia.
Qed.

Lemma instructions_for_found_path_or_overflow_witness :
  let run := generate_navigation_instructions (fun v => v) (fun _ => "1.0"%string)
                                              (fun _ => "0"%string)
                                              ["A"%string; "B"%string] two_rooms in
  (steps_in_range two_rooms ["A"%string; "B"%string] = true ->
   exists l, run = Ok l /\ length l = Nat.max 1 (length ["A"%string; "B"%string] - 1))
  /\ (steps_in_range two_rooms ["A"%string; "B"%string] = false -> run = OverflowError).
Proof.
  apply (instructions_for_found_path_or_overflow
           (fun v => v) (fun _ => "1.0"%string) (fun _ => "0"%string)
           two_rooms "A" "B" None 5).
  - vm_compute. reflexivity.
  - vm_compute. lia.
  - vm_compute. reflexivity.
Defined.

(** ** The estimator *)

Lemma insert_by_time_in (d e : AccelerometerData) (l : list AccelerometerData) :
  In e (insert_by_time d l) -> e = d \/ In e l.
Proof.
  induction l as [|x l IH]; simpl.
  - intros [<-|[]]. now left.
  - destruct (Qle_bool (timestamp d) (timestamp x)); simpl.
    + intros [<-|H]; [now left | now right].
    + intros [<-|H]; [right; now left|].
      destruct (IH H) as [->|H']; [now left | right; now right].
Qed.

Lemma sort_by_time_in (e : AccelerometerData) (l : list AccelerometerData) :
  In e (sort_by_time l) -> In e l.
Proof.
  unfold sort_by_time. induction l as [|x l IH]; simpl; [tauto|].
  intros H. apply insert_by_time_in in H as [->|H]; [now left | right; auto].
Qed.

Lemma user_data_in_range (l : list AccelerometerData) (uid : string) :
  forallb magnitude_in_range l = true ->
  forallb magnitude_in_range
          (sort_by_time (filter (fun d => user_id d = uid) l)) = true.
Proof.
  rewrite !forallb_forall. intros Hl d Hd. apply Hl.
  apply sort_by_time_in in Hd. apply list_elem_of_In in Hd.
  apply list_elem_of_filter in Hd as [_ Hd]. now apply list_elem_of_In.
Qed.

Section RangeEstimator.

Variable pow_half : Q -> Q.

Lemma magnitude_cases (d : AccelerometerData) :
  Checked.magnitude pow_half d
  = if magnitude_in_range d then Ok (magnitude pow_half d) else OverflowError.
Proof.
  unfold Checked.magnitude, magnitude, magnitude_in_range, float_square.
  destruct (square_in_range (acc_x d)); cbn [rbind andb]; [|reflexivity].
  destruct (square_in_range (acc_y d)); cbn [rbind andb]; [|reflexivity].
  destruct (square_in_range (acc_z d)); reflexivity.
Qed.

Lemma count_steps_from_cases (p : CongestionProcessor) (st : Z * Q)
      (l : list AccelerometerData) :
  Checked.count_steps_from pow_half p st l
  = if forallb magnitude_in_range l
    then Ok (foldl (fun (st : Z * Q) d =>
                      if Qltb (step_threshold p) (magnitude pow_half d)
                         && Qltb (step_cooldown p) (timestamp d - snd st)
                      then ((fst st + 1)%Z, timestamp d)
                      else st) st l)
    else OverflowError.
Proof.
  revert st. induction l as [|d l IH]; intros st; [reflexivity|].
  cbn [Checked.count_steps_from forallb foldl]. rewrite magnitude_cases.
  destruct (magnitude_in_range d); cbn [rbind andb]; [|reflexivity].
  apply IH.
Qed.

Lemma count_steps_cases (p : CongestionProcessor) (l : list AccelerometerData) :
  Checked.count_steps pow_half p l
  = if forallb magnitude_in_range l then Ok (count_steps pow_half p l) else OverflowError.
Proof.
  unfold Checked.count_steps, count_steps. rewrite count_steps_from_cases.
  destruct (forallb magnitude_in_range l); reflexivity.
Qed.

Lemma user_speed_cases (p : CongestionProcessor) (l : list AccelerometerData)
      (uid : string) :
  Checked.user_speed pow_half p l uid
  = if forallb magnitude_in_range (sort_by_time (filter (fun d => user_id d = uid) l))
    then Ok (user_speed pow_half p l uid)
    else OverflowError.
Proof.
  unfold Checked.user_speed, user_speed. rewrite count_steps_cases.
  destruct (forallb magnitude_in_range _); reflexivity.
Qed.

Lemma user_speeds_loop_refines (p : CongestionProcessor) (l : list AccelerometerData)
      (users : list string) :
  Checked.user_speeds_loop pow_half p l users = OverflowError
  \/ Checked.user_speeds_loop pow_half p l users = Ok (omap (user_speed pow_half p l) users).
Proof.
  induction users as [|uid users IH]; [now right|].
  cbn [Checked.user_speeds_loop]. rewrite user_speed_cases.
  destruct (forallb magnitude_in_range _); cbn [rbind]; [|now left].
  destruct IH as [-> | ->]; cbn [rbind]; [now left | now right].
Qed.

Lemma user_speeds_loop_in_range (p : CongestionProcessor) (l : list AccelerometerData)
      (users : list string) :
  forallb magnitude_in_range l = true ->
  Checked.user_speeds_loop pow_half p l users = Ok (omap (user_speed pow_half p l) users).
Proof.
  intros Hl. induction users as [|uid users IH]; [reflexivity|].
  cbn [Checked.user_speeds_loop]. rewrite user_speed_cases, user_data_in_range by exact Hl.
  cbn [rbind]. rewrite IH. reflexivity.
Qed.

Lemma speed_factor_refines (p : CongestionProcessor) (l : list AccelerometerData) :
  Checked.speed_factor pow_half p l = OverflowError
  \/ Checked.speed_factor pow_half p l = Ok (speed_factor pow_half p l).
Proof.
  unfold Checked.speed_factor, speed_factor.
  destruct (user_speeds_loop_refines p l (users_of l)) as [-> | ->];
    [now left | now right].
Qed.

Lemma speed_factor_in_range (p : CongestionProcessor) (l : list AccelerometerData) :
  forallb magnitude_in_range l = true ->
  Checked.speed_factor pow_half p l = Ok (speed_factor pow_half p l).
Proof.
  intros Hl. unfold Checked.speed_factor, speed_factor.
  now rewrite user_speeds_loop_in_range.
Qed.

Lemma magnitudes_of_cases (l : list AccelerometerData) :
  Checked.magnitudes_of pow_half l
  = if forallb magnitude_in_range l then Ok (map (magnitude pow_half) l) else OverflowError.
Proof.
  induction l as [|d l IH]; [reflexivity|].
  cbn [Checked.magnitudes_of forallb map]. rewrite magnitude_cases.
  destruct (magnitude_in_range d); cbn [rbind andb]; [|reflexivity].
  rewrite IH. destruct (forallb magnitude_in_range l); reflexivity.
Qed.

Lemma variance_factor_cases (l : list AccelerometerData) :
  Checked.variance_factor pow_half l
  = if forallb magnitude_in_range l then Ok (variance_factor pow_half l) else OverflowError.
Proof.
  unfold Checked.variance_factor, variance_factor. rewrite magnitudes_of_cases.
  destruct (forallb magnitude_in_range l); reflexivity.
Qed.

(** The rate is computed exactly when no square of a sample overflows. *)
Lemma combined_rate_cases (p : CongestionProcessor) (l : list AccelerometerData) :
  Checked.combined_rate pow_half p l
  = if forallb magnitude_in_range l then Ok (combined_rate pow_half p l) else OverflowError.
Proof.
  unfold Checked.combined_rate. rewrite variance_factor_cases.
  destruct (forallb magnitude_in_range l) eqn:Hl.
  - rewrite speed_factor_in_range by exact Hl. reflexivity.
  - destruct (speed_factor_refines p l) as [-> | ->]; reflexivity.
Qed.

End RangeEstimator.

(** The call raised [OverflowError] or returned. *)
Definition returns_or_overflows {A} (r : result A) : Prop :=
  r = OverflowError \/ exists a, r = Ok a.

Section RangeProcessor.

Variable pow_half : Q -> Q.
Variable clock : nat -> Q.

(** What the recomputation returns and leaves, in terms of the samples
    left by the pruning. *)
Lemma checked_recompute_cases (loc : string) (w : World) :
  Checked.recompute_congestion pow_half clock loc w
  = match OrdDict.get loc (data_cache (proc (snd (clean_expired_data clock loc w)))) with
    | None | Some [] => (Ok 0, snd (clean_expired_data clock loc w))
    | Some live =>
        if forallb magnitude_in_range live
        then (Ok (fst (recompute_congestion pow_half clock loc w)),
              snd (recompute_congestion pow_half clock loc w))
        else (OverflowError, snd (clean_expired_data clock loc w))
    end.
Proof.
  unfold Checked.recompute_congestion, recompute_congestion.
  unfold bind, Checked.bind_result, get_proc, ret.
  destruct (clean_expired_data clock loc w) as [u w2]. cbn [snd fst].
  destruct (OrdDict.get loc (data_cache (proc w2))) as [[|d l]|]; try reflexivity.
  rewrite combined_rate_cases.
  destruct (forallb magnitude_in_range (d :: l)); reflexivity.
Qed.

Lemma checked_calculate_cases (loc : string) (w : World) :
  Checked.calculate_congestion pow_half clock loc w
  = match fst (cached_rate clock loc w) with
    | Some r => (Ok r, snd (cached_rate clock loc w))
    | None => Checked.recompute_congestion pow_half clock loc (snd (cached_rate clock loc w))
    end.
Proof.
  unfold Checked.calculate_congestion, bind.
  destruct (cached_rate clock loc w) as [[r|] w1]; reflexivity.
Qed.

Lemma checked_recompute_memo (loc : string) (w : World) :
  memo_computed pow_half w ->
  memo_computed pow_half (snd (Checked.recompute_congestion pow_half clock loc w)).
Proof.
  intros Hw. rewrite checked_recompute_cases.
  pose proof (clean_expired_data_range pow_half clock loc w Hw) as Hc.
  destruct (OrdDict.get loc _) as [[|d l]|]; try exact Hc.
  destruct (forallb magnitude_in_range (d :: l)); [|exact Hc].
  now apply recompute_congestion_cache.
Qed.

Lemma checked_calculate_memo (loc : string) (w : World) :
  memo_computed pow_half w ->
  memo_computed pow_half (snd (Checked.calculate_congestion pow_half clock loc w)).
Proof.
  intros Hw. rewrite checked_calculate_cases.
  assert (Hw1 : memo_computed pow_half (snd (cached_rate clock loc w))).
  { intros l r t. rewrite cached_rate_proc. apply Hw. }
  destruct (fst (cached_rate clock loc w)); [exact Hw1|].
  now apply checked_recompute_memo.
Qed.

(** A call of [calculate_congestion] either raises [OverflowError] or
    returns a rate. *)
Lemma checked_calculate_outcome (loc : string) (w : World) :
  fst (Checked.calculate_congestion pow_half clock loc w) = OverflowError
  \/ exists r, fst (Checked.calculate_congestion pow_half clock loc w) = Ok r.
Proof.
  rewrite checked_calculate_cases.
  destruct (fst (cached_rate clock loc w)); [right; eexists; reflexivity|].
  rewrite checked_recompute_cases.
  destruct (OrdDict.get loc _) as [[|d l]|]; try (right; eexists; reflexivity).
  destruct (forallb magnitude_in_range (d :: l)); [right; eexists; reflexivity | now left].
Qed.

Lemma checked_all_rates_loop_memo (locs : list string) (res : OrdDict.t Q) (w : World) :
  memo_computed pow_half w ->
  memo_computed pow_half (snd (Checked.all_rates_loop pow_half clock locs res w)).
Proof.
  revert res w. induction locs as [|loc locs IH]; intros res w Hw; [exact Hw|].
  cbn [Checked.all_rates_loop]. unfold bind at 1.
  pose proof (clean_expired_data_range pow_half clock loc w Hw) as Hc.
  destruct (clean_expired_data clock loc w) as [u w1]. simpl in Hc.
  unfold bind at 1, get_proc.
  destruct (OrdDict.get loc (data_cache (proc w1))) as [[|d l]|]; try now apply IH.
  unfold Checked.bind_result.
  pose proof (checked_calculate_memo loc w1 Hc) as Hr.
  destruct (Checked.calculate_congestion pow_half clock loc w1) as [[r|key| |] w2];
    simpl in Hr; try exact Hr.
  now apply IH.
Qed.

Lemma checked_all_rates_loop_outcome (locs : list string) (res : OrdDict.t Q) (w : World) :
  returns_or_overflows (fst (Checked.all_rates_loop pow_half clock locs res w)).
Proof.
  revert res w. induction locs as [|loc locs IH]; intros res w;
    [right; eexists; reflexivity|].
  cbn [Checked.all_rates_loop]. unfold bind at 1.
  destruct (clean_expired_data clock loc w) as [u w1].
  unfold bind at 1, get_proc.
  destruct (OrdDict.get loc (data_cache (proc w1))) as [[|d l]|]; try apply IH.
  unfold Checked.bind_result.
  pose proof (checked_calculate_outcome loc w1) as Hr.
  destruct (Checked.calculate_congestion pow_half clock loc w1) as [[r|key| |] w2];
    simpl in Hr.
  - apply IH.
  - destruct Hr as [Hr|[r Hr]]; discriminate Hr.
  - destruct Hr as [Hr|[r Hr]]; discriminate Hr.
  - now left.
Qed.

Lemma checked_run_processor_op_memo (w : World) (op : processor_op) :
  memo_computed pow_half w ->
  memo_computed pow_half (Checked.run_processor_op pow_half clock w op).
Proof.
  intros Hw. destruct op as [d|loc| |a b|batch]; simpl.
  - now apply add_data_point_range.
  - now apply checked_calculate_memo.
  - unfold Checked.get_all_congestion_rates, bind, get_proc.
    now apply checked_all_rates_loop_memo.
  - unfold Checked.get_congestion_between_nodes. now apply checked_calculate_memo.
  - unfold Checked.process_accelerometer_batch, Checked.bind_result.
    pose proof (ingest_batch_range pow_half clock batch w Hw) as Hi.
    destruct (ingest_batch clock batch w) as [[u|key| |] w1]; simpl in Hi; try exact Hi.
    unfold Checked.get_all_congestion_rates, bind, get_proc.
    now apply checked_all_rates_loop_memo.
Qed.

Lemma checked_run_processor_memo (expiry : Z) (ops : list processor_op) :
  memo_computed pow_half (Checked.run_processor pow_half clock expiry ops).
Proof.
  induction ops as [|op ops IH] using rev_ind.
  - intros loc r t. unfold Checked.run_processor. simpl. now rewrite lookup_empty.
  - unfold Checked.run_processor in *. rewrite foldl_app. simpl.
    now apply checked_run_processor_op_memo.
Qed.

Lemma checked_calculate_unmemoized (loc : string) (w : World) :
  fst (cached_rate clock loc w) = None ->
  fst (Checked.calculate_congestion pow_half clock loc w)
  = match OrdDict.get loc (data_cache (proc w)) with
    | None => Ok 0
    | Some data =>
        match unexpired (clock (ticks (snd (cached_rate clock loc w))))
                        (expiry_time (proc w)) data with
        | [] => Ok 0
        | live =>
            if forallb magnitude_in_range live
            then Ok (combined_rate pow_half (proc w) live)
            else OverflowError
        end
    end.
Proof.
  intros Hmemo.
  pose proof (calculate_congestion_unmemoized pow_half clock loc w Hmemo) as Hexact.
  pose proof (cached_rate_proc clock loc w) as Hp.
  rewrite checked_calculate_cases, Hmemo, checked_recompute_cases.
  unfold calculate_congestion, bind in Hexact.
  destruct (cached_rate clock loc w) as [o w1]. cbn [fst snd] in *. subst o.
  rewrite clean_expired_data_get, Hp.
  destruct (OrdDict.get loc (data_cache (proc w))) as [data|]; cbn [option_map];
    [|reflexivity].
  destruct (unexpired _ _ data) as [|d live]; [reflexivity|].
  destruct (forallb magnitude_in_range (d :: live)); [|reflexivity].
  cbn [fst]. now rewrite Hexact.
Qed.

End RangeProcessor.

(** C6: for every estimator state (any sequence of calls since the
    construction of the processor, raising or not, any clock) and every
    location id, [calculate_congestion] either raises [OverflowError] or
    returns a rate that lies in [0, 1]. A fresh memoized rate is returned
    as it is, and it is the weighted sum that was computed from the
    samples of an earlier call. Without one, the rate is exactly 0 when
    the location has no record or when none of its samples is unexpired;
    otherwise the call raises [OverflowError] when squaring a component
    of an unexpired sample overflows, and when no square overflows the
    rate is 0.5 x speed factor + 0.3 x variance factor + 0.2 x density
    factor of the unexpired samples, each factor lying in [0, 1]. *)
Theorem calculate_congestion_rate_or_overflow
        (pow_half : Q -> Q) (clock : nat -> Q) (expiry : Z)
        (ops : list processor_op) (loc : string) :
  let w := Checked.run_processor pow_half clock expiry ops in
  let p := proc w in
  let res := fst (Checked.calculate_congestion pow_half clock loc w) in
  let memo := fst (cached_rate clock loc w) in
  let now := clock (ticks (snd (cached_rate clock loc w))) in
  (res = OverflowError \/ exists r, res = Ok r /\ 0 <= r <= 1)
  /\ (forall m, memo = Some m ->
      res = Ok m
      /\ exists p' samples,
           m = (5 # 10) * speed_factor pow_half p' samples
               + (3 # 10) * variance_factor pow_half samples
               + (2 # 10) * density_factor samples
           /\ 0 <= speed_factor pow_half p' samples <= 1
           /\ 0 <= variance_factor pow_half samples <= 1
           /\ 0 <= density_factor samples <= 1)
  /\ (memo = None ->
      (OrdDict.get loc (data_cache p) = None -> res = Ok 0)
      /\ (forall data, OrdDict.get loc (data_cache p) = Some data ->
            let live := unexpired now (expiry_time p) data in
            (live = [] -> res = Ok 0)
            /\ (live <> [] ->
                (forallb magnitude_in_range live = false -> res = OverflowError)
                /\ (forallb magnitude_in_range live = true ->
                    res = Ok ((5 # 10) * speed_factor pow_half p live
                              + (3 # 10) * variance_factor pow_half live
                              + (2 # 10) * density_factor live))
                /\ 0 <= speed_factor pow_half p live <= 1
                /\ 0 <= variance_factor pow_half live <= 1
                /\ 0 <= density_factor live <= 1))).
Proof.
  intros w p res memo now.
  pose proof (checked_run_processor_memo pow_half clock expiry ops) as Hw. fold w in Hw.
  assert (Hsome : forall m, memo = Some m ->
            res = Ok m /\ exists p' samples, m = combined_rate pow_half p' samples).
  { intros m Hm. subst res memo. split.
    - rewrite checked_calculate_cases, Hm. reflexivity.
    - destruct (cached_rate_memo clock loc w m Hm) as [t Ht]. exact (Hw loc m t Ht). }
  split; [|split].
  - destruct memo as [m|] eqn:Em.
    + destruct (Hsome m eq_refl) as [-> (p' & samples & ->)].
      right. eexists. split; [reflexivity | apply combined_rate_range].
    + subst res memo. rewrite (checked_calculate_unmemoized pow_half clock loc w Em).
      destruct (OrdDict.get loc (data_cache (proc w))) as [data|];
        [|right; exists 0; split; [reflexivity | lra]].
      destruct (unexpired _ _ data) as [|d live];
        [right; exists 0; split; [reflexivity | lra]|].
      cbv zeta. destruct (forallb magnitude_in_range (d :: live)); [|now left].
      right. eexists. split; [reflexivity | apply combined_rate_range].
  - intros m Hm. destruct (Hsome m Hm) as [Hres (p' & samples & Hsum)].
    split; [exact Hres|]. exists p', samples. split; [exact Hsum|].
    split; [apply speed_factor_range|].
    split; [apply variance_factor_range | apply density_factor_range].
  - intros Hmemo. subst res memo.
    rewrite (checked_calculate_unmemoized pow_half clock loc w Hmemo).
    fold p now. split.
    + now intros ->.
    + intros data ->. cbv zeta. split.
      * now intros ->.
      * intros Hlive. destruct (unexpired now (expiry_time p) data) as [|d live] eqn:E;
          [congruence|].
        cbv zeta. split; [now intros ->|]. split; [now intros ->|].
        split; [apply speed_factor_range|].
        split; [apply variance_factor_range | apply density_factor_range].
Qed.

(** After one sample with [x = 10 ^ 200] has been stored, its location
    has no memoized rate and a record with that one unexpired sample, and
    the call for the location returns no rate. *)
Lemma calculate_congestion_overflow_example :
  fst (cached_rate (fun _ => 0) "L" far_state) = None
  /\ OrdDict.get "L" (data_cache (proc far_state)) = Some [far_sample]
  /\ unexpired 0 300 [far_sample] = [far_sample]
  /\ fst (Checked.calculate_congestion (fun v => v) (fun _ => 0) "L" far_state)
     = OverflowError.
Proof. repeat split; vm_compute; reflexivity. Qed.

(** X9: for a record of exactly one sample the rate is computed when
    none of the three squares of the sample overflows, and it is then
    51/100 whatever the sample is: one sample spans no time, so the speed
    factor is 1; there is no variance; and one user out of twenty gives
    the density factor 1/20. When a square overflows the computation
    raises [OverflowError]. *)
Theorem single_sample_rate_or_overflow (pow_half : Q -> Q) (p : CongestionProcessor)
        (d : AccelerometerData) :
  (magnitude_in_range d = true ->
   exists r, Checked.combined_rate pow_half p [d] = Ok r /\ r == 51 # 100)
  /\ (magnitude_in_range d = false ->
      Checked.combined_rate pow_half p [d] = OverflowError).
Proof.
  rewrite combined_rate_cases. cbn [forallb]. rewrite andb_true_r. split.
  - intros ->. eexists. split; [reflexivity|].
    apply (single_sample_factors pow_half p d).
  - now intros ->.
Qed.

(** X12: a batch in which every dictionary has the six keys raises no
    [KeyError]: its samples are stored one by one, in order, with
    [add_data_point], and the call then returns what
    [get_all_congestion_rates] returns in the state so reached, or raises
    the [OverflowError] that it raises there. *)
Theorem well_formed_batch_is_ingested
        (pow_half : Q -> Q) (clock : nat -> Q)
        (batch : list RawSample) (samples : list AccelerometerData) (w : World) :
  Forall2 (fun r d => parse_sample r = Ok d) batch samples ->
  let w1 := ingest_all clock samples w in
  Checked.process_accelerometer_batch pow_half clock batch w
  = Checked.get_all_congestion_rates pow_half clock w1
  /\ returns_or_overflows
       (fst (Checked.process_accelerometer_batch pow_half clock batch w)).
Proof.
  intros Hall w1.
  assert (E : Checked.process_accelerometer_batch pow_half clock batch w
              = Checked.get_all_congestion_rates pow_half clock w1).
  { unfold Checked.process_accelerometer_batch, Checked.bind_result.
    now rewrite (ingest_batch_ok clock batch samples w Hall). }
  split; [exact E|]. rewrite E.
  unfold Checked.get_all_congestion_rates, bind, get_proc.
  apply checked_all_rates_loop_outcome.
Qed.

Lemma well_formed_batch_is_ingested_witness :
  let batch :=
    [mkRaw (Some 0) (Some 0) (Some 2) (Some 0) (Some "u"%string) (Some "L"%string)] in
  let w := mkWorld (new_processor 300) 0 in
  let w1 := ingest_all (fun _ => 0) [mkAccel 0 0 2 0 "u" "L"] w in
  Checked.process_accelerometer_batch (fun v => v) (fun _ => 0) batch w
  = Checked.get_all_congestion_rates (fun v => v) (fun _ => 0) w1
  /\ returns_or_overflows
       (fst (Checked.process_accelerometer_batch (fun v => v) (fun _ => 0) batch w)).
Proof.
  intros batch w.
  apply (well_formed_batch_is_ingested (fun v => v) (fun _ => 0) batch
                                       [mkAccel 0 0 2 0 "u" "L"] w).
  repeat constructor.
Defined.
